(** * LenslessPiCam: mask rendering, intensity PSF and PSF/measurement conditioning

    A shallow embedding of
      - [lensless/hardware/slm.py]: [set_programmable_mask],
        [get_programmable_mask], [get_intensity_psf];
      - [lensless/io.py]: [load_psf], [load_data], [save_image];
      - [scripts/sim/digicam_psf.py]: the aperture and the values of the
        controllable region;
      - [lensless/recon/model_dict.py]: [model_dict], [download_model];
      - [lensless/benchmark.py]: [ParallelDataset], [benchmark].

    Floating-point arrays are idealised: the finite values are exact
    rationals (mask rendering, so that it can be run) or exact reals (where
    a square root is taken), and the special values that the code's own
    divisions create (NaN from 0/0, infinities from x/0) are kept explicit,
    in the rendered mask and through the intensity computation.
    Python exceptions are the [Raise] outcomes of an error monad.

    Parts I to VI hold the model, Part VII its properties: one theorem for
    each claim C1-C10 of the specification, further properties X1, X2, ...
    of the code, and the lemmas they rest on. *)

From Stdlib Require Import ZArith QArith Qround Qabs Qminmax Qreals Reals Lra Lia List String Bool.
From Stdlib Require Lqa.
From stdpp Require Import base option list gmap strings.

Set Default Proof Using "Type".

(** ** Exceptions and the error monad *)

Inductive exn : Type :=
  | KeyError (key : string)
  | IndexError
  | ValueError
  | TypeError
  | ZeroDivisionError
  | RuntimeError
  | AssertionError.

Inductive result (A : Type) : Type :=
  | Ok (a : A)
  | Raise (e : exn).
Arguments Ok {A} a.
Arguments Raise {A} e.

#[global] Instance result_ret : MRet result := fun A a => Ok a.
#[global] Instance result_bind : MBind result := fun A B f m =>
  match m with
  | Ok a => f a
  | Raise e => Raise e
  end.

#[global] Instance result_fmap : FMap result := fun A B f m =>
  match m with
  | Ok a => Ok (f a)
  | Raise e => Raise e
  end.

Definition from_option {A} (e : exn) (o : option A) : result A :=
  match o with
  | Some a => Ok a
  | None => Raise e
  end.

Definition assert (b : bool) : result unit :=
  if b then Ok tt else Raise AssertionError.

Definition is_ok {A} (m : result A) : Prop := ∃ a, m = Ok a.

(** ** Python slices

    [a[start:stop]] on an axis of length [n]: a negative bound counts from
    the end, and both bounds are then clamped to [0..n].  The result is the
    first index and the number of indices selected. *)

Definition slice_bound (n : nat) (i : Z) : Z :=
  if (i <? 0)%Z then Z.max (i + Z.of_nat n) 0 else Z.min i (Z.of_nat n).

Definition py_slice (n : nat) (start stop : Z) : nat * nat :=
  let lo := slice_bound n start in
  let hi := slice_bound n stop in
  (Z.to_nat lo, Z.to_nat (hi - lo)).

(** A slice assignment [a[...] = v] needs every axis of [v] to have the
    length of the selected axis, or length one (broadcasting). *)
Definition broadcasts (vlen slen : nat) : bool :=
  (vlen =? slen)%nat || (vlen =? 1)%nat.

Definition in_range (lo len i : nat) : bool :=
  (lo <=? i)%nat && (i <? lo + len)%nat.

Definition prod_list (l : list nat) : nat := fold_right Nat.mul 1%nat l.

(** ** Rational helpers for the idealised float arithmetic *)

(** [x.astype(int)]: truncation towards zero. *)
Definition Qtrunc (q : Q) : Z := Z.quot (Qnum q) (Z.pos (Qden q)).

(** [np.round] / [torch.round]: to the nearest integer, ties to even. *)
Definition round_half_even (q : Q) : Z :=
  let f := Qfloor q in
  let d := (q - inject_Z f)%Q in
  match (d ?= 1 # 2)%Q with
  | Lt => f
  | Gt => (f + 1)%Z
  | Eq => if Z.even f then f else (f + 1)%Z
  end.

(** A float: a finite value, or one of the special values of a division. *)
Inductive fval : Type :=
  | Fin (q : Q)
  | NaN
  | PInf
  | NInf.

(** [a / b] on finite floats (the sign of a zero is not tracked). *)
Definition fdiv (a b : Q) : fval :=
  if Qeq_bool b 0 then
    match (a ?= 0)%Q with
    | Eq => NaN
    | Gt => PInf
    | Lt => NInf
    end
  else Fin (a / b).

(** [np.round(x * 255) / 255.0] on one entry. *)
Definition quantize_entry (v : fval) : fval :=
  match v with
  | Fin q => Fin (inject_Z (round_half_even (q * 255)) / 255)
  | NaN => NaN
  | PInf => PInf
  | NInf => NInf
  end.

(** The k-th of the 256 levels 0/255, 1/255, ..., 255/255. *)
Definition level (k : Z) : fval := Fin (inject_Z k / 255).

(** * Part I: the programmable mask ([lensless/hardware/slm.py]) *)

Module Slm.

(** ** Data *)

(** A numpy array of floats: its shape and its entries in C order. *)
Record ndarray : Type := { shape : list nat; data : list Q }.

Definition wf_ndarray (a : ndarray) : Prop :=
  length (data a) = prod_list (shape a).

(** A mask image, indexed channel, row, column. *)
Abbreviation mask3 := (list (list (list Q))) (only parsing).
Abbreviation fmask := (list (list (list fval))) (only parsing).

Definition pixel {A} (m : list (list (list A))) (k y x : nat) : option A :=
  match m !! k with
  | Some ch => match ch !! y with
               | Some row => row !! x
               | None => None
               end
  | None => None
  end.

(** The sensor descriptor: [sensor.resolution] (rows, columns) and
    [sensor.pitch] (the pixel size along each axis). *)
Record sensor : Type := { resolution : nat * nat; pitch : Q * Q }.

(** A value of the device dictionary [slm_param]: a vector such as the cell
    pitch or size, or the color-filter table (rows, columns, colour). *)
Inductive pvalue : Type :=
  | PVec (v : list Q)
  | PTable (t : list (list (list Q))).

(** [a.shape] and [np.flipud a] for such a value. *)
Definition pshape (p : pvalue) : list nat :=
  match p with
  | PVec v => [length v]
  | PTable t => [length t; length (hd [] t); length (hd [] (hd [] t))]
  end.

Definition pflipud (p : pvalue) : pvalue :=
  match p with
  | PVec v => PVec (rev v)
  | PTable t => PTable (rev t)
  end.

(** The dictionary keys [SLMParam_wp.PITCH], [SLMParam_wp.CELL_SIZE] and
    [SLMParam_wp.COLOR_FILTER] of the waveprop package. *)
Definition PITCH : string := "pitch".
Definition CELL_SIZE : string := "cell_size".
Definition COLOR_FILTER : string := "color_filter".

(** ** [vals.reshape((-1, vals.shape[-1]), order="F")] *)

(** Column-major index to multi-index, and multi-index to row-major index. *)
Fixpoint unravel_F (dims : list nat) (r : nat) : list nat :=
  match dims with
  | [] => []
  | d :: ds => (r mod d)%nat :: unravel_F ds (r / d)%nat
  end.

Definition ravel_C (dims idx : list nat) : nat :=
  fold_left (fun acc di => (acc * fst di + snd di)%nat) (combine dims idx) 0%nat.

(** The result is the shape [(rows, cols)] with the rows of the new array. *)
Definition reshape_F (vals : ndarray) : result (nat * nat * list (list Q)) :=
  match rev (shape vals) with
  | [] => Raise IndexError
  | w :: rlead =>
      if (w =? 0)%nat then Raise ValueError
      else
        let lead := rev rlead in
        let rows := prod_list lead in
        Ok (rows, w,
            map (fun r =>
                   map (fun c => nth (ravel_C (shape vals) (unravel_F lead r ++ [c]))
                                     (data vals) 0%Q)
                       (seq 0 w))
                (seq 0 rows))
  end.

(** ** The cell footprint and the placement loop *)

(** [(slm_param[CELL_SIZE] / d1).astype(int)], unpacked into two values. *)
Definition cell_pixels (cell : pvalue) (d1 : Q * Q) : result (Z * Z) :=
  match cell with
  | PVec [c] => Ok (Qtrunc (c / fst d1), Qtrunc (c / snd d1))
  | PVec [ch; cw] => Ok (Qtrunc (ch / fst d1), Qtrunc (cw / snd d1))
  | _ => Raise ValueError
  end.

Definition zeros (c : nat) (res : nat * nat) : mask3 :=
  replicate c (replicate (fst res) (replicate (snd res) 0%Q)).

(** The weight of channel [k] in [_rect], a one-entry vector being
    broadcast over the channels. *)
Definition weight_at (weights : list Q) (k : nat) : Q :=
  if (length weights =? 1)%nat then nth 0 weights 0%Q else nth k weights 0%Q.

(** [mask[:, r0:r0+nr, c0:c0+nc] = v * _rect] *)
Definition assign_block (mask : mask3) (weights : list Q) (v : Q)
    (r0 nr c0 nc : nat) : mask3 :=
  imap (fun k ch =>
    imap (fun y row =>
      if in_range r0 nr y
      then imap (fun x old => if in_range c0 nc x then (v * weight_at weights k)%Q else old) row
      else row) ch) mask.

(** The pixel block that cell [center] selects: first row, row count, first
    column, column count, together with the footprint height and width the
    block must broadcast from. *)
Definition top_left (sn : sensor) (hp wp : Z) (center : Q * Q) : Z * Z :=
  let cy := Qtrunc (fst center / fst (pitch sn) + inject_Z (Z.of_nat (fst (resolution sn))) / 2) in
  let cx := Qtrunc (snd center / snd (pitch sn) + inject_Z (Z.of_nat (snd (resolution sn))) / 2) in
  ((cy - hp / 2)%Z, (cx + 1 - wp / 2)%Z).

Definition footprint (sn : sensor) (hp wp : Z) (center : Q * Q) : (nat * nat) * (nat * nat) :=
  let '(r, c) := top_left sn hp wp center in
  (py_slice (fst (resolution sn)) r (r + hp),
   py_slice (snd (resolution sn)) c (c + wp)).

(** Whether pixel [(y, x)] lies in the block that cell [center] selects. *)
Definition covers (sn : sensor) (hp wp : Z) (center : Q * Q) (y x : nat) : bool :=
  let '((r0, nr), (c0, nc)) := footprint sn hp wp center in
  in_range r0 nr y && in_range c0 nc x.

(** A shape error is a [ValueError] of numpy and a [RuntimeError] of torch. *)
Definition shape_error (use_torch : bool) : exn :=
  if use_torch then RuntimeError else ValueError.

(** The colour weights [cf[i]] of cell [i], or the single weight 1.0 of
    [np.ones((1, h, w))] in the monochrome branch. *)
Definition cell_weights (cf : option (list (list Q))) (i : nat) : result (list Q) :=
  match cf with
  | Some c => from_option IndexError (c !! i)
  | None => Ok [1%Q]
  end.

(** One iteration of [for i, _center in enumerate(centers)]. *)
Definition place_cell (use_torch : bool) (sn : sensor) (cf : option (list (list Q)))
    (hp wp : Z) (slm_vals_flat : list Q) (i : nat) (center : Q * Q) (mask : mask3)
    : result mask3 :=
  weights ← cell_weights cf i;
  _ ← (if (hp <? 0)%Z || (wp <? 0)%Z then Raise ValueError else Ok tt);
  v ← from_option IndexError (slm_vals_flat !! i);
  let '((r0, nr), (c0, nc)) := footprint sn hp wp center in
  if broadcasts (length weights) (length mask)
     && broadcasts (Z.to_nat hp) nr && broadcasts (Z.to_nat wp) nc
  then Ok (assign_block mask weights v r0 nr c0 nc)
  else Raise (shape_error use_torch).

Fixpoint place_cells (use_torch : bool) (sn : sensor) (cf : option (list (list Q)))
    (hp wp : Z) (slm_vals_flat : list Q) (i : nat) (centers : list (Q * Q))
    (mask : mask3) : result mask3 :=
  match centers with
  | [] => Ok mask
  | center :: rest =>
      mask' ← place_cell use_torch sn cf hp wp slm_vals_flat i center mask;
      place_cells use_torch sn cf hp wp slm_vals_flat (S i) rest mask'
  end.

(** ** Quantisation: [mask / np.max(mask)], then [np.round(mask * 255) / 255.0] *)

Definition list_max (l : list Q) : option Q :=
  match l with
  | [] => None
  | x :: l' => Some (fold_left Qmax l' x)
  end.

Definition mask_max (m : mask3) : option Q := list_max (concat (concat m)).

Definition quantize (use_torch : bool) (m : mask3) : result fmask :=
  mx ← from_option (shape_error use_torch) (mask_max m);
  Ok (map (map (map (fun x => quantize_entry (fdiv x mx)))) m).

(** ** [get_programmable_mask] *)

Section Render.

(** The waveprop helpers [get_centers] and [get_color_filter], the two
    rotation routines ([scipy.ndimage.rotate] with [reshape=False] and
    torchvision's [rotate]) and the availability of torch are external. *)
Variable torch_available : bool.
Variable get_centers : nat * nat → pvalue → list (Q * Q).
Variable get_color_filter : nat * nat → pvalue → list (list Q).
Variable rotate_func : Q → fmask → fmask.
Variable torch_rotate : Q → fmask → fmask.

(** Lines 140-155: the per-cell weights, [None] in the monochrome branch. *)
Definition color_filter_weights (n_active_slm_pixels : nat * nat)
    (slm_param : gmap string pvalue) (flipud : bool) : option (list (list Q)) :=
  match slm_param !! COLOR_FILTER with
  | Some color_filter =>
      Some (get_color_filter n_active_slm_pixels
              (if flipud then pflipud color_filter else color_filter))
  | None => None
  end.

(** What the placement loop works with. *)
Record layout : Type := {
  n_color_filter : nat;
  centers : list (Q * Q);
  cf : option (list (list Q));
  height_pixel : Z;
  width_pixel : Z;
  slm_vals_flat : list Q
}.

(** Lines 126-167: the preparation of the pattern and of the geometry. *)
Definition prepare (vals : ndarray) (sn : sensor) (slm_param : gmap string pvalue)
    (flipud : bool) : result layout :=
  '(n_active_slm_pixels, slm_vals) ← reshape_F vals;
  cfv ← from_option (KeyError "color_filter") (slm_param !! "color_filter"%string);
  pixel_pitch ← from_option (KeyError PITCH) (slm_param !! PITCH);
  cell ← from_option (KeyError CELL_SIZE) (slm_param !! CELL_SIZE);
  '(_height_pixel, _width_pixel) ← cell_pixels cell (pitch sn);
  Ok {| n_color_filter := prod_list (take 2 (pshape cfv));
        centers := get_centers n_active_slm_pixels pixel_pitch;
        cf := color_filter_weights n_active_slm_pixels slm_param flipud;
        height_pixel := _height_pixel;
        width_pixel := _width_pixel;
        slm_vals_flat := concat slm_vals |}.

(** Lines 169-191: the placement loop on the mask of zeros. *)
Definition place (use_torch : bool) (sn : sensor) (l : layout) : result mask3 :=
  place_cells use_torch sn (cf l) (height_pixel l) (width_pixel l) (slm_vals_flat l)
    0 (centers l) (zeros (n_color_filter l) (resolution sn)).

Definition placed_mask (use_torch : bool) (vals : ndarray) (sn : sensor)
    (slm_param : gmap string pvalue) (flipud : bool) : result mask3 :=
  l ← prepare vals sn slm_param flipud;
  place use_torch sn l.

Definition apply_rotate (use_torch : bool) (rotate : option Q) (m : fmask) : fmask :=
  match rotate with
  | None => m
  | Some angle => if use_torch then torch_rotate angle m else rotate_func angle m
  end.

Definition get_programmable_mask (vals : ndarray) (sn : sensor)
    (slm_param : gmap string pvalue) (rotate : option Q) (flipud as_torch : bool)
    : result fmask :=
  let use_torch := torch_available && as_torch in
  mask ← placed_mask use_torch vals sn slm_param flipud;
  mask ← quantize use_torch mask;
  Ok (apply_rotate use_torch rotate mask).

End Render.

(** Modelled from the spec: [get_centers] of the waveprop package is not
    among the sources.  Each cell's physical centre is computed from its
    index and the pitch, on a grid centred at the optical axis; the cells
    are listed row by row, as the flattened pattern is. *)
Definition centered (n : nat) (p : Q) (i : nat) : Q :=
  ((inject_Z (Z.of_nat i) - (inject_Z (Z.of_nat n) - 1) / 2) * p)%Q.

Definition centered_grid (dim : nat * nat) (pixel_pitch : pvalue) : list (Q * Q) :=
  match pixel_pitch with
  | PVec [py; px] =>
      r ← seq 0 (fst dim); (fun c => (centered (fst dim) py r, centered (snd dim) px c)) <$> seq 0 (snd dim)
  | _ => []
  end.

(** Modelled from the spec: [get_color_filter] of the waveprop package is
    not among the sources.  The per-cell colour-filter assignment repeats
    the device's filter table over the cells, row by row. *)
Definition tiled_filter (dim : nat * nat) (color_filter : pvalue) : list (list Q) :=
  match color_filter with
  | PTable t =>
      r ← seq 0 (fst dim);
      (fun c => nth (c mod length (hd [] t)) (nth (r mod length t) t []) []) <$> seq 0 (snd dim)
  | PVec _ => []
  end.

(** ** Scenario A of the specification

    An 8 x 8 pattern whose only hot cell is cell (0, 0), and a device whose
    cells have the pitch and the size of 8 sensor pixels (lengths are in units
    of the sensor pixel) and whose rows of cells are red, green and blue in
    turn, so that the mask has three channels and cell (0, 0) is red. *)
Definition hot_pattern : ndarray :=
  {| shape := [8; 8]%nat; data := 1%Q :: replicate 63 0%Q |}.

Definition zero_pattern : ndarray :=
  {| shape := [8; 8]%nat; data := replicate 64 0%Q |}.

Definition sensor_64x64 : sensor := {| resolution := (64, 64)%nat; pitch := (1, 1)%Q |}.
Definition sensor_64x65 : sensor := {| resolution := (64, 65)%nat; pitch := (1, 1)%Q |}.

Definition device_8px : gmap string pvalue :=
  <[COLOR_FILTER := PTable [[[1; 0; 0]]; [[0; 1; 0]]; [[0; 0; 1]]]%Q]>
  (<[PITCH := PVec [8%Q; 8%Q]]> (<[CELL_SIZE := PVec [8%Q; 8%Q]]> ∅)).

(** The same device with cells of half a sensor pixel, and without its
    filter table. *)
Definition device_half_px : gmap string pvalue :=
  <[CELL_SIZE := PVec [1 # 2; 1 # 2]%Q]> device_8px.

Definition device_monochrome : gmap string pvalue := delete COLOR_FILTER device_8px.

(** The rotation routines are not called when [rotate] is [None]. *)
Definition no_rotation (angle : Q) (m : fmask) : fmask := m.

Definition render (vals : ndarray) (sn : sensor) (slm_param : gmap string pvalue)
    : result fmask :=
  get_programmable_mask false centered_grid tiled_filter no_rotation no_rotation
    vals sn slm_param None false false.

(** The mask with level 255 on rows 0-7 and columns 1-8 of the red channel,
    and level 0 elsewhere. *)
Definition block_mask : fmask :=
  map (fun k => map (fun y => map (fun x =>
         if (k =? 0)%nat && (y <? 8)%nat && (1 <=? x)%nat && (x <=? 8)%nat
         then level 255 else level 0) (seq 0 65)) (seq 0 64)) (seq 0 3).

(** A mask of NaN. *)
Definition nan_mask (c : nat) (res : nat * nat) : fmask :=
  replicate c (replicate (fst res) (replicate (snd res) NaN)).

(** ** Properties of a rendered mask *)

Definition has_shape {A} (c h w : nat) (m : list (list (list A))) : Prop :=
  length m = c ∧ Forall (fun ch => length ch = h ∧ Forall (fun row => length row = w) ch) m.

(** A property of the pixels of a mask, by channel, row and column. *)
Definition holds (inv : nat → nat → nat → Q → Prop) (m : mask3) : Prop :=
  ∀ k y x v, pixel m k y x = Some v → inv k y x v.

(** Every entry is one of the 256 levels. *)
Definition quantized (m : fmask) : Prop :=
  ∀ k y x v, pixel m k y x = Some v → ∃ n : Z, (0 <= n <= 255)%Z ∧ v = level n.

(** ** [set_programmable_mask] *)

(** An entry of the table [slm_devices] of the slm-controller package:
    [SLMParam.SLM_SHAPE] and [SLMParam.MONOCHROME]. *)
Record slm_device : Type := { slm_shape : list nat; monochrome : bool }.

Definition SUPPORTED_DEVICE : gmap string string :=
  <["adafruit" := "~/slm-controller/examples/adafruit_slm.py"]>
  (<["nokia" := "~/slm-controller/examples/nokia_slm.py"]>
  (<["holoeye" := "~/slm-controller/examples/holoeye_slm.py"]> ∅)).

Section Upload.

(** The table of devices and the connection to the Raspberry Pi are
    external; the connection check either succeeds or raises. *)
Variable slm_devices : gmap string slm_device.
Variable check_username_hostname : string → string → result unit.

(** The result is the command that is run on the Raspberry Pi, once the
    pattern has been saved and copied there. *)
Definition set_programmable_mask (pattern : ndarray) (device rpi_username rpi_hostname : string)
    : result string :=
  client ← check_username_hostname rpi_username rpi_hostname;
  let rpi_python := "~/slm-controller/slm_controller_env/bin/python" in
  _ ← assert (bool_decide (is_Some (SUPPORTED_DEVICE !! device)));
  script ← from_option (KeyError device) (SUPPORTED_DEVICE !! device);
  dev ← from_option (KeyError device) (slm_devices !! device);
  let expected_shape :=
    if negb (monochrome dev) then 3%nat :: slm_shape dev else slm_shape dev in
  _ ← assert (bool_decide (shape pattern = expected_shape));
  let remote_path := "~/tmp_pattern.npy" in
  Ok (rpi_python +:+ " " +:+ script +:+ " --file_path " +:+ remote_path).

End Upload.

(** ** [get_intensity_psf] *)

(** A float of the intensity computation: a finite value (an exact real,
    since a square root is taken) or one of the special values, which a
    mask can hold ([get_programmable_mask] returns NaN after 0/0) and which
    the arithmetic below passes on as numpy and torch do.  The sign of a
    zero is not tracked. *)
Inductive rfloat : Type :=
  | RFin (r : R)
  | RNaN
  | RPInf
  | RNInf.

(** The sign of a finite value, which is the sign of its product with an
    infinity; zero times infinity is NaN. *)
Definition rsign (x : R) : comparison :=
  if Rlt_dec x 0 then Lt else if Rlt_dec 0 x then Gt else Eq.

(** [a * b], [a + b], [-a] and [a - b] on floats. *)
Definition rmul (a b : rfloat) : rfloat :=
  match a, b with
  | RFin x, RFin y => RFin (x * y)
  | RNaN, _ | _, RNaN => RNaN
  | RFin x, RPInf | RPInf, RFin x =>
      match rsign x with Gt => RPInf | Lt => RNInf | Eq => RNaN end
  | RFin x, RNInf | RNInf, RFin x =>
      match rsign x with Gt => RNInf | Lt => RPInf | Eq => RNaN end
  | RPInf, RPInf | RNInf, RNInf => RPInf
  | RPInf, RNInf | RNInf, RPInf => RNInf
  end.

Definition radd (a b : rfloat) : rfloat :=
  match a, b with
  | RFin x, RFin y => RFin (x + y)
  | RNaN, _ | _, RNaN => RNaN
  | RPInf, RNInf | RNInf, RPInf => RNaN
  | RPInf, _ | _, RPInf => RPInf
  | RNInf, _ | _, RNInf => RNInf
  end.

Definition ropp (a : rfloat) : rfloat :=
  match a with
  | RFin x => RFin (- x)
  | RNaN => RNaN
  | RPInf => RNInf
  | RNInf => RPInf
  end.

Definition rsub (a b : rfloat) : rfloat := radd a (ropp b).

(** [np.abs] / [torch.abs] of a real, and [np.square] / [torch.square]. *)
Definition rabs (a : rfloat) : rfloat :=
  match a with
  | RFin x => RFin (Rabs x)
  | RNaN => RNaN
  | RPInf | RNInf => RPInf
  end.

Definition rsquare (a : rfloat) : rfloat := rmul a a.

(** A complex amplitude.  A real is promoted to a complex with imaginary
    part 0, and the product of two complex numbers is computed from the
    four products of their parts. *)
Definition complex : Type := rfloat * rfloat.
Definition Creal (x : rfloat) : complex := (x, RFin 0).
Definition Cmul (z w : complex) : complex :=
  (rsub (rmul (fst z) (fst w)) (rmul (snd z) (snd w)),
   radd (rmul (fst z) (snd w)) (rmul (snd z) (fst w))).

(** [np.abs] / [torch.abs] of a complex: the hypotenuse, which is infinite
    as soon as one part is, and NaN when one part is NaN and none is
    infinite. *)
Definition Cabs (z : complex) : rfloat :=
  match fst z, snd z with
  | RFin a, RFin b => RFin (sqrt (a * a + b * b))
  | RPInf, _ | RNInf, _ | _, RPInf | _, RNInf => RPInf
  | RNaN, _ | _, RNaN => RNaN
  end.

(** An entry that is a non-negative number, the positive infinity
    included; NaN is not. *)
Definition nonneg (v : rfloat) : Prop :=
  match v with
  | RFin r => (0 <= r)%R
  | RPInf => True
  | RNaN | RNInf => False
  end.

(** A field and a real image on the pixel grid, one per channel. *)
Abbreviation field := (list (list complex)) (only parsing).
Abbreviation image := (list (list rfloat)) (only parsing).

(** A rendered mask as [get_intensity_psf] receives it: the same array,
    its finite entries read as reals. *)
Definition to_rfloat (v : fval) : rfloat :=
  match v with
  | Fin q => RFin (Q2R q)
  | NaN => RNaN
  | PInf => RPInf
  | NInf => RNInf
  end.

Definition real_mask (m : fmask) : list image := map (map (map to_rfloat)) m.

(** Entrywise combination of two arrays of one shape; arrays of different
    lengths do not combine (broadcasting of length-one axes apart). *)
Fixpoint zip_exact {A B C} (f : A → B → result C) (l : list A) (k : list B)
    : result (list C) :=
  match l, k with
  | [], [] => Ok []
  | a :: l', b :: k' =>
      c ← f a b;
      r ← zip_exact f l' k';
      Ok (c :: r)
  | _, _ => Raise ValueError
  end.

Definition mul_image (u : field) (m : image) : result field :=
  zip_exact (zip_exact (fun z x => Ok (Cmul z (Creal x)))) u m.

(** [psfs[i] = value]: the value must have the shape of the slot. *)
Definition same_shape {A B} (a : list (list A)) (b : list (list B)) : bool :=
  bool_decide (length <$> a = length <$> b).

Definition intensity (psfs : list field) : list image :=
  map (map (map (fun z => rsquare (Cabs z)))) psfs.

Section Intensity.

(** The wavelengths of [ColorSystem.rgb()] and the two waveprop routines,
    [spherical_prop] (with [return_psf=True]) and [angular_spectrum] (its
    first result), are external. *)
Variable rgb_wv : list R.
Variable spherical_prop : nat * nat → Q * Q → list R → R → list field.
Variable angular_spectrum : field → R → Q * Q → R → field.

(** [color_system.wv], the default colour system being [ColorSystem.rgb()]. *)
Definition wavelengths (color_system : option (list R)) : list R :=
  match color_system with
  | Some c => c
  | None => rgb_wv
  end.

(** The loop [for i, wv in enumerate(color_system.wv)]. *)
Fixpoint propagate (sn : sensor) (mask2sensor : R) (u_in : list field)
    (mask : list image) (wv : list R) {struct wv} : result (list field) :=
  match wv, u_in, mask with
  | [], _, _ => Ok []
  | w :: wv', u :: u_in', m :: mask' =>
      let out := angular_spectrum u w (pitch sn) mask2sensor in
      _ ← (if same_shape out m then Ok tt else Raise ValueError);
      rest ← propagate sn mask2sensor u_in' mask' wv';
      Ok (out :: rest)
  | _ :: _, _, _ => Raise IndexError
  end.

Definition get_intensity_psf (mask : list image) (sn : sensor)
    (scene2mask mask2sensor : R) (color_system : option (list R)) (waveprop : bool)
    : result (list image) :=
  let wv := wavelengths color_system in
  if waveprop then
    _ ← assert (length wv =? length mask)%nat;
    let spherical_wavefront := spherical_prop (resolution sn) (pitch sn) wv scene2mask in
    u_in ← zip_exact mul_image spherical_wavefront mask;
    psfs ← propagate sn mask2sensor u_in mask wv;
    Ok (intensity psfs)
  else
    Ok (map (map (map (fun x => rsquare (rabs x)))) mask).

End Intensity.

(** Instances of the external routines, to run [get_intensity_psf]: a unit
    spherical wavefront and a propagation that leaves the field as it is,
    on a sensor of one pixel. *)
Definition unit_wavefront (res : nat * nat) (d1 : Q * Q) (wv : list R) (dz : R)
    : list field :=
  map (fun _ => replicate (fst res) (replicate (snd res) (RFin 1, RFin 0))) wv.

Definition no_propagation (u : field) (wv : R) (d1 : Q * Q) (dz : R) : field := u.

Definition sensor_1x1 : sensor := {| resolution := (1, 1)%nat; pitch := (1, 1)%Q |}.

End Slm.

(** * Part II: PSF and measurement conditioning ([lensless/io.py]) *)

Module Io.

Open Scope R_scope.

(** ** Arrays *)

(** The canonical layout [depth, height, width, channel]. *)
Abbreviation arr3 := (list (list (list R))) (only parsing).
Abbreviation arr4 := (list (list (list (list R)))) (only parsing).

(** An array as [load_image] or [np.load] returns it, cast to float. *)
Inductive ndimage : Type :=
  | Arr2 (a : list (list R))
  | Arr3 (a : arr3)
  | Arr4 (a : arr4).

Definition map4 (f : R → R) (a : arr4) : arr4 := map (map (map (map f))) a.
Definition flat3 (a : arr3) : list R := concat (concat a).
Definition flat4 (a : arr4) : list R := concat (concat (concat a)).

Definition shape3 (a : arr3) : list nat :=
  [length a; length (hd [] a); length (hd [] (hd [] a))].
Definition shape4 (a : arr4) : list nat := length a :: shape3 (hd [] a).

Definition nd_map (f : R → R) (a : ndimage) : ndimage :=
  match a with
  | Arr2 a => Arr2 (map (map f) a)
  | Arr3 a => Arr3 (map (map (map f)) a)
  | Arr4 a => Arr4 (map4 f a)
  end.

Definition nd_flat (a : ndimage) : list R :=
  match a with
  | Arr2 a => concat a
  | Arr3 a => flat3 a
  | Arr4 a => flat4 a
  end.

(** A float array whose NaN entries are tracked for the array as a whole:
    the two operations of this file that create a NaN (the mean of an empty
    region, and 0/0 in the normalisation) spread it to every entry.  When
    [is_nan] holds, [values] only carries the shape. *)
Record farray : Type := { is_nan : bool; values : arr4 }.

(** The background level: a 0-d array or a vector, possibly NaN. *)
Inductive bgval : Type :=
  | BgScalar (x : R)
  | BgVec (v : list R).
Record background : Type := { bg_nan : bool; bg_val : bgval }.

(** ** Reductions *)

Definition Rsum (l : list R) : R := fold_right Rplus 0 l.

(** [np.linalg.norm] of a flattened array. *)
Definition norm (l : list R) : R := sqrt (Rsum (map (fun x => x * x) l)).

(** [np.mean], NaN (here [None]) on an empty array. *)
Definition mean (l : list R) : option R :=
  match l with
  | [] => None
  | _ => Some (Rsum l / INR (length l))
  end.

(** [a.max()], which raises on an empty array. *)
Definition list_Rmax (l : list R) : option R :=
  match l with
  | [] => None
  | x :: l' => Some (fold_left Rmax l' x)
  end.

(** [np.clip(x, a_min, a_max)] on one entry. *)
Definition clip (a_min a_max x : R) : R := Rmin (Rmax x a_min) a_max.

(** ** Slices and channels *)

Definition py_take {A} (l : list A) (start stop : Z) : list A :=
  let '(lo, len) := py_slice (length l) start stop in take len (drop lo l).

(** [psf[:, a:b, a:b, :]] *)
Definition region (psf : arr4) (a b : Z) : arr4 :=
  map (fun slice => map (fun row => py_take row a b) (py_take slice a b)) psf.

(** [psf[..., i]], an [IndexError] (here [None]) when a pixel has no channel [i]. *)
Definition channel (i : nat) (psf : arr4) : option arr3 :=
  mapM (mapM (mapM (fun px : list R => px !! i))) psf.

(** [psf[:, :, :, i] -= bg_i] *)
Definition sub_channel (i : nat) (bg_i : R) (psf : arr4) : arr4 :=
  map (map (map (alter (fun x => x - bg_i) i))) psf.

(** [np.sum(psf, 3)[:, :, :, np.newaxis]] *)
Definition sum_channels (psf : arr4) : arr4 :=
  map (map (map (fun px => [Rsum px]))) psf.

(** ** [load_psf] *)

(** Lines 189-206: the canonical layout and the grayscale flag; all depth
    slices must have one shape. *)
Definition canonical (use_3d : bool) (psf : ndimage) : result (bool * arr4) :=
  '(grayscale, psf) ←
    (if use_3d then
       match psf with
       | Arr3 a => Ok (true, map (map (map (fun x => [x]))) a)
       | Arr4 a => Ok (false, a)
       | Arr2 _ => Raise AssertionError
       end
     else
       match psf with
       | Arr3 a => Ok (false, [a])
       | Arr2 a => Ok (true, [map (map (fun x => [x])) a])
       | Arr4 _ => Raise AssertionError
       end);
  _ ← assert (forallb (fun slice => bool_decide (shape3 slice = shape3 (hd [] psf))) psf);
  Ok (grayscale, psf).

(** The loop [for i in range(3)] of the colour branch. *)
Fixpoint subtract_rgb (a b : Z) (chans : list nat) (psf : arr4) (nan : bool) (bg : list R)
    : result (arr4 * bool * list R) :=
  match chans with
  | [] => Ok (psf, nan, bg)
  | i :: rest =>
      reg ← from_option IndexError (channel i (region psf a b));
      match mean (flat3 reg) with
      | Some bg_i => subtract_rgb a b rest (sub_channel i bg_i psf) nan (bg ++ [bg_i])
      | None => subtract_rgb a b rest psf true (bg ++ [0])
      end
  end.

(** Lines 208-227: background subtraction and clipping. *)
Definition subtract_background (grayscale : bool) (bg_pix : option (Z * Z)) (psf : arr4)
    : result (farray * background) :=
  match bg_pix with
  | None =>
      Ok ({| is_nan := false; values := psf |},
          {| bg_nan := false; bg_val := BgVec [0; 0; 0; 0] |})
  | Some (a, b) =>
      '(psf, nan, bg) ←
        (if grayscale then
           match mean (flat4 (region psf a b)) with
           | Some bg => Ok (map4 (fun x => x - bg) psf, false, BgScalar bg)
           | None => Ok (psf, true, BgScalar 0)
           end
         else
           '(psf, nan, bg) ← subtract_rgb a b [0; 1; 2]%nat psf false [];
           Ok (psf, nan, BgVec bg));
      mx ← from_option ValueError (list_Rmax (flat4 psf));
      Ok ({| is_nan := nan; values := map4 (clip 0 mx) psf |},
          {| bg_nan := nan; bg_val := bg |})
  end.

(** [1 / downsample] *)
Definition inv_downsample (downsample : option R) : result R :=
  match downsample with
  | None => Raise TypeError
  | Some d => if Req_dec_T d 0 then Raise ZeroDivisionError else Ok (1 / d)
  end.

(** [psf /= np.linalg.norm(psf.ravel())] *)
Definition normalize (a : farray) : farray :=
  let n := norm (flat4 (values a)) in
  if is_nan a then a
  else if Req_dec_T n 0 then {| is_nan := true; values := values a |}
  else {| is_nan := false; values := map4 (fun x => x / n) (values a) |}.

Section Conditioning.

(** [resize] of [lensless.util] (with its [shape] and [factor] arguments),
    the cast back to the file's integer type and [rgb2gray] are external. *)
Variable resize : arr4 → option (list nat) → option R → arr4.
Variable astype_original : arr4 → arr4.
Variable rgb2gray : arr4 → arr4.

(** Lines 186-240: everything before the normalisation. *)
Definition pre_normalised (psf : ndimage) (downsample : option R) (bg_pix : option (Z * Z))
    (single_psf : bool) (shape : option (list nat)) (use_3d : bool)
    : result (farray * background) :=
  '(grayscale, psf) ← canonical use_3d psf;
  '(psf, bg) ← subtract_background grayscale bg_pix psf;
  factor ← inv_downsample downsample;
  let resized := resize (values psf) shape (Some factor) in
  let summed :=
    if single_psf && (1 <? length (hd [] (hd [] (hd [] resized))))%nat
    then sum_channels resized else resized in
  Ok ({| is_nan := is_nan psf; values := summed |}, bg).

(** The result is the pair [(psf, bg)] of [return_bg=True]. *)
Definition load_psf (psf : ndimage) (downsample : option R) (return_float : bool)
    (bg_pix : option (Z * Z)) (single_psf : bool) (shape : option (list nat))
    (use_3d : bool) : result (farray * background) :=
  '(psf, bg) ← pre_normalised psf downsample bg_pix single_psf shape use_3d;
  if return_float then Ok (normalize psf, bg)
  else Ok ({| is_nan := is_nan psf; values := astype_original (values psf) |}, bg).

(** ** [load_data] *)

(** [data -= bg], the background being broadcast along the last axis. *)
Definition sub_vec (v : list R) (px : list R) : result (list R) :=
  match v with
  | [b] => Ok (map (fun x => x - b) px)
  | _ => if (length px =? length v)%nat then Ok (zip_with Rminus px v) else Raise ValueError
  end.

Definition sub_bg (data : ndimage) (bg : bgval) : result ndimage :=
  match bg with
  | BgScalar b => Ok (nd_map (fun x => x - b) data)
  | BgVec v =>
      match data with
      | Arr2 a => Arr2 <$> mapM (sub_vec v) a
      | Arr3 a => Arr3 <$> mapM (mapM (sub_vec v)) a
      | Arr4 a => Arr4 <$> mapM (mapM (mapM (sub_vec v))) a
      end
  end.

(** Lines 357-360. *)
Definition expand (data : ndimage) : arr4 :=
  match data with
  | Arr3 a => [a]
  | Arr2 a => [map (map (fun x => [x])) a]
  | Arr4 a => a
  end.

(** Lines 354-364: the measurement before its normalisation. *)
Definition conditioned_data (data : ndimage) (bg : background) (psf_shape : list nat)
    : result farray :=
  data ← sub_bg data (bg_val bg);
  mx ← from_option ValueError (list_Rmax (nd_flat data));
  let data := expand (nd_map (clip 0 mx) data) in
  let data :=
    if bool_decide (shape4 data = psf_shape) then data
    else resize data (Some psf_shape) None in
  Ok {| is_nan := bg_nan bg; values := data |}.

Definition load_data (psf data : ndimage) (downsample : option R)
    (bg_pix : option (Z * Z)) (gray : bool) (dtype : option string) (single_psf : bool)
    (shape : option (list nat)) (use_3d : bool) : result (farray * farray) :=
  _ ← (match shape with
       | None => assert (bool_decide (is_Some downsample))
       | Some _ => Ok tt
       end);
  _ ← (match dtype with
       | None => Ok tt
       | Some d => if bool_decide (d = "float32"%string ∨ d = "float64"%string)
                   then Ok tt else Raise ValueError
       end);
  '(psf, bg) ← load_psf psf downsample true bg_pix single_psf shape use_3d;
  data ← conditioned_data data bg (shape4 (values psf));
  let data := normalize data in
  if gray
  then Ok ({| is_nan := is_nan psf; values := rgb2gray (values psf) |},
           {| is_nan := is_nan data; values := rgb2gray (values data) |})
  else Ok (psf, data).

End Conditioning.

(** Modelled from the spec: [resize] of [lensless.util] is not among the
    sources.  This instance resamples to a target shape by taking, for each
    pixel of the target grid, the pixel of the input at the proportional
    position (depth and channels are kept); a call without a target shape
    is taken at scale factor 1, where the target grid is the input grid and
    the array is left as it is. *)
Definition resample {A} (d : A) (n : nat) (l : list A) : list A :=
  map (fun i => nth (i * length l / n) l d) (seq 0 n).

Definition resize_nearest (a : arr4) (shape : option (list nat)) (factor : option R) : arr4 :=
  match shape with
  | Some [_; h; w; _] => map (fun slice => map (resample [] w) (resample [] h slice)) a
  | _ => a
  end.

(** ** Properties and scenarios *)

Definition nonneg (l : list R) : Prop := Forall (Rle 0) l.

(** The pixels of an array, each with its channels, and the sum of the
    squares of a list. *)
Definition pixels (a : arr4) : list (list R) := concat (concat a).
Definition sumsq (l : list R) : R := Rsum (map (fun x => x * x) l).

(** The background region of an array in canonical layout has mean zero,
    in the sense of the branch that [grayscale] selects. *)
Definition background_zero (grayscale : bool) (bg_pix : option (Z * Z)) (psf : arr4) : Prop :=
  match bg_pix with
  | None => True
  | Some (a, b) =>
      if grayscale then mean (flat4 (region psf a b)) = Some 0
      else ∀ i, (i < 3)%nat →
             ∃ reg, channel i (region psf a b) = Some reg ∧ mean (flat3 reg) = Some 0
  end.


(** A 30 x 30 image of constant value 7. *)
Definition flat_image : ndimage := Arr2 (replicate 30 (replicate 30 7)).

(** A 2 x 2 image that is already conditioned for the region [0:1, 0:1]. *)
Definition unit_image : ndimage := Arr2 [[0; 0]; [0; 1]].




(** The rows of an array along its last axis. *)
Definition last_axis (a : ndimage) : list (list R) :=
  match a with
  | Arr2 a => a
  | Arr3 a => concat a
  | Arr4 a => concat (concat a)
  end.

End Io.

(** * Part III: saving an image ([save_image] of [lensless/io.py]) *)

Module IoSave.

(** The array handed to [save_image], its entries in C order: of a float
    type ([np.float32] or [np.float64]; the entries are finite), or of
    another type.  The function takes no square root, so that floats are
    rationals here and the model runs. *)
Inductive image : Type :=
  | FloatImage (data : list Q)
  | IntImage (data : list Z).

(** What the call leaves in the caller's array: the three in-place
    operations rescale a float array; the cast makes a new array. *)
Inductive after : Type :=
  | Rescaled (data : list fval)
  | Untouched.

(** [a.min()], which raises on an empty array. *)
Definition list_min (l : list Q) : option Q :=
  match l with
  | [] => None
  | x :: l' => Some (fold_left Qmin l' x)
  end.

(** [x * max_val] on one entry. *)
Definition fmul (v : fval) (k : Q) : fval :=
  match v with
  | Fin q => Fin (q * k)
  | NaN => NaN
  | PInf => match (k ?= 0)%Q with Gt => PInf | Lt => NInf | Eq => NaN end
  | NInf => match (k ?= 0)%Q with Gt => NInf | Lt => PInf | Eq => NaN end
  end.

Section SaveImage.

(** The byte that [astype(np.uint8)] makes of NaN, of an infinity or of a
    value whose integer part is not within 0..255 depends on the platform. *)
Variable cast_undefined : fval → Z.

Definition astype_uint8 (v : fval) : Z :=
  match v with
  | Fin q =>
      let z := Qtrunc q in
      if (0 <=? z)%Z && (z <=? 255)%Z then z else cast_undefined v
  | _ => cast_undefined v
  end.

(** The result is the array handed to [Image.fromarray], with what is left
    in the caller's array. *)
Definition save_image (img : image) (max_val : Q) : result (list Z * after) :=
  match img with
  | FloatImage data =>
      mn ← from_option ValueError (list_min data);
      let data := map (fun x => x - mn)%Q data in
      mx ← from_option ValueError (Slm.list_max data);
      let data := map (fun x => fdiv x mx) data in
      let data := map (fun v => fmul v max_val) data in
      Ok (map astype_uint8 data, Rescaled data)
  | IntImage data => Ok (data, Untouched)
  end.

End SaveImage.

End IoSave.

(** * Part IV: the aperture of the simulation script ([scripts/sim/digicam_psf.py]) *)

Module Digicam.

(** The pattern loaded from the file: 8-bit values, indexed channel, row,
    column. *)
Abbreviation pattern3 := (list (list (list Z))) (only parsing).

(** Lines 49-50 ([//] is the floor division) and lines 55-56, which compute
    the same two indices again. *)
Definition top_left (ap_center ap_shape : Z * Z) : Z * Z :=
  (fst ap_center - fst ap_shape / 2, snd ap_center - snd ap_shape / 2)%Z.

Definition bottom_right (ap_center ap_shape : Z * Z) : Z * Z :=
  let tl := top_left ap_center ap_shape in
  (fst tl + fst ap_shape, snd tl + snd ap_shape)%Z.

(** Lines 48-51: zeros of the shape of the pattern, and ones on the slice
    [aperture[:, top:bottom, left:right]]. *)
Definition aperture (pattern : pattern3) (ap_center ap_shape : Z * Z) : pattern3 :=
  let tl := top_left ap_center ap_shape in
  let br := bottom_right ap_center ap_shape in
  map (fun ch =>
         imap (fun y row =>
                 imap (fun x (_ : Z) =>
                         let '(r0, nr) := py_slice (length ch) (fst tl) (fst br) in
                         let '(c0, nc) := py_slice (length row) (snd tl) (snd br) in
                         if in_range r0 nr y && in_range c0 nc x then 1%Z else 0%Z)
                      row)
              ch)
      pattern.

(** Line 52: [pattern * aperture]. *)
Definition apply_aperture (pattern ap : pattern3) : pattern3 :=
  zip_with (zip_with (zip_with Z.mul)) pattern ap.

(** Lines 55-62: [pattern[:, idx_1 : idx_1 + h, idx_2 : idx_2 + w]]. *)
Definition pattern_sub (pattern : pattern3) (ap_center ap_shape : Z * Z) : pattern3 :=
  let idx_1 := (fst ap_center - fst ap_shape / 2)%Z in
  let idx_2 := (snd ap_center - snd ap_shape / 2)%Z in
  map (fun ch =>
         map (fun row => Io.py_take row idx_2 (idx_2 + snd ap_shape))
             (Io.py_take ch idx_1 (idx_1 + fst ap_shape)))
      pattern.

(** Lines 47-62 and 81: the values of the controllable region,
    [pattern_sub / 255.0], taken from the pattern times its aperture. *)
Definition slm_vals (pattern : pattern3) (ap_center ap_shape : Z * Z)
    : list (list (list Q)) :=
  let pattern := apply_aperture pattern (aperture pattern ap_center ap_shape) in
  map (map (map (fun z => (inject_Z z / 255)%Q)))
      (pattern_sub pattern ap_center ap_shape).

End Digicam.

(** * Part V: the table of trained models ([lensless/recon/model_dict.py]) *)

Module ModelDict.

(** First key is the camera, second key the training data, third key the
    name of the model; the entry is the repository to download. *)
Definition model_dict : gmap string (gmap string (gmap string string)) :=
  {[ "digicam" :=
     {[ "celeba_26k" :=
        list_to_map
          [ ("unrolled_admm10", "bezzam/digicam-celeba-unrolled-admm10");
            ("unrolled_admm10_ft_psf", "bezzam/digicam-celeba-unrolled-admm10-ft-psf");
            ("unet8M", "bezzam/digicam-celeba-unet8M");
            ("unrolled_admm10_post8M", "bezzam/digicam-celeba-unrolled-admm10-post8M");
            ("unrolled_admm10_ft_psf_post8M",
             "bezzam/digicam-celeba-unrolled-admm10-ft-psf-post8M");
            ("pre8M_unrolled_admm10", "bezzam/digicam-celeba-pre8M-unrolled-admm10");
            ("pre4M_unrolled_admm10_post4M",
             "bezzam/digicam-celeba-pre4M-unrolled-admm10-post4M");
            ("pre4M_unrolled_admm10_post4M_OLD",
             "bezzam/digicam-celeba-pre4M-unrolled-admm10-post4M_OLD");
            ("pre4M_unrolled_admm10_ft_psf_post4M",
             "bezzam/digicam-celeba-pre4M-unrolled-admm10-ft-psf-post4M");
            ("admm_measured_psf", "bezzam/digicam-celeba-admm-measured-psf");
            ("admm_simulated_psf", "bezzam/digicam-celeba-admm-simulated-psf") ] ]} ]}%string.

(** The file system as [download_model] sees and changes it: the paths
    that exist, and the downloads made so far, each with its repository and
    its target directory. *)
Record files : Type := { existing : gset string; downloaded : list (string * string) }.

Section Download.

(** The directory of the models, [os.path.join], and what exists after
    [snapshot_download(repo_id, local_dir)] of huggingface_hub, are
    external. *)
Variable model_dir_path : string.
Variable path_join : list string → string.
Variable snapshot_download : string → string → gset string → gset string.

Definition download_model (camera dataset model : string) (fs : files)
    : result (string * files) :=
  _ ← (if bool_decide (is_Some (model_dict !! camera)) then Ok tt else Raise ValueError);
  by_dataset ← from_option (KeyError camera) (model_dict !! camera);
  _ ← (if bool_decide (is_Some (by_dataset !! dataset)) then Ok tt else Raise ValueError);
  by_model ← from_option (KeyError dataset) (by_dataset !! dataset);
  _ ← (if bool_decide (is_Some (by_model !! model)) then Ok tt else Raise ValueError);
  repo_id ← from_option (KeyError model) (by_model !! model);
  let model_dir := path_join [model_dir_path; camera; dataset; model] in
  if bool_decide (model_dir ∈ existing fs) then Ok (model_dir, fs)
  else Ok (model_dir,
           {| existing := snapshot_download repo_id model_dir (existing fs);
              downloaded := downloaded fs ++ [(repo_id, model_dir)] |}).

End Download.

End ModelDict.

(** * Part VI: the benchmark of a reconstruction ([lensless/benchmark.py]) *)

Module Benchmark.

(** Python's [l[idx]]: a negative index counts from the end. *)
Definition py_index {A} (l : list A) (idx : Z) : result A :=
  let n := Z.of_nat (length l) in
  let i := if (idx <? 0)%Z then (idx + n)%Z else idx in
  if (0 <=? i)%Z && (i <? n)%Z then from_option IndexError (l !! Z.to_nat i)
  else Raise IndexError.

(** The consecutive batches of [n] entries of a list, the last one
    possibly shorter, as a [DataLoader] without shuffling forms them. *)
Fixpoint chunks {A} (fuel n : nat) (l : list A) : list (list A) :=
  match fuel with
  | O => []
  | S fuel' =>
      match l with
      | [] => []
      | _ => take n l :: chunks fuel' n (drop n l)
      end
  end.

Section Dataset.

Variable tensor : Type.

(** [os.path.join], [glob.glob], [os.path.basename] and [np.load] (followed
    by [torch.from_numpy]) are external, and so is the subtraction of
    tensors. *)
Variable path_join : string → string → string.
Variable glob : string → list string.
Variable basename : string → string.
Variable np_load : string → result tensor.
Variable sub : tensor → tensor → tensor.

Record ParallelDataset : Type := {
  root_dir : string;
  lensless_dir : string;
  lensed_dir : string;
  files : list string;
  background : option tensor;
  transform_lensless : option (tensor → tensor);
  transform_lensed : option (tensor → tensor)
}.

(** [__init__]; [n_files] is [None] for Python's [False] and [None]. *)
Definition init (root : string) (n_files : option Z) (bg : option tensor)
    (t_lensless t_lensed : option (tensor → tensor)) : ParallelDataset :=
  let lensless := path_join root "diffuser" in
  let lensed := path_join root "lensed" in
  let found := glob (lensless +:+ "/*.npy") in
  let found :=
    match n_files with
    | Some n => if negb (n =? 0)%Z then Io.py_take found 0 n else found
    | None => found
    end in
  {| root_dir := root; lensless_dir := lensless; lensed_dir := lensed;
     files := map basename found; background := bg;
     transform_lensless := t_lensless; transform_lensed := t_lensed |}.

(** [__len__] and [__getitem__]. *)
Definition len (ds : ParallelDataset) : nat := length (files ds).

Definition getitem (ds : ParallelDataset) (idx : Z) : result (tensor * tensor) :=
  name ← py_index (files ds) idx;
  let lensless_fp := path_join (lensless_dir ds) name in
  let lensed_fp := path_join (lensed_dir ds) name in
  lensless ← np_load lensless_fp;
  lensed ← np_load lensed_fp;
  let lensless :=
    match background ds with
    | Some bg => sub lensless bg
    | None => lensless
    end in
  let lensless :=
    match transform_lensless ds with
    | Some t => t lensless
    | None => lensless
    end in
  let lensed :=
    match transform_lensed ds with
    | Some t => t lensed
    | None => lensed
    end in
  Ok (lensless, lensed).

(** ** [benchmark] *)

(** The PSF conditioning of Part II with its external routine; the torch
    operations ([torch.from_numpy] on the background, the collation of a
    batch, [squeeze], [permute(0, 3, 1, 2)], and [x / torch.amax(x)]); the
    model ([set_data] followed by [apply], or [batch_call], which is not
    given the batch); and the five metrics. *)
Variable resize : list (list (list (list R))) → option (list nat) → option R
                  → list (list (list (list R))).
Variable astype_original : list (list (list (list R))) → list (list (list (list R))).
Variable from_numpy : Io.background → tensor.
Variable collate : list (tensor * tensor) → tensor * tensor.
Variable squeeze : tensor → tensor.
Variable channels_first : tensor → tensor.
Variable div_amax : tensor → tensor.
Variable psf_is_tensor : bool.
Variable apply_model : tensor → result tensor.
Variable batch_call : result tensor.
Variable MSELoss L1Loss LPIPS PSNR SSIM : tensor → tensor → R.

(** Lines 136-142, in the order of the dictionary. *)
Definition metrics : list (string * (tensor → tensor → R)) :=
  [("MSE", MSELoss); ("MAE", L1Loss); ("LPIPS", LPIPS); ("PSNR", PSNR);
   ("SSIM", SSIM)]%string.

(** Lines 165-166: [metrics_values[metric] += metrics[metric](prediction, lensed)]. *)
Definition add_metrics (prediction lensed : tensor) (metrics_values : gmap string R)
    : gmap string R :=
  fold_left (fun vals m =>
               <[fst m := (default 0 (vals !! fst m) + snd m prediction lensed)%R]> vals)
            metrics metrics_values.

(** Lines 145-163: the normalised prediction and the normalised reference
    for the batch of the given indices. *)
Definition predict_batch (ds : ParallelDataset) (batchsize : nat) (indices : list nat)
    : result (tensor * tensor) :=
  items ← mapM (fun i => getitem ds (Z.of_nat i)) indices;
  let '(lensless, lensed) := collate items in
  let lensless := squeeze lensless in
  let lensed := channels_first lensed in
  prediction ← (if (batchsize =? 1)%nat
                then channels_first <$> apply_model lensless
                else channels_first <$> batch_call);
  let prediction := div_amax prediction in
  let lensed := div_amax lensed in
  Ok (prediction, lensed).

(** Lines 145-166: one pass of the loop. *)
Definition run_batch (ds : ParallelDataset) (batchsize : nat)
    (metrics_values : gmap string R) (indices : list nat) : result (gmap string R) :=
  '(prediction, lensed) ← predict_batch ds batchsize indices;
  Ok (add_metrics prediction lensed metrics_values).

Fixpoint run_batches (ds : ParallelDataset) (batchsize : nat)
    (metrics_values : gmap string R) (batches : list (list nat))
    : result (gmap string R) :=
  match batches with
  | [] => Ok metrics_values
  | indices :: rest =>
      metrics_values ← run_batch ds batchsize metrics_values indices;
      run_batches ds batchsize metrics_values rest
  end.

(** [psf] is the image of the file [psf.tiff] of the dataset. *)
Definition benchmark (psf : Io.ndimage) (data : string) (downsample : R)
    (n_files : option Z) (batchsize : nat) : result (gmap string R) :=
  _ ← assert psf_is_tensor;
  '(psf_float, bg) ← Io.load_psf resize astype_original psf (Some downsample) true
                        (Some (0, 15)%Z) false None false;
  let bg := from_numpy bg in
  let dataset := init data n_files (Some bg) None None in
  _ ← (if (batchsize =? 0)%nat then Raise ValueError else Ok tt);
  let dataloader := chunks (len dataset) batchsize (seq 0 (len dataset)) in
  let metrics_values : gmap string R :=
    list_to_map (map (fun m => (fst m, 0%R)) metrics) in
  metrics_values ← run_batches dataset batchsize metrics_values dataloader;
  if (length dataloader =? 0)%nat then Raise ZeroDivisionError
  else Ok (fmap (M := gmap string) (fun v => v / INR (length dataloader))%R metrics_values).

End Dataset.

End Benchmark.

(** * Part VII: properties *)

(** ** The error monad, lists and running the model *)

Lemma bind_Ok {A B} (m : result A) (f : A → result B) b :
  m ≫= f = Ok b ↔ ∃ a, m = Ok a ∧ f a = Ok b.
Proof.
  destruct m as [a|e]; simpl; split.
  - intros H. exists a. auto.
  - intros (a' & Ha & H). congruence.
  - discriminate.
  - intros (a' & Ha & _). discriminate.
Qed.

Lemma from_option_Ok {A} e (o : option A) a : from_option e o = Ok a ↔ o = Some a.
Proof. destruct o; simpl; split; congruence. Qed.

Lemma assert_Ok b u : assert b = Ok u ↔ b = true.
Proof. destruct b, u; simpl; split; congruence. Qed.

Lemma elem_of_concat {A} (x : A) (ls : list (list A)) :
  x ∈ concat ls ↔ ∃ l, x ∈ l ∧ l ∈ ls.
Proof.
  rewrite list_elem_of_In, in_concat. split.
  - intros (l & Hl & Hx). exists l. by rewrite !list_elem_of_In.
  - intros (l & Hx & Hl). exists l. by rewrite <- !list_elem_of_In.
Qed.

(** Runs [t], which must return, and records the result under the name [x]. *)
Ltac run_as x H t :=
  let r := eval vm_compute in t in
  match r with
  | Ok ?v => pose (x := v); assert (H : t = Ok x) by (vm_compute; reflexivity)
  end.

(** ** The programmable mask *)

Module SlmFacts.

Import Slm.

Lemma pixel_Some {A} (m : list (list (list A))) k y x v :
  pixel m k y x = Some v ↔ ∃ ch row, m !! k = Some ch ∧ ch !! y = Some row ∧ row !! x = Some v.
Proof.
  unfold pixel. split.
  - destruct (m !! k) as [ch|]; [|done]. destruct (ch !! y) as [row|] eqn:E; [|done].
    intros H. by exists ch, row.
  - intros (ch & row & -> & -> & ->). done.
Qed.

Lemma pixel_assign_block m ws v r0 nr c0 nc k y x :
  pixel (assign_block m ws v r0 nr c0 nc) k y x =
  (λ old, if in_range r0 nr y && in_range c0 nc x then (v * weight_at ws k)%Q else old)
    <$> pixel m k y x.
Proof.
  unfold pixel, assign_block. rewrite list_lookup_imap.
  destruct (m !! k) as [ch|]; simpl.
  2:{ reflexivity. }
  rewrite list_lookup_imap. destruct (ch !! y) as [row|]; simpl.
  2:{ reflexivity. }
  destruct (in_range r0 nr y); simpl.
  - rewrite list_lookup_imap. destruct (row !! x); reflexivity.
  - destruct (row !! x); reflexivity.
Qed.

Lemma pixel_zeros c res k y x v : pixel (zeros c res) k y x = Some v → v = 0%Q.
Proof.
  unfold zeros. rewrite pixel_Some. intros (ch & row & H1 & H2 & H3).
  apply lookup_replicate in H1 as [-> _]. apply lookup_replicate in H2 as [-> _].
  apply lookup_replicate in H3 as [-> _]. done.
Qed.

Lemma has_shape_map {A B} (f : A → B) c h w (m : list (list (list A))) :
  has_shape c h w m → has_shape c h w (map (map (map f)) m).
Proof.
  intros [Hc Hm]. split; [by rewrite length_map|].
  apply Forall_map. eapply Forall_impl; [exact Hm|].
  intros ch [Hh Hch]. simpl. split; [by rewrite length_map|].
  apply Forall_map. eapply Forall_impl; [exact Hch|].
  intros row Hw. simpl. by rewrite length_map.
Qed.

Lemma Forall_imap_same {A} (P : A → Prop) (f : nat → A → A) (l : list A) :
  (∀ i a, P a → P (f i a)) → Forall P l → Forall P (imap f l).
Proof.
  intros Hf Hl. revert f Hf. induction Hl as [|a l Ha Hl IH]; intros f Hf; simpl.
  - constructor.
  - constructor; [by apply Hf|]. apply IH. intros i b. apply Hf.
Qed.

Lemma has_shape_assign_block c h w m ws v r0 nr c0 nc :
  has_shape c h w m → has_shape c h w (assign_block m ws v r0 nr c0 nc).
Proof.
  intros [Hc Hm]. unfold assign_block. split; [by rewrite length_imap|].
  apply Forall_imap_same; [|exact Hm].
  intros k ch [Hh Hch]. split; [by rewrite length_imap|].
  apply Forall_imap_same; [|exact Hch].
  intros y row Hw. destruct (in_range r0 nr y); [|done]. by rewrite length_imap.
Qed.

Lemma has_shape_zeros c res : has_shape c (fst res) (snd res) (zeros c res).
Proof.
  unfold zeros. split; [by rewrite length_replicate|].
  apply Forall_replicate. split; [by rewrite length_replicate|].
  apply Forall_replicate. by rewrite length_replicate.
Qed.

Lemma place_cell_Ok tf sn cf hp wp flat i c m m' :
  place_cell tf sn cf hp wp flat i c m = Ok m' →
  ∃ ws v r0 nr c0 nc,
    cell_weights cf i = Ok ws ∧ flat !! i = Some v ∧
    footprint sn hp wp c = ((r0, nr), (c0, nc)) ∧
    m' = assign_block m ws v r0 nr c0 nc.
Proof.
  unfold place_cell. intros H.
  apply bind_Ok in H as (ws & Hws & H).
  apply bind_Ok in H as ([] & _ & H).
  apply bind_Ok in H as (v & Hv & H). apply from_option_Ok in Hv.
  destruct (footprint sn hp wp c) as [[r0 nr] [c0 nc]].
  destruct (_ && _); [|done]. injection H as <-.
  by exists ws, v, r0, nr, c0, nc.
Qed.

Section PlaceInvariant.

Variable inv : nat → nat → nat → Q → Prop.

Lemma place_cell_inv tf sn cf hp wp flat i c m m' :
  holds inv m →
  (∀ ws v k y x, cell_weights cf i = Ok ws → flat !! i = Some v →
     covers sn hp wp c y x = true → inv k y x (v * weight_at ws k)%Q) →
  place_cell tf sn cf hp wp flat i c m = Ok m' →
  holds inv m'.
Proof.
  intros Hm Hstep H.
  apply place_cell_Ok in H as (ws & v & r0 & nr & c0 & nc & Hws & Hv & Hfp & ->).
  intros k y x u. rewrite pixel_assign_block.
  destruct (pixel m k y x) as [old|] eqn:Hold; [|done]. simpl.
  destruct (in_range r0 nr y && in_range c0 nc x) eqn:Hin; intros [= <-].
  - apply (Hstep ws v k y x Hws Hv). unfold covers. by rewrite Hfp.
  - by apply Hm.
Qed.

Lemma place_cells_inv tf sn cf hp wp flat cs : ∀ i m m',
  holds inv m →
  (∀ j c ws v k y x, cs !! j = Some c → cell_weights cf (i + j) = Ok ws →
     flat !! (i + j)%nat = Some v → covers sn hp wp c y x = true →
     inv k y x (v * weight_at ws k)%Q) →
  place_cells tf sn cf hp wp flat i cs m = Ok m' →
  holds inv m'.
Proof.
  induction cs as [|c cs IH]; intros i m m' Hm Hstep H; simpl in H.
  - by injection H as <-.
  - apply bind_Ok in H as (m1 & H1 & H).
    apply (IH (S i) m1 m'); [| |exact H].
    + eapply place_cell_inv; [exact Hm| |exact H1].
      intros ws v k y x Hws Hv Hc. apply (Hstep 0%nat c); rewrite ?Nat.add_0_r; done.
    + intros j c' ws v k y x Hj Hws Hv Hc.
      apply (Hstep (S j) c'); rewrite ?Nat.add_succ_r; done.
Qed.

End PlaceInvariant.

Lemma has_shape_place_cells tf sn cf hp wp flat cs c h w : ∀ i m m',
  has_shape c h w m →
  place_cells tf sn cf hp wp flat i cs m = Ok m' →
  has_shape c h w m'.
Proof.
  induction cs as [|ce cs IH]; intros i m m' Hm H; simpl in H.
  - by injection H as <-.
  - apply bind_Ok in H as (m1 & H1 & H).
    apply (IH (S i) m1 m'); [|exact H].
    apply place_cell_Ok in H1 as (ws & v & r0 & nr & c0 & nc & _ & _ & _ & ->).
    by apply has_shape_assign_block.
Qed.

Lemma round_half_even_cases q :
  round_half_even q = Qfloor q ∨
  (round_half_even q = (Qfloor q + 1)%Z ∧ (1 # 2 <= q - inject_Z (Qfloor q))%Q).
Proof.
  unfold round_half_even.
  destruct (Qcompare_spec (q - inject_Z (Qfloor q)) (1 # 2)) as [He|Hl|Hg].
  - destruct (Z.even (Qfloor q)); [by left|]. right. split; [done|]. rewrite He. apply Qle_refl.
  - by left.
  - right. split; [done|]. by apply Qlt_le_weak.
Qed.

Lemma round_half_even_bounds q n :
  (0 <= q)%Q → (q <= inject_Z n)%Q → (0 <= round_half_even q <= n)%Z.
Proof.
  intros H0 Hn.
  assert (Hf0 : (0 <= Qfloor q)%Z).
  { change 0%Z with (Qfloor 0). by apply Qfloor_resp_le. }
  assert (Hfn : (Qfloor q <= n)%Z).
  { rewrite <- (Qfloor_Z n). by apply Qfloor_resp_le. }
  destruct (round_half_even_cases q) as [->|[-> Hd]]; [lia|].
  split; [lia|].
  destruct (Z.eq_dec (Qfloor q) n) as [E|]; [|lia]. exfalso.
  rewrite E in Hd. clear -Hd Hn.
  revert Hd Hn. generalize (inject_Z n). intros z Hd Hn.
  apply (Qplus_le_l _ _ z) in Hd. ring_simplify in Hd.
  assert (Hz : (z + (1 # 2) <= z + 0)%Q).
  { rewrite Qplus_0_r. eapply Qle_trans; [exact Hd|exact Hn]. }
  apply Qplus_le_r in Hz. unfold Qle in Hz. simpl in Hz. lia.
Qed.

Lemma round_half_even_zero q : (q == 0)%Q → round_half_even q = 0%Z.
Proof.
  intros Hq. unfold round_half_even.
  assert (Hf : Qfloor q = 0%Z) by (rewrite Hq; reflexivity).
  rewrite Hf. 
  assert (Hc : ((q - inject_Z 0) ?= 1 # 2)%Q = Lt).
  { rewrite Hq. reflexivity. }
  by rewrite Hc.
Qed.

Lemma fold_left_Qmax_ge l : ∀ a x, (x = a ∨ x ∈ l) → (x <= fold_left Qmax l a)%Q.
Proof.
  induction l as [|b l IH]; intros a x Hx; simpl.
  - destruct Hx as [->|Hx]; [apply Qle_refl|]. by apply elem_of_nil in Hx.
  - destruct Hx as [->|Hx].
    + eapply Qle_trans; [apply (Q.le_max_l a b)|]. apply IH. by left.
    + apply elem_of_cons in Hx as [->|Hx].
      * eapply Qle_trans; [apply (Q.le_max_r a b)|]. apply IH. by left.
      * apply IH. by right.
Qed.

Lemma list_max_ge l mx x : list_max l = Some mx → x ∈ l → (x <= mx)%Q.
Proof.
  destruct l as [|a l]; [done|]. simpl. intros [= <-] Hx.
  apply fold_left_Qmax_ge. apply elem_of_cons in Hx. tauto.
Qed.

Lemma fold_left_Qmax_all (P : Q → Prop) l : ∀ a,
  P a → Forall P l → P (fold_left Qmax l a).
Proof.
  induction l as [|b l IH]; intros a Ha Hl; simpl; [done|].
  apply Forall_cons in Hl as [Hb Hl]. apply IH; [|done].
  unfold Qmax, GenericMinMax.gmax. by destruct (a ?= b)%Q.
Qed.

Lemma list_max_all (P : Q → Prop) l mx : Forall P l → list_max l = Some mx → P mx.
Proof.
  destruct l as [|a l]; [done|]. intros Hl [= <-].
  apply Forall_cons in Hl as [Ha Hl]. by apply fold_left_Qmax_all.
Qed.

Lemma pixel_elem_of {A} (m : list (list (list A))) v :
  v ∈ concat (concat m) ↔ ∃ k y x, pixel m k y x = Some v.
Proof.
  split.
  - intros H. apply elem_of_concat in H as (row & Hv & H).
    apply elem_of_concat in H as (ch & Hrow & Hch).
    apply list_elem_of_lookup in Hv as [x Hx].
    apply list_elem_of_lookup in Hrow as [y Hy].
    apply list_elem_of_lookup in Hch as [k Hk].
    exists k, y, x. unfold pixel. by rewrite Hk, Hy.
  - intros (k & y & x & H). unfold pixel in H.
    destruct (m !! k) as [ch|] eqn:Hk; [|done].
    destruct (ch !! y) as [row|] eqn:Hy; [|done].
    apply elem_of_concat. exists row. split; [by eapply list_elem_of_lookup_2|].
    apply elem_of_concat. exists ch. split; by eapply list_elem_of_lookup_2.
Qed.

Lemma pixel_map {A B} (f : A → B) (m : list (list (list A))) k y x :
  pixel (map (map (map f)) m) k y x = f <$> pixel m k y x.
Proof.
  unfold pixel. rewrite list_lookup_fmap.
  destruct (m !! k) as [ch|]; simpl; [|done].
  rewrite list_lookup_fmap. destruct (ch !! y) as [row|]; simpl; [|done].
  by rewrite list_lookup_fmap.
Qed.

Lemma reshape_F_entries vals n rows v :
  reshape_F vals = Ok (n, rows) → v ∈ concat rows → v ∈ data vals ∨ v = 0%Q.
Proof.
  unfold reshape_F. destruct (rev (shape vals)) as [|w rlead]; [done|].
  destruct (w =? 0)%nat; [done|]. intros [= <- <-] Hv.
  apply elem_of_concat in Hv as (row & Hv & Hrow).
  apply list_elem_of_In, in_map_iff in Hrow as (r & <- & _).
  apply list_elem_of_In, in_map_iff in Hv as (c & <- & _).
  destruct (nth_in_or_default (ravel_C (shape vals) (unravel_F (rev rlead) r ++ [c]))
              (data vals) 0%Q) as [Hin | ->]; [left|by right].
  by apply list_elem_of_In.
Qed.

Section RenderFacts.

Variable torch_available : bool.
Variable get_centers : nat * nat → pvalue → list (Q * Q).
Variable get_color_filter : nat * nat → pvalue → list (list Q).
Variable rotate_func : Q → fmask → fmask.
Variable torch_rotate : Q → fmask → fmask.

Local Abbreviation prepare := (prepare get_centers get_color_filter).
Local Abbreviation placed_mask := (placed_mask get_centers get_color_filter).
Local Abbreviation get_programmable_mask :=
  (get_programmable_mask torch_available get_centers get_color_filter rotate_func torch_rotate).

Lemma prepare_Ok vals sn slm_param flipud l :
  prepare vals sn slm_param flipud = Ok l →
  ∃ n rows cfv cell,
    reshape_F vals = Ok (n, rows) ∧
    slm_param !! "color_filter"%string = Some cfv ∧
    slm_vals_flat l = concat rows ∧
    cf l = color_filter_weights get_color_filter n slm_param flipud ∧
    slm_param !! CELL_SIZE = Some cell ∧
    cell_pixels cell (pitch sn) = Ok (height_pixel l, width_pixel l).
Proof.
  unfold Slm.prepare. intros H.
  apply bind_Ok in H as ([n rows] & Hr & H).
  apply bind_Ok in H as (cfv & Hcfv & H). apply from_option_Ok in Hcfv.
  apply bind_Ok in H as (pp & Hpp & H).
  apply bind_Ok in H as (cell & Hcell & H). apply from_option_Ok in Hcell.
  apply bind_Ok in H as ([hp wp] & Hpx & H).
  injection H as <-. by exists n, rows, cfv, cell.
Qed.

Lemma prepare_flat_entries vals sn slm_param flipud l v :
  prepare vals sn slm_param flipud = Ok l →
  v ∈ slm_vals_flat l → v ∈ data vals ∨ v = 0%Q.
Proof.
  intros H Hv. apply prepare_Ok in H as (n & rows & cfv & cell & Hr & _ & Hflat & _).
  rewrite Hflat in Hv. by eapply reshape_F_entries.
Qed.

Lemma get_programmable_mask_unfold vals sn slm_param rotate flipud as_torch l m :
  prepare vals sn slm_param flipud = Ok l →
  place (torch_available && as_torch) sn l = Ok m →
  get_programmable_mask vals sn slm_param rotate flipud as_torch =
    apply_rotate rotate_func torch_rotate (torch_available && as_torch) rotate
      <$> quantize (torch_available && as_torch) m.
Proof.
  intros Hl Hm. unfold Slm.get_programmable_mask, Slm.placed_mask.
  rewrite Hl. simpl. rewrite Hm. simpl. by destruct (quantize _ m).
Qed.

Lemma place_shape tf sn l m :
  place tf sn l = Ok m →
  has_shape (n_color_filter l) (fst (resolution sn)) (snd (resolution sn)) m.
Proof.
  intros H. eapply has_shape_place_cells; [|exact H]. apply has_shape_zeros.
Qed.

End RenderFacts.

Lemma map3_ext_pixel {A B} (f g : A → B) (m : list (list (list A))) :
  (∀ v, v ∈ concat (concat m) → f v = g v) →
  map (map (map f)) m = map (map (map g)) m.
Proof.
  intros H. apply map_ext_in. intros ch Hch. apply map_ext_in. intros row Hrow.
  apply map_ext_in. intros v Hv. apply H.
  apply elem_of_concat. exists row. split; [by apply list_elem_of_In|].
  apply elem_of_concat. exists ch. split; by apply list_elem_of_In.
Qed.

Lemma map3_const {A B} (b : B) c h w (m : list (list (list A))) :
  has_shape c h w m →
  map (map (map (λ _, b))) m = replicate c (replicate h (replicate w b)).
Proof.
  assert (Hrow : ∀ (l : list A), map (λ _, b) l = replicate (length l) b).
  { induction l; simpl; congruence. }
  intros [<- Hm]. induction Hm as [|ch m [<- Hch] Hm IH]; simpl; [done|].
  f_equal; [|exact IH]. clear IH Hm.
  induction Hch as [|row ch <- Hch IH]; simpl; [done|]. by rewrite Hrow, IH.
Qed.

Lemma has_shape_nonempty {A} c h w (m : list (list (list A))) :
  has_shape c h w m → (0 < c)%nat → (0 < h)%nat → (0 < w)%nat → concat (concat m) ≠ [].
Proof.
  intros [Hc Hm] ? ? ?. destruct m as [|ch m]; simpl in *; [lia|].
  apply Forall_cons in Hm as [[Hh Hch] _].
  destruct ch as [|row ch]; simpl in *; [lia|].
  apply Forall_cons in Hch as [Hw _]. destruct row; simpl in *; [lia|done].
Qed.

Lemma list_max_is_Some l : l ≠ [] → is_Some (list_max l).
Proof. destruct l; [done|]. intros _. simpl. eauto. Qed.

Lemma holds_Forall (P : Q → Prop) (m : mask3) :
  holds (λ _ _ _ v, P v) m ↔ Forall P (concat (concat m)).
Proof.
  rewrite Forall_forall. split.
  - intros H v Hv. apply pixel_elem_of in Hv as (k & y & x & Hv). by eapply H.
  - intros H k y x v Hv. apply H. apply pixel_elem_of. eauto.
Qed.

Lemma holds_zeros (P : nat → nat → nat → Q → Prop) c res :
  (∀ k y x, P k y x 0%Q) → holds P (zeros c res).
Proof. intros HP k y x v Hv. apply pixel_zeros in Hv as ->. apply HP. Qed.

Lemma fdiv_zero_zero x mx : (x == 0)%Q → (mx == 0)%Q → fdiv x mx = NaN.
Proof.
  intros Hx Hmx. unfold fdiv.
  apply Qeq_bool_iff in Hmx. rewrite Hmx. apply Qeq_alt in Hx. by rewrite Hx.
Qed.

Lemma fdiv_finite x mx : ¬ (mx == 0)%Q → fdiv x mx = Fin (x / mx).
Proof.
  intros Hmx. unfold fdiv. destruct (Qeq_bool mx 0) eqn:E; [|done].
  by apply Qeq_bool_iff in E.
Qed.

Lemma quantize_Ok tf (m : mask3) mx :
  mask_max m = Some mx →
  quantize tf m = Ok (map (map (map (λ x, quantize_entry (fdiv x mx)))) m).
Proof. intros H. unfold quantize. by rewrite H. Qed.

Section RenderZero.

Variable torch_available : bool.
Variable get_centers : nat * nat → pvalue → list (Q * Q).
Variable get_color_filter : nat * nat → pvalue → list (list Q).
Variable rotate_func : Q → fmask → fmask.
Variable torch_rotate : Q → fmask → fmask.

Local Abbreviation prepare := (prepare get_centers get_color_filter).
Local Abbreviation placed_mask := (placed_mask get_centers get_color_filter).
Local Abbreviation get_programmable_mask :=
  (get_programmable_mask torch_available get_centers get_color_filter rotate_func torch_rotate).
Local Abbreviation rotated := (apply_rotate rotate_func torch_rotate).

Lemma zero_pattern_places_zeros vals sn slm_param flipud tf l m :
  Forall (λ v, v == 0)%Q (data vals) →
  prepare vals sn slm_param flipud = Ok l →
  place tf sn l = Ok m →
  Forall (λ v, v == 0)%Q (concat (concat m)).
Proof.
  intros Hz Hl Hm. apply holds_Forall.
  eapply place_cells_inv; [| |exact Hm].
  - apply holds_zeros. reflexivity.
  - intros j c ws v k y x _ _ Hv _. simpl in Hv.
    apply list_elem_of_lookup_2 in Hv.
    eapply prepare_flat_entries in Hv as [Hv| ->]; [| |exact Hl].
    + rewrite Forall_forall in Hz. rewrite (Hz v Hv). ring.
    + ring.
Qed.

Lemma zero_mask_renders_NaN vals sn slm_param rotate flipud as_torch l m :
  prepare vals sn slm_param flipud = Ok l →
  place (torch_available && as_torch) sn l = Ok m →
  Forall (λ v, v == 0)%Q (concat (concat m)) →
  (0 < n_color_filter l)%nat →
  (0 < fst (resolution sn))%nat → (0 < snd (resolution sn))%nat →
  get_programmable_mask vals sn slm_param rotate flipud as_torch =
    Ok (rotated (torch_available && as_torch) rotate
          (nan_mask (n_color_filter l) (resolution sn))).
Proof.
  intros Hl Hm H0 Hc Hh Hw.
  pose proof (place_shape _ _ _ _ Hm) as Hs.
  destruct (list_max_is_Some (concat (concat m))) as [mx Hmx].
  { by eapply has_shape_nonempty. }
  erewrite get_programmable_mask_unfold; [|exact Hl|exact Hm].
  rewrite (quantize_Ok _ _ mx Hmx). simpl. do 2 f_equal.
  rewrite (map3_ext_pixel _ (λ _, NaN)).
  - by apply map3_const.
  - intros v Hv. rewrite fdiv_zero_zero; [done| |].
    + rewrite Forall_forall in H0. by apply H0.
    + exact (list_max_all (λ v, v == 0)%Q _ _ H0 Hmx).
Qed.

Lemma zero_mask_quantize tf sn l m mx :
  place tf sn l = Ok m →
  Forall (λ v, v == 0)%Q (concat (concat m)) →
  mask_max m = Some mx →
  quantize tf m = Ok (nan_mask (n_color_filter l) (resolution sn)).
Proof.
  intros Hm H0 Hmx. pose proof (place_shape _ _ _ _ Hm) as Hs.
  rewrite (quantize_Ok _ _ mx Hmx). f_equal.
  rewrite (map3_ext_pixel _ (λ _, NaN)).
  - by apply map3_const.
  - intros v Hv. rewrite fdiv_zero_zero; [done| |].
    + rewrite Forall_forall in H0. by apply H0.
    + exact (list_max_all (λ v, v == 0)%Q _ _ H0 Hmx).
Qed.

(** C10, in the form that holds of the code: for an all-zero pattern the
    division by the maximum 0 is not guarded, so the function never returns
    a mask of numbers: whenever it returns, the mask handed to the optional
    rotation, which is the result when no rotation is asked for, is NaN in
    every entry; and it does return, raising nothing, once the preparation
    and the placement loop have gone through on a mask that has at least
    one pixel.  An error raised before the division is not excluded. *)
Theorem zero_pattern_renders_NaN vals sn slm_param rotate flipud as_torch :
  Forall (λ v, v == 0)%Q (data vals) →
  (∀ out,
     get_programmable_mask vals sn slm_param rotate flipud as_torch = Ok out →
     ∃ l, prepare vals sn slm_param flipud = Ok l ∧
          out = rotated (torch_available && as_torch) rotate
                  (nan_mask (n_color_filter l) (resolution sn))) ∧
  (∀ l m,
     prepare vals sn slm_param flipud = Ok l →
     place (torch_available && as_torch) sn l = Ok m →
     (0 < n_color_filter l)%nat →
     (0 < fst (resolution sn))%nat → (0 < snd (resolution sn))%nat →
     get_programmable_mask vals sn slm_param rotate flipud as_torch =
       Ok (rotated (torch_available && as_torch) rotate
             (nan_mask (n_color_filter l) (resolution sn)))).
Proof.
  intros Hz. split.
  - intros out H. unfold Slm.get_programmable_mask in H.
    apply bind_Ok in H as (m & Hpm & H). apply bind_Ok in H as (q & Hq & H).
    injection H as <-. unfold Slm.placed_mask in Hpm.
    apply bind_Ok in Hpm as (l & Hl & Hm). exists l. split; [exact Hl|].
    f_equal. pose proof (zero_pattern_places_zeros _ _ _ _ _ _ _ Hz Hl Hm) as H0.
    destruct (mask_max m) as [mx|] eqn:Hmx.
    + rewrite (zero_mask_quantize _ _ _ _ _ Hm H0 Hmx) in Hq. by injection Hq.
    + unfold quantize in Hq. rewrite Hmx in Hq. done.
  - intros l m Hl Hm. apply (zero_mask_renders_NaN _ _ _ _ _ _ l m Hl Hm).
    by eapply zero_pattern_places_zeros.
Qed.

End RenderZero.

Lemma weight_at_nonneg ws k : Forall (Qle 0) ws → (0 <= weight_at ws k)%Q.
Proof.
  intros H. unfold weight_at.
  assert (Hn : ∀ i, (0 <= nth i ws 0)%Q).
  { intros i. destruct (nth_in_or_default i ws 0%Q) as [Hin | ->]; [|apply Qle_refl].
    rewrite Forall_forall in H. by apply H, list_elem_of_In. }
  destruct (length ws =? 1)%nat; apply Hn.
Qed.

Lemma cell_weights_nonneg cf i ws :
  (∀ c, cf = Some c → Forall (Forall (Qle 0)) c) →
  cell_weights cf i = Ok ws → Forall (Qle 0) ws.
Proof.
  intros Hcf. unfold cell_weights. destruct cf as [c|].
  - intros H. apply from_option_Ok in H. specialize (Hcf c eq_refl).
    rewrite Forall_forall in Hcf. by eapply Hcf, list_elem_of_lookup_2.
  - intros [= <-]. by repeat constructor.
Qed.

Lemma quantize_entry_level x mx :
  (0 <= x)%Q → (x <= mx)%Q → (0 < mx)%Q →
  ∃ n : Z, (0 <= n <= 255)%Z ∧ quantize_entry (fdiv x mx) = level n.
Proof.
  intros H0 Hx Hmx. rewrite fdiv_finite.
  2:{ intros E. rewrite E in Hmx. by apply Qlt_irrefl in Hmx. }
  exists (round_half_even (x / mx * 255)). split; [|done].
  apply round_half_even_bounds.
  - apply Qmult_le_0_compat; [|done]. apply Qle_shift_div_l; [done|]. by rewrite Qmult_0_l.
  - change (inject_Z 255) with (1 * 255)%Q. apply Qmult_le_compat_r; [|done].
    apply Qle_shift_div_r; [done|]. by rewrite Qmult_1_l.
Qed.

Lemma quantize_entry_zero x mx :
  (x == 0)%Q → ¬ (mx == 0)%Q → quantize_entry (fdiv x mx) = level 0.
Proof.
  intros Hx Hmx. rewrite fdiv_finite by done. simpl. unfold level.
  rewrite round_half_even_zero; [done|]. rewrite Hx. unfold Qdiv. ring.
Qed.

Section RenderQuantized.

Variable torch_available : bool.
Variable get_centers : nat * nat → pvalue → list (Q * Q).
Variable get_color_filter : nat * nat → pvalue → list (list Q).
Variable rotate_func : Q → fmask → fmask.
Variable torch_rotate : Q → fmask → fmask.

Local Abbreviation prepare := (prepare get_centers get_color_filter).
Local Abbreviation placed_mask := (placed_mask get_centers get_color_filter).
Local Abbreviation get_programmable_mask :=
  (get_programmable_mask torch_available get_centers get_color_filter rotate_func torch_rotate).
Local Abbreviation rotated := (apply_rotate rotate_func torch_rotate).

Lemma in_range_pattern_places_nonneg vals sn slm_param flipud tf l m :
  Forall (λ v, 0 <= v <= 1)%Q (data vals) →
  prepare vals sn slm_param flipud = Ok l →
  (∀ c, cf l = Some c → Forall (Forall (Qle 0)) c) →
  place tf sn l = Ok m →
  Forall (Qle 0) (concat (concat m)).
Proof.
  intros Hv Hl Hcf Hm. apply holds_Forall.
  eapply place_cells_inv; [| |exact Hm].
  - apply holds_zeros. intros _ _ _. apply Qle_refl.
  - intros j c ws v k y x _ Hws Hj _. simpl in Hj.
    apply Qmult_le_0_compat.
    + apply list_elem_of_lookup_2 in Hj.
      eapply prepare_flat_entries in Hj as [Hj | ->]; [| |exact Hl]; [|apply Qle_refl].
      rewrite Forall_forall in Hv. by apply Hv.
    + apply weight_at_nonneg. by eapply cell_weights_nonneg.
Qed.

(** C3, in the form that holds of the code: for a pattern with values in [0, 1] and non-negative
    colour weights, whenever the placement loop completes with a positive
    maximum, the mask rendered without rotation has only entries among the
    256 levels 0/255 .. 255/255 (so it is non-negative and within [0, 1]) and
    has the sensor's resolution in every channel; with a rotation that keeps
    the shape, as [reshape=False] asks, the rendered mask has that shape. *)
Theorem render_quantized vals sn slm_param flipud as_torch l m mx :
  Forall (λ v, 0 <= v <= 1)%Q (data vals) →
  prepare vals sn slm_param flipud = Ok l →
  (∀ c, cf l = Some c → Forall (Forall (Qle 0)) c) →
  place (torch_available && as_torch) sn l = Ok m →
  mask_max m = Some mx → (0 < mx)%Q →
  (∀ angle c h w (f : fmask), has_shape c h w f →
     has_shape c h w (rotate_func angle f) ∧ has_shape c h w (torch_rotate angle f)) →
  (∃ out, get_programmable_mask vals sn slm_param None flipud as_torch = Ok out ∧
          quantized out ∧
          has_shape (n_color_filter l) (fst (resolution sn)) (snd (resolution sn)) out) ∧
  (∀ angle, ∃ out,
     get_programmable_mask vals sn slm_param (Some angle) flipud as_torch = Ok out ∧
     has_shape (n_color_filter l) (fst (resolution sn)) (snd (resolution sn)) out).
Proof.
  intros Hv Hl Hcf Hm Hmx Hpos Hrot.
  pose proof (place_shape _ _ _ _ Hm) as Hs.
  pose proof (in_range_pattern_places_nonneg _ _ _ _ _ _ _ Hv Hl Hcf Hm) as H0.
  set (q := map (map (map (λ x, quantize_entry (fdiv x mx)))) m).
  assert (Hq : has_shape (n_color_filter l) (fst (resolution sn)) (snd (resolution sn)) q)
    by (by apply has_shape_map).
  split.
  - exists q. split; [|split; [|exact Hq]].
    + erewrite get_programmable_mask_unfold; [|exact Hl|exact Hm].
      by rewrite (quantize_Ok _ _ mx Hmx).
    + intros k y x v. unfold q. rewrite pixel_map.
      destruct (pixel m k y x) as [u|] eqn:Hu; [|done]. intros [= <-].
      assert (Hin : u ∈ concat (concat m)) by (apply pixel_elem_of; eauto).
      apply quantize_entry_level; [|by eapply list_max_ge|done].
      rewrite Forall_forall in H0. by apply H0.
  - intros angle. eexists. split.
    + erewrite get_programmable_mask_unfold; [|exact Hl|exact Hm].
      rewrite (quantize_Ok _ _ mx Hmx). reflexivity.
    + simpl. destruct (torch_available && as_torch); by apply Hrot.
Qed.

(** When exactly one cell [j] of the pattern is
    active and the placed mask has a non-zero maximum, every pixel of the
    rendered mask outside the block that cell [j] selects is at level 0. *)
Lemma single_cell_support vals sn slm_param flipud as_torch l m mx j cj :
  prepare vals sn slm_param flipud = Ok l →
  place (torch_available && as_torch) sn l = Ok m →
  centers l !! j = Some cj →
  (∀ i v, slm_vals_flat l !! i = Some v → i ≠ j → v == 0)%Q →
  mask_max m = Some mx → ¬ (mx == 0)%Q →
  ∃ out, get_programmable_mask vals sn slm_param None flipud as_torch = Ok out ∧
    ∀ k y x v, pixel out k y x = Some v →
      covers sn (height_pixel l) (width_pixel l) cj y x = false → v = level 0.
Proof.
  intros Hl Hm Hj Hone Hmx Hnz. eexists. split.
  { erewrite get_programmable_mask_unfold; [|exact Hl|exact Hm].
    rewrite (quantize_Ok _ _ mx Hmx). reflexivity. }
  simpl. intros k y x v. rewrite pixel_map.
  destruct (pixel m k y x) as [u|] eqn:Hu; [|done]. intros [= <-] Hout.
  apply quantize_entry_zero; [|done].
  assert (Hinv : holds (λ _ y x v, v == 0 ∨ covers sn (height_pixel l) (width_pixel l) cj y x = true)%Q m).
  { eapply place_cells_inv; [| |exact Hm].
    - apply holds_zeros. intros. by left.
    - intros i c ws v k' y' x' Hc _ Hv Hcov. simpl in Hv.
      destruct (decide (i = j)) as [-> | Hne].
      + right. rewrite Hj in Hc. by injection Hc as <-.
      + left. rewrite (Hone i v Hv Hne). ring. }
  destruct (Hinv k y x u Hu) as [H | H]; [done|congruence].
Qed.

End RenderQuantized.

Lemma zip_exact_Raise {A B C} (f : A → B → result C) l : ∀ k e,
  zip_exact f l k = Raise e →
  e = ValueError ∨ ∃ a b, f a b = Raise e.
Proof.
  induction l as [|a l IH]; intros [|b k] e; simpl.
  - done.
  - intros [= <-]. by left.
  - intros [= <-]. by left.
  - destruct (f a b) as [c|e'] eqn:Hf; simpl.
    + destruct (zip_exact f l k) as [r|e'] eqn:Hz; simpl; [done|].
      intros [= <-]. by eapply IH.
    + intros [= <-]. right. eauto.
Qed.

Lemma zip_exact_lookup {A B C} (f : A → B → result C) l : ∀ k r i a b,
  zip_exact f l k = Ok r → l !! i = Some a → k !! i = Some b →
  ∃ c, f a b = Ok c ∧ r !! i = Some c.
Proof.
  induction l as [|a' l IH]; intros [|b' k] r i a b; simpl; try done.
  intros H. apply bind_Ok in H as (c & Hc & H). apply bind_Ok in H as (r' & Hr & H).
  injection H as <-. destruct i as [|i]; simpl.
  - intros [= <-] [= <-]. eauto.
  - intros Ha Hb. by eapply IH.
Qed.

Lemma mul_image_Raise u m e : mul_image u m = Raise e → e = ValueError.
Proof.
  intros H. apply zip_exact_Raise in H as [H | (a & b & H)]; [done|].
  apply zip_exact_Raise in H as [H | (z & x & H)]; done.
Qed.

Lemma zip_exact_lookup_inv {A B C} (f : A → B → result C) l : ∀ k r i c,
  zip_exact f l k = Ok r → r !! i = Some c →
  ∃ a b, l !! i = Some a ∧ k !! i = Some b ∧ f a b = Ok c.
Proof.
  induction l as [|a' l IH]; intros [|b' k] r i c; simpl; try done.
  - intros [= <-]. done.
  - intros H. apply bind_Ok in H as (c' & Hc & H). apply bind_Ok in H as (r' & Hr & H).
    injection H as <-. destruct i as [|i]; simpl.
    + intros [= <-]. eauto.
    + intros Hi. by eapply IH.
Qed.

(** ** The arithmetic of the special values *)

Lemma rmul_NaN_r a : rmul a RNaN = RNaN.
Proof. by destruct a. Qed.

Lemma radd_NaN_r a : radd a RNaN = RNaN.
Proof. by destruct a. Qed.

Lemma Cmul_NaN z : Cmul z (Creal RNaN) = (RNaN, RNaN).
Proof.
  unfold Cmul, Creal, rsub. simpl. by rewrite !rmul_NaN_r, radd_NaN_r.
Qed.

Lemma rsquare_NaN v : rsquare v = RNaN ↔ v = RNaN.
Proof. by destruct v. Qed.

Lemma rabs_NaN v : rabs v = RNaN ↔ v = RNaN.
Proof. by destruct v. Qed.

Lemma rsquare_nonneg v : nonneg (rsquare v) ↔ v ≠ RNaN.
Proof.
  destruct v as [r| | |]; simpl; split; try done.
  intros _. apply Rle_0_sqr.
Qed.

Lemma rsquare_never_negative v : rsquare v = RNaN ∨ nonneg (rsquare v).
Proof.
  destruct v as [r| | |]; simpl; [right|by left|by right|by right]. apply Rle_0_sqr.
Qed.

Lemma Forall3_map {A B} (P : B → Prop) (Q : A → Prop) (f : A → B)
    (l : list (list (list A))) :
  (∀ a, P (f a) ↔ Q a) →
  Forall (Forall (Forall P)) (map (map (map f)) l) ↔ Forall (Forall (Forall Q)) l.
Proof.
  intros H. rewrite Forall_map. apply Forall_iff. intros ch.
  rewrite Forall_map. apply Forall_iff. intros row.
  rewrite Forall_map. apply Forall_iff. exact H.
Qed.

Lemma Forall3_map_all {A B} (P : B → Prop) (f : A → B) (l : list (list (list A))) :
  (∀ a, P (f a)) → Forall (Forall (Forall P)) (map (map (map f)) l).
Proof. intros H. apply (Forall3_map P (λ _, True) f); [done|]. by repeat (apply Forall_forall; intros). Qed.

Section IntensityTheorems.

Variable rgb_wv : list R.
Variable spherical_prop : nat * nat → Q * Q → list R → R → list field.
Variable angular_spectrum : field → R → Q * Q → R → field.

Local Abbreviation propagate := (propagate angular_spectrum).
Local Abbreviation get_intensity_psf :=
  (get_intensity_psf rgb_wv spherical_prop angular_spectrum).

Local Abbreviation wavelengths := (wavelengths rgb_wv).

Lemma propagate_Raise sn dz wv : ∀ u_in mask e,
  propagate sn dz u_in mask wv = Raise e → e = ValueError ∨ e = IndexError.
Proof.
  induction wv as [|w wv IH]; intros u_in mask e; simpl; [done|].
  destruct u_in as [|u u_in]; [intros [= <-]; by right|].
  destruct mask as [|m mask]; [intros [= <-]; by right|].
  destruct (same_shape _ m); simpl; [|intros [= <-]; by left].
  destruct (Slm.propagate angular_spectrum sn dz u_in mask wv) as [r|e'] eqn:Hp; simpl.
  - done.
  - intros [= <-]. by eapply IH.
Qed.

Lemma propagate_lookup sn dz wv : ∀ u_in mask psfs i w u,
  propagate sn dz u_in mask wv = Ok psfs →
  wv !! i = Some w → u_in !! i = Some u →
  psfs !! i = Some (angular_spectrum u w (pitch sn) dz).
Proof.
  induction wv as [|w' wv IH]; intros u_in mask psfs i w u; simpl; [done|].
  destruct u_in as [|u' u_in]; [done|]. destruct mask as [|m mask]; [done|].
  intros H. apply bind_Ok in H as ([] & _ & H). apply bind_Ok in H as (r & Hr & H).
  injection H as <-. destruct i as [|i]; simpl.
  - by intros [= <-] [= <-].
  - intros Hw Hu. by eapply IH.
Qed.

(** C5, in the form that holds of the code: the check of the channel count is an assertion inside
    the propagation branch: [AssertionError] is raised exactly when
    propagation is enabled and the number of wavelengths differs from the
    number of mask channels (in bypass mode nothing is checked); when the
    function returns with propagation enabled, channel [i] of the result is
    the intensity of the field propagated from channel [i] of the mask with
    wavelength [i] alone. *)
Theorem channel_count_assertion mask sn scene2mask mask2sensor color_system waveprop :
  (get_intensity_psf mask sn scene2mask mask2sensor color_system waveprop
     = Raise AssertionError
   ↔ waveprop = true ∧ length (wavelengths color_system) ≠ length mask) ∧
  (∀ out i w m s,
     get_intensity_psf mask sn scene2mask mask2sensor color_system true = Ok out →
     wavelengths color_system !! i = Some w →
     mask !! i = Some m →
     spherical_prop (resolution sn) (pitch sn) (wavelengths color_system) scene2mask !! i
       = Some s →
     ∃ u, mul_image s m = Ok u ∧
          out !! i = Some (map (map (λ z, rsquare (Cabs z)))
                             (angular_spectrum u w (pitch sn) mask2sensor))).
Proof.
  unfold Slm.get_intensity_psf.
  set (wv := wavelengths color_system). split.
  - destruct waveprop; [|split; [done|by intros [? _]]].
    destruct (length wv =? length mask)%nat eqn:E; simpl.
    + apply Nat.eqb_eq in E. split; [|by intros [_ ?]]. intros H. exfalso.
      destruct (zip_exact mul_image _ mask) as [u_in|e] eqn:Hu; simpl in H.
      * destruct (propagate sn mask2sensor u_in mask wv) as [p|e] eqn:Hp; simpl in H; [done|].
        injection H as ->. by apply propagate_Raise in Hp as [|].
      * injection H as ->. apply zip_exact_Raise in Hu as [|(a & b & Hu)]; [done|].
        by apply mul_image_Raise in Hu.
    + apply Nat.eqb_neq in E. done.
  - intros out i w m s H Hw Hm Hs.
    apply bind_Ok in H as ([] & _ & H). apply bind_Ok in H as (u_in & Hu & H).
    apply bind_Ok in H as (psfs & Hp & H). injection H as <-.
    destruct (zip_exact_lookup _ _ _ _ _ _ _ Hu Hs Hm) as (u & Hmul & Hui).
    exists u. split; [done|]. unfold intensity. rewrite list_lookup_fmap.
    by rewrite (propagate_lookup _ _ _ _ _ _ _ _ _ Hp Hw Hui).
Qed.

Lemma propagate_lookup_inv sn dz wv : ∀ u_in mask psfs i p,
  propagate sn dz u_in mask wv = Ok psfs → psfs !! i = Some p →
  ∃ w u m, wv !! i = Some w ∧ u_in !! i = Some u ∧ mask !! i = Some m ∧
           p = angular_spectrum u w (pitch sn) dz.
Proof.
  induction wv as [|w' wv IH]; intros u_in mask psfs i p; simpl.
  - by intros [= <-].
  - destruct u_in as [|u' u_in]; [done|]. destruct mask as [|m' mask]; [done|].
    intros H. apply bind_Ok in H as ([] & _ & H). apply bind_Ok in H as (r & Hr & H).
    injection H as <-. destruct i as [|i]; simpl.
    + intros [= <-]. by exists w', u', m'.
    + intros Hi. by eapply IH.
Qed.

(** C7, in the form that holds of the code: whatever the mask, the
    wavelengths and the two propagation routines, no entry of a result of
    [get_intensity_psf] is negative: it is a non-negative number (or
    positive infinity) or NaN.  With propagation enabled, every entry is
    non-negative when the fields that [angular_spectrum] returns for the
    channels of the mask have no NaN modulus.  With propagation disabled,
    the result is the entrywise squared modulus of the mask itself, and its
    entries are all non-negative exactly when the mask holds no NaN. *)
Theorem intensity_nonneg_and_bypass mask sn scene2mask mask2sensor color_system :
  (∀ waveprop out,
     get_intensity_psf mask sn scene2mask mask2sensor color_system waveprop = Ok out →
     Forall (Forall (Forall (λ v, v = RNaN ∨ nonneg v))) out) ∧
  (∀ out,
     get_intensity_psf mask sn scene2mask mask2sensor color_system true = Ok out →
     (∀ i w m s u,
        wavelengths color_system !! i = Some w →
        mask !! i = Some m →
        spherical_prop (resolution sn) (pitch sn) (wavelengths color_system) scene2mask !! i
          = Some s →
        mul_image s m = Ok u →
        Forall (Forall (λ z, Cabs z ≠ RNaN))
          (angular_spectrum u w (pitch sn) mask2sensor)) →
     Forall (Forall (Forall nonneg)) out) ∧
  get_intensity_psf mask sn scene2mask mask2sensor color_system false
    = Ok (map (map (map (λ x, rsquare (rabs x)))) mask) ∧
  (Forall (Forall (Forall nonneg)) (map (map (map (λ x, rsquare (rabs x)))) mask)
   ↔ Forall (Forall (Forall (λ x, x ≠ RNaN))) mask).
Proof.
  split; [|split; [|split; [done|]]].
  - intros waveprop out. unfold Slm.get_intensity_psf. destruct waveprop.
    + intros H. apply bind_Ok in H as ([] & _ & H). apply bind_Ok in H as (u_in & Hu & H).
      apply bind_Ok in H as (psfs & Hp & H). injection H as <-.
      apply Forall3_map_all. intros z. apply rsquare_never_negative.
    + intros [= <-]. apply Forall3_map_all. intros z. apply rsquare_never_negative.
  - intros out H Hfield. unfold Slm.get_intensity_psf in H.
    apply bind_Ok in H as ([] & _ & H). apply bind_Ok in H as (u_in & Hu & H).
    apply bind_Ok in H as (psfs & Hp & H). injection H as <-.
    unfold intensity. apply (Forall3_map nonneg (λ z, Cabs z ≠ RNaN)).
    { intros z. apply rsquare_nonneg. }
    apply Forall_lookup. intros i p Hi.
    destruct (propagate_lookup_inv _ _ _ _ _ _ _ _ Hp Hi) as (w & u & m & Hw & Hui & Hm & ->).
    destruct (zip_exact_lookup_inv _ _ _ _ _ _ Hu Hui) as (s & m' & Hs & Hm' & Hmul).
    rewrite Hm in Hm'. injection Hm' as <-. by eapply Hfield.
  - apply Forall3_map. intros x. rewrite rsquare_nonneg. by rewrite rabs_NaN.
Qed.

End IntensityTheorems.

Lemma py_slice_empty n a : snd (py_slice n a (a + 0)) = 0%nat.
Proof. unfold py_slice. simpl. rewrite Z.add_0_r. lia. Qed.

Lemma in_range_empty lo i : in_range lo 0 i = false.
Proof. unfold in_range. destruct (lo <=? i)%nat eqn:E; [|done]. simpl.
  apply Nat.leb_le in E. apply Nat.ltb_ge. lia. Qed.

Lemma covers_collapsed sn hp wp c y x :
  hp = 0%Z ∨ wp = 0%Z → covers sn hp wp c y x = false.
Proof.
  intros H. unfold covers, footprint. destruct (top_left sn hp wp c) as [r c'].
  destruct H as [-> | ->].
  - pose proof (py_slice_empty (fst (resolution sn)) r) as E.
    destruct (py_slice _ r (r + 0)) as [r0 nr]. simpl in E. subst nr.
    destruct (py_slice _ c' _) as [c0 nc]. by rewrite in_range_empty.
  - pose proof (py_slice_empty (snd (resolution sn)) c') as E.
    destruct (py_slice _ r _) as [r0 nr].
    destruct (py_slice _ c' (c' + 0)) as [c0 nc]. simpl in E. subst nc.
    rewrite in_range_empty. apply andb_false_r.
Qed.

Lemma forallb_nonneg (c : list (list Q)) :
  forallb (forallb (Qle_bool 0)) c = true → Forall (Forall (Qle 0)) c.
Proof.
  intros H. apply Forall_forall. intros ws Hws. apply Forall_forall. intros w Hw.
  rewrite forallb_forall in H. apply list_elem_of_In in Hws. specialize (H ws Hws).
  rewrite forallb_forall in H. apply list_elem_of_In in Hw. by apply Qle_bool_iff, H.
Qed.

Section RenderChecks.

Variable torch_available : bool.
Variable get_centers : nat * nat → pvalue → list (Q * Q).
Variable get_color_filter : nat * nat → pvalue → list (list Q).
Variable rotate_func : Q → fmask → fmask.
Variable torch_rotate : Q → fmask → fmask.

Local Abbreviation prepare := (prepare get_centers get_color_filter).
Local Abbreviation get_programmable_mask :=
  (get_programmable_mask torch_available get_centers get_color_filter rotate_func torch_rotate).
Local Abbreviation rotated := (apply_rotate rotate_func torch_rotate).

Lemma collapsed_footprint_renders_NaN vals sn slm_param rotate flipud as_torch l m :
  prepare vals sn slm_param flipud = Ok l →
  height_pixel l = 0%Z ∨ width_pixel l = 0%Z →
  place (torch_available && as_torch) sn l = Ok m →
  (0 < n_color_filter l)%nat →
  (0 < fst (resolution sn))%nat → (0 < snd (resolution sn))%nat →
  get_programmable_mask vals sn slm_param rotate flipud as_torch =
    Ok (rotated (torch_available && as_torch) rotate
          (nan_mask (n_color_filter l) (resolution sn))).
Proof.
  intros Hl Hz Hm. apply (zero_mask_renders_NaN _ _ _ _ _ _ _ _ _ _ _ l m Hl Hm).
  apply holds_Forall. eapply place_cells_inv; [| |exact Hm].
  - apply holds_zeros. reflexivity.
  - intros j c ws v k y x _ _ _ Hc. by rewrite covers_collapsed in Hc.
Qed.

(** C9: a device dictionary without the entry "color_filter" makes
    [get_programmable_mask] raise [KeyError] as soon as the pattern has been
    reshaped, before any rendering; and whenever the preparation completes,
    for any dictionary, the per-cell colour weights are present, so that the
    monochrome branch ([cf = None]) is never taken. *)
Theorem monochrome_raises_KeyError vals sn slm_param rotate flipud as_torch :
  slm_param !! "color_filter"%string = None →
  is_ok (reshape_F vals) →
  get_programmable_mask vals sn slm_param rotate flipud as_torch
    = Raise (KeyError "color_filter") ∧
  (∀ (params : gmap string pvalue) l,
     prepare vals sn params flipud = Ok l → is_Some (cf l)).
Proof.
  intros Hno [[n rows] Hr]. split.
  - unfold Slm.get_programmable_mask, placed_mask, Slm.prepare.
    rewrite Hr. cbn [mbind result_bind]. by rewrite Hno.
  - intros params l Hl.
    apply prepare_Ok in Hl as (n' & rows' & cfv & cell & _ & Hcfv & _ & -> & _).
    unfold color_filter_weights, COLOR_FILTER. rewrite Hcfv. eauto.
Qed.

End RenderChecks.

Section UploadTheorems.

Variable slm_devices : gmap string slm_device.
Variable check_username_hostname : string → string → result unit.

Lemma shape_assertion pattern device rpi_username rpi_hostname dev :
  check_username_hostname rpi_username rpi_hostname = Ok tt →
  is_Some (SUPPORTED_DEVICE !! device) →
  slm_devices !! device = Some dev →
  shape pattern ≠ (if negb (monochrome dev) then 3%nat :: slm_shape dev else slm_shape dev) →
  set_programmable_mask slm_devices check_username_hostname pattern device
    rpi_username rpi_hostname = Raise AssertionError.
Proof.
  intros Hc [script Hs] Hd Hne. unfold set_programmable_mask.
  rewrite Hc. cbn [mbind result_bind]. rewrite Hs, Hd.
  rewrite bool_decide_eq_true_2 by eauto. cbn [assert from_option mbind result_bind].
  by rewrite bool_decide_eq_false_2.
Qed.

End UploadTheorems.

(** C4, in the form that holds of the code: [get_programmable_mask] checks neither the shape of the
    pattern nor the footprint of a cell.  When the footprint is truncated to
    zero pixels in height or in width and the placement loop completes on a
    non-empty mask, no cell is written and the function returns, without an
    error, a mask that is NaN in every entry before the optional rotation.
    The shape of the pattern is checked by [set_programmable_mask] alone,
    which raises [AssertionError] when it differs from the shape of the
    device, three channels first unless the device is monochrome. *)
Theorem footprint_and_shape_checks :
  (∀ torch_available get_centers get_color_filter rotate_func torch_rotate
     vals sn slm_param rotate flipud as_torch l m,
     prepare get_centers get_color_filter vals sn slm_param flipud = Ok l →
     height_pixel l = 0%Z ∨ width_pixel l = 0%Z →
     place (torch_available && as_torch) sn l = Ok m →
     (0 < n_color_filter l)%nat →
     (0 < fst (resolution sn))%nat → (0 < snd (resolution sn))%nat →
     get_programmable_mask torch_available get_centers get_color_filter rotate_func
       torch_rotate vals sn slm_param rotate flipud as_torch =
       Ok (apply_rotate rotate_func torch_rotate (torch_available && as_torch) rotate
             (nan_mask (n_color_filter l) (resolution sn)))) ∧
  (∀ slm_devices check_username_hostname pattern device rpi_username rpi_hostname dev,
     check_username_hostname rpi_username rpi_hostname = Ok tt →
     is_Some (SUPPORTED_DEVICE !! device) →
     slm_devices !! device = Some dev →
     shape pattern ≠ (if negb (monochrome dev) then 3%nat :: slm_shape dev
                      else slm_shape dev) →
     set_programmable_mask slm_devices check_username_hostname pattern device
       rpi_username rpi_hostname = Raise AssertionError).
Proof.
  split.
  - intros. by eapply collapsed_footprint_renders_NaN.
  - intros. by eapply shape_assertion.
Qed.

(** C4 fails as stated: with cells of half a sensor pixel the footprint is
    0 x 0 pixels, and the pattern of scenario A is rendered, without any
    error, to a mask of NaN. *)
Lemma collapsed_footprint_returns :
  cell_pixels (PVec [1 # 2; 1 # 2]%Q) (pitch sensor_64x65) = Ok (0, 0)%Z ∧
  render hot_pattern sensor_64x65 device_half_px = Ok (nan_mask 3 (64, 65)%nat).
Proof. split; vm_compute; reflexivity. Qed.

Lemma footprint_and_shape_checks_witness :
  render hot_pattern sensor_64x65 device_half_px = Ok (nan_mask 3 (64, 65)%nat) ∧
  set_programmable_mask {["adafruit"%string := {| slm_shape := [128; 160]%nat; monochrome := false |}]}
    (λ _ _, Ok tt) hot_pattern "adafruit" "pi" "raspberrypi.local" = Raise AssertionError.
Proof.
  destruct footprint_and_shape_checks as [Hfoot Hshape]. split.
  - run_as l Hl (prepare centered_grid tiled_filter hot_pattern sensor_64x65 device_half_px false).
    run_as m Hm (place false sensor_64x65 l).
    apply (Hfoot false centered_grid tiled_filter no_rotation no_rotation
             hot_pattern sensor_64x65 device_half_px None false false l m Hl
             (or_introl eq_refl) Hm); vm_compute; lia.
  - eapply Hshape.
    + reflexivity.
    + vm_compute. eauto.
    + vm_compute. reflexivity.
    + vm_compute. discriminate.
Defined.

(** C2 fails as stated: scenario A as the specification gives it, on the
    64 x 64 sensor, does not return a mask: the block of the last cell of
    the first row would end at column 64, and the assignment raises. *)
Lemma scenario_A_raises :
  render hot_pattern sensor_64x64 device_8px = Raise ValueError.
Proof. vm_compute. reflexivity. Qed.

Lemma scenario_A_shifted : render hot_pattern sensor_64x65 device_8px = Ok block_mask.
Proof. vm_compute. reflexivity. Qed.

(** C2, in the form that holds of the code: on a sensor of 64 x 65 pixels, scenario A is rendered to
    the mask that has level 255 (the value 1.0) on rows 0-7 and columns 1-8
    and level 0 elsewhere; and for any pattern with exactly one active cell
    whose placed mask has a non-zero maximum, every pixel of the rendered
    mask outside the block that this cell selects is at level 0. *)
Theorem single_active_cell_footprint :
  render hot_pattern sensor_64x65 device_8px = Ok block_mask ∧
  (∀ torch_available get_centers get_color_filter rotate_func torch_rotate
     vals sn slm_param flipud as_torch l m mx j cj,
     prepare get_centers get_color_filter vals sn slm_param flipud = Ok l →
     place (torch_available && as_torch) sn l = Ok m →
     centers l !! j = Some cj →
     (∀ i v, slm_vals_flat l !! i = Some v → i ≠ j → v == 0)%Q →
     mask_max m = Some mx → ¬ (mx == 0)%Q →
     ∃ out,
       get_programmable_mask torch_available get_centers get_color_filter rotate_func
         torch_rotate vals sn slm_param None flipud as_torch = Ok out ∧
       ∀ k y x v, pixel out k y x = Some v →
         covers sn (height_pixel l) (width_pixel l) cj y x = false → v = level 0).
Proof.
  split; [exact scenario_A_shifted|]. intros. by eapply single_cell_support.
Qed.

Lemma single_active_cell_footprint_witness :
  ∃ out, render hot_pattern sensor_64x65 device_8px = Ok out ∧
    ∀ k y x v, pixel out k y x = Some v →
      covers sensor_64x65 8 8 (centered 8 8 0, centered 8 8 0) y x = false → v = level 0.
Proof.
  destruct single_active_cell_footprint as [_ H].
  run_as l Hl (prepare centered_grid tiled_filter hot_pattern sensor_64x65 device_8px false).
  run_as m Hm (place false sensor_64x65 l).
  apply (H false centered_grid tiled_filter no_rotation no_rotation
           hot_pattern sensor_64x65 device_8px false false l m 1%Q 0%nat
           (centered 8 8 0, centered 8 8 0) Hl Hm).
  - vm_compute. reflexivity.
  - intros i v Hv Hne. destruct i as [|i]; [exfalso; apply Hne; reflexivity|].
    change (replicate 63 0%Q !! i = Some v) in Hv.
    by apply lookup_replicate in Hv as [-> _].
  - vm_compute. reflexivity.
  - discriminate.
Defined.

(** C3 fails as stated: the all-zero pattern is in range and the geometry
    of scenario A is valid on the 64 x 65 sensor, but the rendered mask is
    NaN and so none of the 256 levels. *)
Lemma zero_pattern_not_quantized :
  ∃ out, render zero_pattern sensor_64x65 device_8px = Ok out ∧ ¬ quantized out.
Proof.
  exists (nan_mask 3 (64, 65)%nat). split; [vm_compute; reflexivity|].
  intros H. destruct (H 0 0 0 NaN)%nat as (n & _ & Hn); [reflexivity|discriminate].
Qed.

Lemma render_quantized_witness :
  (∃ out, render hot_pattern sensor_64x65 device_8px = Ok out ∧
          quantized out ∧ has_shape 3 64 65 out) ∧
  (∀ angle, ∃ out,
     get_programmable_mask false centered_grid tiled_filter no_rotation no_rotation
       hot_pattern sensor_64x65 device_8px (Some angle) false false = Ok out ∧
     has_shape 3 64 65 out).
Proof.
  run_as l Hl (prepare centered_grid tiled_filter hot_pattern sensor_64x65 device_8px false).
  run_as m Hm (place false sensor_64x65 l).
  apply (render_quantized false centered_grid tiled_filter no_rotation no_rotation
           hot_pattern sensor_64x65 device_8px false false l m 1%Q).
  - constructor; [split; discriminate|]. apply Forall_replicate. split; discriminate.
  - exact Hl.
  - intros c [= <-]. apply forallb_nonneg. vm_compute. reflexivity.
  - exact Hm.
  - vm_compute. reflexivity.
  - reflexivity.
  - intros angle c h w f Hf. by split.
Defined.

Lemma monochrome_raises_KeyError_witness :
  render hot_pattern sensor_64x65 device_monochrome = Raise (KeyError "color_filter") ∧
  (∀ (params : gmap string pvalue) l,
     prepare centered_grid tiled_filter hot_pattern sensor_64x65 params false = Ok l →
     is_Some (cf l)).
Proof.
  apply (monochrome_raises_KeyError false centered_grid tiled_filter no_rotation no_rotation
           hot_pattern sensor_64x65 device_monochrome None false false).
  - vm_compute. reflexivity.
  - eexists. vm_compute. reflexivity.
Defined.

(** C10 fails as stated: the all-zero pattern of scenario A on the 64 x 64
    sensor does not return a mask of NaN: the placement loop raises, as for
    any other values of the pattern, before the division is reached. *)
Lemma zero_pattern_raises :
  Forall (λ v, v == 0)%Q (data zero_pattern) ∧
  render zero_pattern sensor_64x64 device_8px = Raise ValueError.
Proof. split; [apply Forall_replicate; reflexivity|vm_compute; reflexivity]. Qed.

Lemma zero_pattern_renders_NaN_witness :
  (∀ out, render zero_pattern sensor_64x65 device_8px = Ok out →
     ∃ l, prepare centered_grid tiled_filter zero_pattern sensor_64x65 device_8px false = Ok l ∧
          out = nan_mask (n_color_filter l) (64, 65)%nat) ∧
  render zero_pattern sensor_64x65 device_8px = Ok (nan_mask 3 (64, 65)%nat).
Proof.
  assert (Hz : Forall (λ v, v == 0)%Q (data zero_pattern)).
  { apply Forall_replicate. reflexivity. }
  pose proof (zero_pattern_renders_NaN false centered_grid tiled_filter no_rotation
                no_rotation zero_pattern sensor_64x65 device_8px None false false Hz)
    as [Hinv Hrun].
  split; [exact Hinv|].
  run_as l Hl (prepare centered_grid tiled_filter zero_pattern sensor_64x65 device_8px false).
  run_as m Hm (place false sensor_64x65 l).
  apply (Hrun l m Hl Hm); vm_compute; lia.
Defined.

(** C5 fails as stated: with propagation disabled, a mask of one channel
    and three wavelengths raise no error. *)
Lemma bypass_ignores_channel_count :
  length [1; 2; 3]%R ≠ length [[[RFin 1]]] ∧
  get_intensity_psf [] unit_wavefront no_propagation [[[RFin 1]]] sensor_1x1 1 1
    (Some [1; 2; 3]%R) false = Ok [[[rsquare (rabs (RFin 1))]]].
Proof. split; [simpl; lia|reflexivity]. Qed.

Lemma channel_count_assertion_witness :
  get_intensity_psf [] unit_wavefront no_propagation [[[RFin 1]]] sensor_1x1 1 1
    (Some [1; 2; 3]%R) true = Raise AssertionError ∧
  ∃ u, mul_image [[(RFin 1, RFin 0)]] [[RFin 2]] = Ok u ∧
       [[[rsquare (Cabs (Cmul (RFin 1, RFin 0) (Creal (RFin 2))))]]] !! 0%nat
         = Some (map (map (λ z, rsquare (Cabs z))) (no_propagation u 5%R (1, 1)%Q 1%R)).
Proof.
  split.
  - apply (channel_count_assertion [] unit_wavefront no_propagation [[[RFin 1]]] sensor_1x1
             1%R 1%R (Some [1; 2; 3]%R) true).
    split; [reflexivity|simpl; lia].
  - apply (proj2 (channel_count_assertion [] unit_wavefront no_propagation [[[RFin 2]]]
                    sensor_1x1 1%R 1%R (Some [5%R]) true)
             [[[rsquare (Cabs (Cmul (RFin 1, RFin 0) (Creal (RFin 2))))]]] 0%nat 5%R
             [[RFin 2]] [[(RFin 1, RFin 0)]]);
      reflexivity.
Defined.

(** C7 fails as stated: the intensity is not non-negative for every input.
    The renderer returns a mask of NaN for the all-zero pattern; with
    propagation disabled the intensity of that mask is NaN in every entry.
    With propagation enabled, a NaN entry of the mask makes the field handed
    to [angular_spectrum] NaN whatever the spherical wavefront is, and a
    propagation that passes the NaN on gives an intensity of NaN. *)
Lemma NaN_mask_gives_NaN_intensity :
  render zero_pattern sensor_64x65 device_8px = Ok (nan_mask 3 (64, 65)%nat) ∧
  get_intensity_psf [] unit_wavefront no_propagation
    (real_mask (nan_mask 3 (64, 65)%nat)) sensor_64x65 1 1 None false
    = Ok (replicate 3 (replicate 64 (replicate 65 RNaN))) ∧
  (∀ z, Cmul z (Creal RNaN) = (RNaN, RNaN)) ∧
  get_intensity_psf [] unit_wavefront no_propagation [[[RNaN]]] sensor_1x1 1 1
    (Some [5%R]) true = Ok [[[RNaN]]] ∧
  ¬ nonneg RNaN.
Proof.
  split; [vm_compute; reflexivity|].
  split; [reflexivity|].
  split; [exact Cmul_NaN|].
  split; [reflexivity|].
  intros [].
Qed.

Lemma intensity_nonneg_and_bypass_witness :
  Forall (Forall (Forall nonneg))
    [[[rsquare (Cabs (Cmul (RFin 1, RFin 0) (Creal (RFin (-3)))))]]] ∧
  (Forall (Forall (Forall nonneg)) [[[rsquare (rabs (RFin (-3)))]]]
   ↔ Forall (Forall (Forall (λ x, x ≠ RNaN))) [[[RFin (-3)]]]).
Proof.
  pose proof (intensity_nonneg_and_bypass [] unit_wavefront no_propagation [[[RFin (-3)]]]
                sensor_1x1 1%R 1%R (Some [5%R])) as (_ & Hprop & _ & Hbypass).
  split; [|exact Hbypass].
  apply Hprop; [reflexivity|].
  intros [|i] w m s u Hw Hm Hs Hu; [|done].
  injection Hm as <-. injection Hs as <-. injection Hu as <-.
  repeat constructor. discriminate.
Defined.

(** ** The flattening of the pattern *)

Lemma take_nth_seq {A} (d : A) c (l : list A) :
  (c <= length l)%nat → map (λ ci, nth ci l d) (seq 0 c) = take c l.
Proof.
  revert l. induction c as [|c IH]; intros l Hc; [done|].
  destruct l as [|a l]; simpl in Hc; [lia|].
  simpl. f_equal. rewrite <- seq_shift, map_map. apply IH. lia.
Qed.

Lemma concat_rows_nth {A} (d : A) c : ∀ r (l : list A),
  length l = (r * c)%nat →
  concat (map (λ ri, map (λ ci, nth (ri * c + ci) l d) (seq 0 c)) (seq 0 r)) = l.
Proof.
  induction r as [|r IH]; intros l Hl.
  - destruct l; [done|]. simpl in Hl. lia.
  - assert (Hc : (c <= length l)%nat) by (simpl in Hl; lia).
    cbn [seq map concat Nat.mul Nat.add]. rewrite (take_nth_seq d c l Hc).
    rewrite <- seq_shift, map_map.
    transitivity (take c l ++ drop c l); [|apply take_drop]. f_equal.
    rewrite <- (IH (drop c l)) by (rewrite length_drop; simpl in Hl; lia).
    f_equal. apply map_ext. intros ri. apply map_ext. intros ci.
    rewrite <- (take_drop c l) at 1.
    rewrite app_nth2; rewrite length_take, Nat.min_l by done; [|simpl; lia].
    f_equal. simpl. lia.
Qed.

Lemma Forall_rows_length {A} (f : nat → nat → A) c r :
  Forall (λ row, length row = c) (map (λ ri, map (f ri) (seq 0 c)) (seq 0 r)).
Proof.
  apply Forall_map, Forall_forall. intros ri _. simpl. by rewrite length_map, length_seq.
Qed.

(** X1: a well-formed two-dimensional pattern of [r] rows and [c] columns
    is left as it is by the flattening [vals.reshape((-1, vals.shape[-1]),
    order="F")]: the result has [r] rows of [c] entries, and its entries in
    row-major order are the entries of the pattern. *)
Theorem reshape_F_2d vals r c :
  shape vals = [r; c] → c ≠ 0%nat → wf_ndarray vals →
  ∃ rows, reshape_F vals = Ok (r, c, rows) ∧
          length rows = r ∧ Forall (λ row, length row = c) rows ∧
          concat rows = data vals.
Proof.
  intros Hs Hc Hwf. unfold wf_ndarray in Hwf. rewrite Hs in Hwf. simpl in Hwf.
  unfold reshape_F. rewrite Hs. cbn [rev app prod_list fold_right].
  apply Nat.eqb_neq in Hc as E. rewrite E, Nat.mul_1_r.
  eexists. split; [reflexivity|]. split; [by rewrite length_map, length_seq|].
  split; [apply Forall_rows_length|].
  etransitivity; [|apply (concat_rows_nth 0%Q c r (data vals)); lia].
  f_equal. apply map_ext_in. intros ri Hri. apply in_seq in Hri.
  apply map_ext. intros ci. f_equal.
  unfold ravel_C. simpl. rewrite Nat.mod_small by lia. lia.
Qed.

Lemma reshape_F_2d_witness :
  ∃ rows, reshape_F hot_pattern = Ok (8, 8, rows)%nat ∧
          length rows = 8%nat ∧ Forall (λ row, length row = 8%nat) rows ∧
          concat rows = data hot_pattern.
Proof. apply (reshape_F_2d hot_pattern 8 8); [reflexivity|lia|reflexivity]. Defined.

(** X2: a well-formed three-dimensional pattern of [a] channels, [b] rows
    and [c] columns is flattened, in column-major order of its leading axes,
    to [a * b] rows of [c] entries in which the channels alternate: row
    [k + a * y] of the result is row [y] of channel [k] of the pattern. *)
Theorem reshape_F_3d vals a b c :
  shape vals = [a; b; c] → c ≠ 0%nat → wf_ndarray vals →
  ∃ rows, reshape_F vals = Ok ((a * b)%nat, c, rows) ∧
    ∀ k y x, (k < a)%nat → (y < b)%nat → (x < c)%nat →
      rows !! (k + a * y)%nat ≫= (.!! x) = data vals !! ((k * b + y) * c + x)%nat.
Proof.
  intros Hs Hc Hwf. unfold wf_ndarray in Hwf. rewrite Hs in Hwf. simpl in Hwf.
  unfold reshape_F. rewrite Hs. cbn [rev app prod_list fold_right].
  apply Nat.eqb_neq in Hc as E. rewrite E, Nat.mul_1_r.
  eexists. split; [reflexivity|]. intros k y x Hk Hy Hx.
  assert (Hr : (k + a * y < a * b)%nat) by nia.
  rewrite list_lookup_fmap, lookup_seq_lt by done. simpl.
  rewrite list_lookup_fmap, lookup_seq_lt by done. simpl.
  assert (Hmod : ((k + a * y) mod a = k)%nat).
  { replace (k + a * y)%nat with (k + y * a)%nat by lia.
    rewrite Nat.Div0.mod_add. by apply Nat.mod_small. }
  assert (Hdiv : ((k + a * y) / a = y)%nat).
  { replace (k + a * y)%nat with (k + y * a)%nat by lia.
    rewrite Nat.div_add by lia. rewrite Nat.div_small by done. lia. }
  rewrite Hmod, Hdiv, Nat.mod_small by done.
  unfold ravel_C. simpl.
  assert (Hi : ((k * b + y) * c + x < length (data vals))%nat) by nia.
  apply lookup_lt_is_Some in Hi as [v Hv]. rewrite Hv. f_equal.
  by apply nth_lookup_Some.
Qed.

Lemma reshape_F_3d_witness :
  ∃ rows, reshape_F {| shape := [3; 2; 2]%nat;
                       data := [1; 2; 3; 4; 5; 6; 7; 8; 9; 10; 11; 12]%Q |}
            = Ok (6%nat, 2%nat, rows) ∧
    ∀ k y x, (k < 3)%nat → (y < 2)%nat → (x < 2)%nat →
      rows !! (k + 3 * y)%nat ≫= (.!! x)
        = [1; 2; 3; 4; 5; 6; 7; 8; 9; 10; 11; 12]%Q !! ((k * 2 + y) * 2 + x)%nat.
Proof.
  apply (reshape_F_3d {| shape := [3; 2; 2]%nat;
                         data := [1; 2; 3; 4; 5; 6; 7; 8; 9; 10; 11; 12]%Q |} 3 2 2);
    [reflexivity|lia|reflexivity].
Defined.

(** ** The placement loop, pixel by pixel *)

Lemma place_cells_pixel tf sn cf hp wp flat cs : ∀ i m m' k y x v,
  place_cells tf sn cf hp wp flat i cs m = Ok m' →
  pixel m' k y x = Some v →
  ∃ old, pixel m k y x = Some old ∧
    ((v = old ∧ ∀ j c, cs !! j = Some c → covers sn hp wp c y x = false) ∨
     (∃ j c ws u,
        cs !! j = Some c ∧ covers sn hp wp c y x = true ∧
        cell_weights cf (i + j) = Ok ws ∧ flat !! (i + j)%nat = Some u ∧
        v = (u * weight_at ws k)%Q ∧
        ∀ j' c', (j < j')%nat → cs !! j' = Some c' → covers sn hp wp c' y x = false)).
Proof.
  induction cs as [|c cs IH]; intros i m m' k y x v H Hv; simpl in H.
  - injection H as <-. exists v. split; [done|]. left. split; [done|]. by intros j c.
  - apply bind_Ok in H as (m1 & H1 & H).
    destruct (IH _ _ _ _ _ _ _ H Hv) as (old1 & Hold1 & Hcase).
    apply place_cell_Ok in H1 as (ws & u & r0 & nr & c0 & nc & Hws & Hu & Hfp & ->).
    rewrite pixel_assign_block in Hold1.
    destruct (pixel m k y x) as [old|] eqn:Hold; [|done]. simpl in Hold1.
    assert (Hcov : covers sn hp wp c y x = in_range r0 nr y && in_range c0 nc x).
    { unfold covers. by rewrite Hfp. }
    rewrite <- Hcov in Hold1. injection Hold1 as Hold1.
    exists old. split; [done|].
    destruct Hcase as [[-> Hnone] | (j & c' & ws' & u' & Hj & Hc' & Hws' & Hu' & -> & Hlast)].
    + destruct (covers sn hp wp c y x) eqn:Hc.
      * right. exists 0%nat, c, ws, u. rewrite Nat.add_0_r.
        repeat split; try done.
        intros [|j'] c' Hlt Hj'; [lia|]. by eapply Hnone.
      * left. split; [done|]. intros [|j] c' Hj; simpl in Hj.
        -- by injection Hj as <-.
        -- by eapply Hnone.
    + right. exists (S j), c', ws', u'. rewrite Nat.add_succ_r.
      repeat split; try done.
      intros [|j'] c'' Hlt Hj'; [lia|]. simpl in Hj'. eapply Hlast; [|exact Hj']. lia.
Qed.

(** X3: the placement loop paints each pixel with the last cell whose block
    covers it.  When the loop completes, a pixel of the mask that no block
    covers is 0; any other pixel holds, in channel [k], the pattern value of
    the last cell [j] that covers it times that cell's weight for [k]. *)
Theorem placed_pixel_last_writer tf sn l m k y x v :
  place tf sn l = Ok m →
  pixel m k y x = Some v →
  (v = 0%Q ∧
   ∀ j c, centers l !! j = Some c →
          covers sn (height_pixel l) (width_pixel l) c y x = false) ∨
  (∃ j c ws u,
     centers l !! j = Some c ∧
     covers sn (height_pixel l) (width_pixel l) c y x = true ∧
     cell_weights (cf l) j = Ok ws ∧ slm_vals_flat l !! j = Some u ∧
     v = (u * weight_at ws k)%Q ∧
     ∀ j' c', (j < j')%nat → centers l !! j' = Some c' →
              covers sn (height_pixel l) (width_pixel l) c' y x = false).
Proof.
  intros H Hv. destruct (place_cells_pixel _ _ _ _ _ _ _ _ _ _ _ _ _ _ H Hv)
    as (old & Hold & Hcase).
  apply pixel_zeros in Hold as ->. exact Hcase.
Qed.

Lemma placed_pixel_last_writer_witness :
  ∃ l m,
    prepare centered_grid tiled_filter hot_pattern sensor_64x65 device_8px false = Ok l ∧
    place false sensor_64x65 l = Ok m ∧
    pixel m 0 0 1 = Some 1%Q ∧
    ((1%Q = 0%Q ∧
      ∀ j c, centers l !! j = Some c →
             covers sensor_64x65 (height_pixel l) (width_pixel l) c 0 1 = false) ∨
     (∃ j c ws u,
        centers l !! j = Some c ∧
        covers sensor_64x65 (height_pixel l) (width_pixel l) c 0 1 = true ∧
        cell_weights (cf l) j = Ok ws ∧ slm_vals_flat l !! j = Some u ∧
        1%Q = (u * weight_at ws 0)%Q ∧
        ∀ j' c', (j < j')%nat → centers l !! j' = Some c' →
                 covers sensor_64x65 (height_pixel l) (width_pixel l) c' 0 1 = false)).
Proof.
  run_as l Hl (prepare centered_grid tiled_filter hot_pattern sensor_64x65 device_8px false).
  run_as m Hm (place false sensor_64x65 l).
  exists l, m. split; [exact Hl|]. split; [exact Hm|].
  assert (Hv : pixel m 0 0 1 = Some 1%Q) by (vm_compute; reflexivity).
  split; [exact Hv|].
  exact (placed_pixel_last_writer false sensor_64x65 l m 0 0 1 1%Q Hm Hv).
Defined.

(** ** Normalisation and quantisation *)

Lemma round_half_even_comp q q' : (q == q')%Q → round_half_even q = round_half_even q'.
Proof.
  intros Hq. unfold round_half_even.
  assert (Hf : Qfloor q = Qfloor q') by (by rewrite Hq).
  rewrite Hf.
  assert (Hc : ((q - inject_Z (Qfloor q')) ?= 1 # 2)%Q = ((q' - inject_Z (Qfloor q')) ?= 1 # 2)%Q)
    by (by rewrite Hq).
  by rewrite Hc.
Qed.

Lemma round_half_even_error q : (Qabs (inject_Z (round_half_even q) - q) <= 1 # 2)%Q.
Proof.
  pose proof (Qfloor_le q) as Hlo. pose proof (Qlt_floor q) as Hhi.
  rewrite inject_Z_plus in Hhi.
  apply Qabs_Qle_condition. unfold round_half_even.
  destruct (Qcompare_spec (q - inject_Z (Qfloor q)) (1 # 2)) as [He|Hl|Hg].
  - destruct (Z.even (Qfloor q)); [|rewrite inject_Z_plus];
      revert Hlo Hhi He; generalize (inject_Z (Qfloor q)); intros z Hlo Hhi He;
      change (inject_Z 1) with 1%Q in *; split; Lqa.lra.
  - revert Hlo Hhi Hl; generalize (inject_Z (Qfloor q)); intros z Hlo Hhi Hl;
      change (inject_Z 1) with 1%Q in *; split; Lqa.lra.
  - rewrite inject_Z_plus.
    revert Hlo Hhi Hg; generalize (inject_Z (Qfloor q)); intros z Hlo Hhi Hg;
      change (inject_Z 1) with 1%Q in *; split; Lqa.lra.
Qed.

Lemma list_max_elem_of l mx : list_max l = Some mx → mx ∈ l.
Proof.
  intros H. apply (list_max_all (λ x, x ∈ l) l mx); [|done].
  by apply Forall_forall.
Qed.

Lemma quantize_entry_max mx : ¬ (mx == 0)%Q → quantize_entry (fdiv mx mx) = level 255.
Proof.
  intros Hmx. rewrite fdiv_finite by done. simpl. unfold level.
  rewrite (round_half_even_comp _ 255); [reflexivity|]. field. exact Hmx.
Qed.

Lemma quantize_entry_error u mx :
  ¬ (mx == 0)%Q →
  ∃ q, quantize_entry (fdiv u mx) = Fin q ∧ (Qabs (q - u / mx) <= 1 # 510)%Q.
Proof.
  intros Hmx. rewrite fdiv_finite by done.
  exists (inject_Z (round_half_even (u / mx * 255)) / 255)%Q. split; [reflexivity|].
  pose proof (round_half_even_error (u / mx * 255)) as H.
  apply Qabs_Qle_condition in H. apply Qabs_Qle_condition.
  revert H. generalize (inject_Z (round_half_even (u / mx * 255))). intros r.
  generalize (u / mx)%Q. intros w [H1 H2].
  unfold Qdiv. change (/ 255)%Q with (1 # 255)%Q. split; Lqa.lra.
Qed.

Lemma has_shape_empty {A} c h w (m : list (list (list A))) :
  has_shape c h w m → h = 0%nat ∨ w = 0%nat → concat (concat m) = [].
Proof.
  intros [_ Hm] Hz. induction Hm as [|ch m [Hh Hch] _ IH]; simpl; [done|].
  rewrite concat_app, IH, app_nil_r. clear IH.
  destruct Hz as [-> | ->].
  - by destruct ch.
  - clear Hh. induction Hch as [|row ch Hrow _ IH]; simpl; [done|].
    rewrite IH, app_nil_r. by destruct row.
Qed.

Section RenderValues.

Variable torch_available : bool.
Variable get_centers : nat * nat → pvalue → list (Q * Q).
Variable get_color_filter : nat * nat → pvalue → list (list Q).
Variable rotate_func : Q → fmask → fmask.
Variable torch_rotate : Q → fmask → fmask.

Local Abbreviation prepare := (prepare get_centers get_color_filter).
Local Abbreviation get_programmable_mask :=
  (get_programmable_mask torch_available get_centers get_color_filter rotate_func torch_rotate).

(** X4: the mask is normalised to its brightest pixel.  When the placed mask
    has a non-zero maximum, the mask rendered without rotation holds
    level 255 (the value 1.0) at the pixels where the placed mask attains
    its maximum, and there is such a pixel. *)
Theorem brightest_pixel_is_level_255 vals sn slm_param flipud as_torch l m mx :
  prepare vals sn slm_param flipud = Ok l →
  place (torch_available && as_torch) sn l = Ok m →
  mask_max m = Some mx → ¬ (mx == 0)%Q →
  ∃ out, get_programmable_mask vals sn slm_param None flipud as_torch = Ok out ∧
    (∀ k y x, pixel m k y x = Some mx → pixel out k y x = Some (level 255)) ∧
    (∃ k y x, pixel m k y x = Some mx).
Proof.
  intros Hl Hm Hmx Hnz. eexists. split; [|split].
  - erewrite get_programmable_mask_unfold; [|exact Hl|exact Hm].
    rewrite (quantize_Ok _ _ mx Hmx). reflexivity.
  - intros k y x Hp. simpl. rewrite pixel_map, Hp. simpl. f_equal.
    by apply quantize_entry_max.
  - apply pixel_elem_of. by apply list_max_elem_of.
Qed.

(** X5: rendering is a normalisation followed by rounding to the nearest of
    the levels.  When the placed mask has a non-zero maximum [mx], each
    pixel of the mask rendered without rotation is a finite value within
    1/510 (half a level) of the placed value divided by [mx]. *)
Theorem rendered_pixel_within_half_level vals sn slm_param flipud as_torch l m mx :
  prepare vals sn slm_param flipud = Ok l →
  place (torch_available && as_torch) sn l = Ok m →
  mask_max m = Some mx → ¬ (mx == 0)%Q →
  ∃ out, get_programmable_mask vals sn slm_param None flipud as_torch = Ok out ∧
    ∀ k y x u, pixel m k y x = Some u →
      ∃ q, pixel out k y x = Some (Fin q) ∧ (Qabs (q - u / mx) <= 1 # 510)%Q.
Proof.
  intros Hl Hm Hmx Hnz. eexists. split.
  - erewrite get_programmable_mask_unfold; [|exact Hl|exact Hm].
    rewrite (quantize_Ok _ _ mx Hmx). reflexivity.
  - intros k y x u Hp. simpl. rewrite pixel_map, Hp. simpl.
    destruct (quantize_entry_error u mx Hnz) as (q & -> & Hq). eauto.
Qed.

(** X6: on a sensor without rows or without columns no mask is returned:
    whatever the pattern and the device, the call ends in an exception (at
    the latest when the maximum of the empty mask is taken). *)
Theorem empty_sensor_raises vals sn slm_param rotate flipud as_torch :
  fst (resolution sn) = 0%nat ∨ snd (resolution sn) = 0%nat →
  ∃ e, get_programmable_mask vals sn slm_param rotate flipud as_torch = Raise e.
Proof.
  intros Hz. unfold Slm.get_programmable_mask, placed_mask.
  destruct (prepare vals sn slm_param flipud) as [l|e] eqn:Hl; [|by exists e].
  cbn [mbind result_bind].
  destruct (place (torch_available && as_torch) sn l) as [m|e] eqn:Hm; [|by exists e].
  cbn [mbind result_bind].
  apply place_shape in Hm. unfold quantize, mask_max.
  rewrite (has_shape_empty _ _ _ _ Hm Hz). simpl. eauto.
Qed.

End RenderValues.

Lemma brightest_pixel_is_level_255_witness :
  ∃ out, render hot_pattern sensor_64x65 device_8px = Ok out ∧
         ∃ k y x, pixel out k y x = Some (level 255).
Proof.
  run_as l Hl (prepare centered_grid tiled_filter hot_pattern sensor_64x65 device_8px false).
  run_as m Hm (place false sensor_64x65 l).
  assert (Hmx : mask_max m = Some 1%Q) by (vm_compute; reflexivity).
  assert (Hnz : ¬ (1 == 0)%Q) by discriminate.
  destruct (brightest_pixel_is_level_255 false centered_grid tiled_filter no_rotation
              no_rotation hot_pattern sensor_64x65 device_8px false false l m 1%Q
              Hl Hm Hmx Hnz) as (out & Hout & Hlev & k & y & x & Hp).
  exists out. split; [exact Hout|]. exists k, y, x. by apply Hlev.
Defined.

Lemma rendered_pixel_within_half_level_witness :
  ∃ out, render hot_pattern sensor_64x65 device_8px = Ok out ∧
         ∃ q, pixel out 0 0 1 = Some (Fin q) ∧ (Qabs (q - 1 / 1) <= 1 # 510)%Q.
Proof.
  run_as l Hl (prepare centered_grid tiled_filter hot_pattern sensor_64x65 device_8px false).
  run_as m Hm (place false sensor_64x65 l).
  assert (Hmx : mask_max m = Some 1%Q) by (vm_compute; reflexivity).
  assert (Hnz : ¬ (1 == 0)%Q) by discriminate.
  destruct (rendered_pixel_within_half_level false centered_grid tiled_filter no_rotation
              no_rotation hot_pattern sensor_64x65 device_8px false false l m 1%Q
              Hl Hm Hmx Hnz) as (out & Hout & Hpix).
  exists out. split; [exact Hout|]. apply Hpix. vm_compute. reflexivity.
Defined.

Lemma empty_sensor_raises_witness :
  ∃ e, render hot_pattern {| resolution := (0, 64)%nat; pitch := (1, 1)%Q |} device_8px
         = Raise e.
Proof.
  apply (empty_sensor_raises false centered_grid tiled_filter no_rotation no_rotation).
  left. reflexivity.
Defined.

(** ** The intensity PSF has the shape of the mask *)

Lemma fmap_length_map2 {A B} (f : A → B) (a : list (list A)) :
  length <$> map (map f) a = length <$> a.
Proof.
  induction a as [|row a IH]; [done|].
  change (length (map f row) :: (length <$> map (map f) a) = length row :: (length <$> a)).
  by rewrite length_map, IH.
Qed.

Section IntensityShape.

Variable rgb_wv : list R.
Variable spherical_prop : nat * nat → Q * Q → list R → R → list field.
Variable angular_spectrum : field → R → Q * Q → R → field.

Local Abbreviation propagate := (propagate angular_spectrum).
Local Abbreviation get_intensity_psf :=
  (get_intensity_psf rgb_wv spherical_prop angular_spectrum).

Lemma propagate_shape sn dz wv : ∀ u_in mask psfs,
  propagate sn dz u_in mask wv = Ok psfs →
  length psfs = length wv ∧
  ∀ i p m, psfs !! i = Some p → mask !! i = Some m → length <$> p = length <$> m.
Proof.
  induction wv as [|w wv IH]; intros u_in mask psfs; simpl.
  - intros [= <-]. split; [done|]. by intros i p m.
  - destruct u_in as [|u u_in]; [done|]. destruct mask as [|m mask]; [done|].
    destruct (same_shape _ m) eqn:Hs; [|done]. cbn [mbind result_bind].
    intros H. apply bind_Ok in H as (rest & Hrest & H). injection H as <-.
    destruct (IH _ _ _ Hrest) as [Hlen Hsh]. split; [simpl; congruence|].
    intros [|i] p m'; simpl.
    + intros [= <-] [= <-]. unfold same_shape in Hs. by apply bool_decide_eq_true in Hs.
    + apply Hsh.
Qed.

(** X7: whenever [get_intensity_psf] returns, with or without propagation,
    its result has the shape of the mask: as many channels, and in each
    channel as many rows, of the same lengths. *)
Theorem intensity_psf_shape mask sn scene2mask mask2sensor color_system waveprop out :
  get_intensity_psf mask sn scene2mask mask2sensor color_system waveprop = Ok out →
  length out = length mask ∧
  ∀ i o m, out !! i = Some o → mask !! i = Some m → length <$> o = length <$> m.
Proof.
  unfold Slm.get_intensity_psf. destruct waveprop.
  - intros H. apply bind_Ok in H as ([] & Ha & H). apply assert_Ok, Nat.eqb_eq in Ha.
    apply bind_Ok in H as (u_in & Hu & H). apply bind_Ok in H as (psfs & Hp & H).
    injection H as <-. apply propagate_shape in Hp as [Hlen Hsh].
    unfold intensity. split; [rewrite length_map; congruence|].
    intros i o m. rewrite list_lookup_fmap.
    destruct (psfs !! i) as [p|] eqn:Hpi; [|done]. intros [= <-] Hm.
    rewrite fmap_length_map2. by eapply Hsh.
  - intros [= <-]. split; [by rewrite length_map|].
    intros i o m. rewrite list_lookup_fmap. intros Ho Hm. rewrite Hm in Ho.
    injection Ho as <-. apply fmap_length_map2.
Qed.

End IntensityShape.

Lemma intensity_psf_shape_witness :
  length [[[rsquare (Cabs (Cmul (RFin 1, RFin 0) (Creal (RFin 2))))]]] = length [[[RFin 2]]] ∧
  ∀ i o m, [[[rsquare (Cabs (Cmul (RFin 1, RFin 0) (Creal (RFin 2))))]]] !! i = Some o →
           [[[RFin 2]]] !! i = Some m →
           length <$> o = length <$> m.
Proof.
  apply (intensity_psf_shape [] unit_wavefront no_propagation [[[RFin 2]]] sensor_1x1
           1%R 1%R (Some [5%R]) true).
  reflexivity.
Defined.

(** ** The command that [set_programmable_mask] runs *)

Section UploadCommand.

Variable slm_devices : gmap string slm_device.
Variable check_username_hostname : string → string → result unit.

(** X8: when [set_programmable_mask] returns, the device is one of
    "adafruit", "nokia" and "holoeye", the pattern has the shape that the
    table of devices gives for it (three channels first unless it is
    monochrome), and the command run on the Raspberry Pi is the example
    script of that device on the uploaded file. *)
Theorem upload_runs_device_script pattern device rpi_username rpi_hostname cmd :
  set_programmable_mask slm_devices check_username_hostname pattern device
    rpi_username rpi_hostname = Ok cmd →
  (device = "adafruit" ∨ device = "nokia" ∨ device = "holoeye")%string ∧
  (∃ dev, slm_devices !! device = Some dev ∧
          shape pattern = if monochrome dev then slm_shape dev else 3%nat :: slm_shape dev) ∧
  cmd = ("~/slm-controller/slm_controller_env/bin/python ~/slm-controller/examples/"
           +:+ device +:+ "_slm.py --file_path ~/tmp_pattern.npy")%string.
Proof.
  unfold set_programmable_mask. intros H.
  apply bind_Ok in H as ([] & _ & H). apply bind_Ok in H as ([] & _ & H).
  apply bind_Ok in H as (script & Hs & H). apply from_option_Ok in Hs.
  apply bind_Ok in H as (dev & Hd & H). apply from_option_Ok in Hd.
  apply bind_Ok in H as ([] & Ha & H). apply assert_Ok, bool_decide_eq_true in Ha.
  injection H as <-.
  assert (Hdev : (device = "adafruit" ∧ script = "~/slm-controller/examples/adafruit_slm.py")
               ∨ (device = "nokia" ∧ script = "~/slm-controller/examples/nokia_slm.py")
               ∨ (device = "holoeye" ∧ script = "~/slm-controller/examples/holoeye_slm.py")).
  { unfold SUPPORTED_DEVICE in Hs.
    apply lookup_insert_Some in Hs as [[<- <-] | [_ Hs]]; [by left|].
    apply lookup_insert_Some in Hs as [[<- <-] | [_ Hs]]; [by right; left|].
    apply lookup_insert_Some in Hs as [[<- <-] | [_ Hs]]; [by right; right|].
    by rewrite lookup_empty in Hs. }
  split; [tauto|]. split.
  { exists dev. split; [done|]. rewrite Ha. by destruct (monochrome dev). }
  destruct Hdev as [[-> ->] | [[-> ->] | [-> ->]]]; reflexivity.
Qed.

End UploadCommand.

Lemma upload_runs_device_script_witness :
  ("adafruit" = "adafruit" ∨ "adafruit" = "nokia" ∨ "adafruit" = "holoeye")%string ∧
  (∃ dev, ({["adafruit"%string := {| slm_shape := [8; 8]%nat; monochrome := true |}]}
             : gmap string slm_device) !! "adafruit"%string = Some dev ∧
          shape hot_pattern = if monochrome dev then slm_shape dev else 3%nat :: slm_shape dev) ∧
  ("~/slm-controller/slm_controller_env/bin/python ~/slm-controller/examples/adafruit_slm.py --file_path ~/tmp_pattern.npy"
   = "~/slm-controller/slm_controller_env/bin/python ~/slm-controller/examples/"
       +:+ "adafruit" +:+ "_slm.py --file_path ~/tmp_pattern.npy")%string.
Proof.
  apply (upload_runs_device_script
           {["adafruit"%string := {| slm_shape := [8; 8]%nat; monochrome := true |}]}
           (λ _ _, Ok tt) hot_pattern "adafruit" "pi" "raspberrypi.local").
  vm_compute. reflexivity.
Defined.

(** ** The rendered mask does not depend on the scale of the pattern *)

Lemma Forall2_concat {A B} (P : A → B → Prop) ls ks :
  Forall2 (Forall2 P) ls ks → Forall2 P (concat ls) (concat ks).
Proof.
  intros H. induction H as [|l k ls ks Hl _ IH]; simpl; [constructor|].
  by apply Forall2_app.
Qed.

Lemma Forall2_imap {A B C D} (P : A → B → Prop) (Q : C → D → Prop)
    (f : nat → A → C) (g : nat → B → D) l k :
  Forall2 P l k → (∀ i x y, P x y → Q (f i x) (g i y)) →
  Forall2 Q (imap f l) (imap g k).
Proof.
  intros H. revert f g. induction H as [|x y l k Hxy _ IH]; intros f g Hfg; simpl.
  - constructor.
  - constructor; [by apply Hfg|]. apply IH. intros i. apply Hfg.
Qed.

Lemma Forall2_map_eq {A B C} (P : A → B → Prop) (f : A → C) (g : B → C) l k :
  Forall2 P l k → (∀ x y, P x y → f x = g y) → map f l = map g k.
Proof.
  intros H Hfg. induction H as [|x y l k Hxy _ IH]; simpl; [done|].
  by rewrite (Hfg x y Hxy), IH.
Qed.

Section RenderScale.

Variable c : Q.
Hypothesis c_pos : (0 < c)%Q.

(** An entry and the entry scaled by [c]. *)
Local Abbreviation rel := (λ x y : Q, (y == c * x)%Q).

Lemma rel_zero : rel 0%Q 0%Q.
Proof. simpl. ring. Qed.

Lemma rel_nth i (data : list Q) : rel (nth i data 0%Q) (nth i (map (Qmult c) data) 0%Q).
Proof.
  destruct (Nat.lt_ge_cases i (length data)) as [Hi|Hi].
  - rewrite (nth_indep _ 0%Q (c * 0)%Q) by (by rewrite length_map).
    rewrite map_nth. reflexivity.
  - rewrite !nth_overflow by (by rewrite ?length_map). apply rel_zero.
Qed.

Lemma reshape_F_scale vals :
  match reshape_F vals,
        reshape_F {| shape := shape vals; data := map (Qmult c) (data vals) |} with
  | Ok (n, rows), Ok (n', rows') => n = n' ∧ Forall2 (Forall2 rel) rows rows'
  | Raise e, Raise e' => e = e'
  | _, _ => False
  end.
Proof.
  unfold reshape_F. cbn [shape data].
  destruct (rev (shape vals)) as [|w rlead]; [done|].
  destruct (w =? 0)%nat; [done|]. split; [done|].
  apply Forall2_fmap, Forall_Forall2_diag, Forall_forall. intros r _.
  apply Forall2_fmap, Forall_Forall2_diag, Forall_forall. intros x _.
  apply rel_nth.
Qed.

Section WithExternals.

Variable torch_available : bool.
Variable get_centers : nat * nat → pvalue → list (Q * Q).
Variable get_color_filter : nat * nat → pvalue → list (list Q).
Variable rotate_func : Q → fmask → fmask.
Variable torch_rotate : Q → fmask → fmask.

Local Abbreviation prepare := (prepare get_centers get_color_filter).
Local Abbreviation get_programmable_mask :=
  (get_programmable_mask torch_available get_centers get_color_filter rotate_func torch_rotate).

Lemma prepare_scale vals sn slm_param flipud :
  match prepare vals sn slm_param flipud,
        prepare {| shape := shape vals; data := map (Qmult c) (data vals) |}
          sn slm_param flipud with
  | Ok l, Ok l' =>
      n_color_filter l' = n_color_filter l ∧ centers l' = centers l ∧ cf l' = cf l ∧
      height_pixel l' = height_pixel l ∧ width_pixel l' = width_pixel l ∧
      Forall2 rel (slm_vals_flat l) (slm_vals_flat l')
  | Raise e, Raise e' => e = e'
  | _, _ => False
  end.
Proof.
  unfold Slm.prepare. pose proof (reshape_F_scale vals) as Hr.
  destruct (reshape_F vals) as [[n rows]|e],
           (reshape_F {| shape := shape vals; data := map (Qmult c) (data vals) |})
             as [[n' rows']|e']; try done.
  destruct Hr as [<- Hrows]. cbn [mbind result_bind].
  destruct (slm_param !! "color_filter"%string) as [cfv|]; [|done].
  cbn [from_option mbind result_bind].
  destruct (slm_param !! PITCH) as [pp|]; [|done]. cbn [from_option mbind result_bind].
  destruct (slm_param !! CELL_SIZE) as [cell|]; [|done]. cbn [from_option mbind result_bind].
  destruct (cell_pixels cell (pitch sn)) as [[hp wp]|e]; [|done].
  cbn [mbind result_bind n_color_filter centers cf height_pixel width_pixel slm_vals_flat].
  repeat split. by apply Forall2_concat.
Qed.

End WithExternals.

Lemma place_cell_scale tf sn cf hp wp flat flat' i ctr (m m' : mask3) :
  Forall2 rel flat flat' →
  Forall2 (Forall2 (Forall2 rel)) m m' →
  match place_cell tf sn cf hp wp flat i ctr m, place_cell tf sn cf hp wp flat' i ctr m' with
  | Ok a, Ok b => Forall2 (Forall2 (Forall2 rel)) a b
  | Raise e, Raise e' => e = e'
  | _, _ => False
  end.
Proof using c_pos.
  intros Hflat Hm. unfold place_cell.
  destruct (cell_weights cf i) as [ws|e]; [|done]. cbn [mbind result_bind].
  destruct ((hp <? 0)%Z || (wp <? 0)%Z); [done|]. cbn [mbind result_bind].
  rewrite Forall2_lookup in Hflat. specialize (Hflat i).
  destruct Hflat as [v v' Hv|]; [|done]. cbn [from_option mbind result_bind].
  destruct (footprint sn hp wp ctr) as [[r0 nr] [c0 nc]].
  rewrite <- (Forall2_length _ _ _ Hm).
  destruct (_ && _); [|done].
  unfold assign_block.
  eapply Forall2_imap; [exact Hm|]. intros k ch ch' Hch.
  eapply Forall2_imap; [exact Hch|]. intros y row row' Hrow.
  destruct (in_range r0 nr y); [|done].
  eapply Forall2_imap; [exact Hrow|]. intros x old old' Hold.
  destruct (in_range c0 nc x); [|done]. simpl. rewrite Hv. ring.
Qed.

Lemma place_cells_scale tf sn cf hp wp flat flat' cs : ∀ i (m m' : mask3),
  Forall2 rel flat flat' →
  Forall2 (Forall2 (Forall2 rel)) m m' →
  match place_cells tf sn cf hp wp flat i cs m, place_cells tf sn cf hp wp flat' i cs m' with
  | Ok a, Ok b => Forall2 (Forall2 (Forall2 rel)) a b
  | Raise e, Raise e' => e = e'
  | _, _ => False
  end.
Proof using c_pos.
  induction cs as [|ctr cs IH]; intros i m m' Hflat Hm; simpl; [done|].
  pose proof (place_cell_scale tf sn cf hp wp flat flat' i ctr m m' Hflat Hm) as H1.
  destruct (place_cell tf sn cf hp wp flat i ctr m) as [a|e],
           (place_cell tf sn cf hp wp flat' i ctr m') as [b|e']; try done.
  cbn [mbind result_bind]. by apply IH.
Qed.

Lemma Qmax_scale a b : (Qmax (c * a) (c * b) == c * Qmax a b)%Q.
Proof using c_pos.
  destruct (Qlt_le_dec a b) as [Hab|Hba].
  - rewrite (Q.max_r a b) by (by apply Qlt_le_weak).
    apply Q.max_r. apply Qmult_le_l; [done|by apply Qlt_le_weak].
  - rewrite (Q.max_l a b) by done. apply Q.max_l. by apply Qmult_le_l.
Qed.

Lemma fold_left_Qmax_scale l k : ∀ a a',
  rel a a' → Forall2 rel l k → rel (fold_left Qmax l a) (fold_left Qmax k a').
Proof using c_pos.
  intros a a' Ha H. revert a a' Ha.
  induction H as [|x y l k Hxy _ IH]; intros a a' Ha; simpl; [done|].
  apply IH. simpl in *. rewrite Ha, Hxy. apply Qmax_scale.
Qed.

Lemma list_max_scale l k :
  Forall2 rel l k →
  match list_max l, list_max k with
  | Some mx, Some mx' => rel mx mx'
  | None, None => True
  | _, _ => False
  end.
Proof using c_pos.
  intros H. destruct H as [|x y l k Hxy H]; simpl; [done|].
  by apply fold_left_Qmax_scale.
Qed.

Lemma scaled_zero x x' : rel x x' → (x' == 0 ↔ x == 0)%Q.
Proof using c_pos.
  simpl. intros ->. split.
  - intros H. apply Qmult_integral in H as [H|H]; [|done].
    rewrite H in c_pos. by apply Qlt_irrefl in c_pos.
  - intros ->. ring.
Qed.

Lemma scaled_compare x x' : rel x x' → (x' ?= 0)%Q = (x ?= 0)%Q.
Proof using c_pos.
  simpl. intros ->.
  destruct (Qcompare_spec x 0) as [E|Hl|Hg].
  - apply Qeq_alt. rewrite E. ring.
  - apply Qlt_alt. rewrite <- (Qmult_0_r c). by apply Qmult_lt_l.
  - apply Qgt_alt. rewrite <- (Qmult_0_r c). by apply Qmult_lt_l.
Qed.

Lemma quantize_entry_scale x x' mx mx' :
  rel x x' → rel mx mx' →
  quantize_entry (fdiv x' mx') = quantize_entry (fdiv x mx).
Proof using c_pos.
  intros Hx Hmx. unfold fdiv.
  assert (Hb : Qeq_bool mx' 0 = Qeq_bool mx 0).
  { destruct (Qeq_bool mx 0) eqn:E.
    - apply Qeq_bool_iff. apply (scaled_zero _ _ Hmx). by apply Qeq_bool_iff.
    - destruct (Qeq_bool mx' 0) eqn:E'; [|done].
      apply Qeq_bool_iff, (scaled_zero _ _ Hmx), Qeq_bool_iff in E'. congruence. }
  rewrite Hb, (scaled_compare _ _ Hx).
  destruct (Qeq_bool mx 0) eqn:E; [done|].
  simpl. do 3 f_equal. apply round_half_even_comp.
  simpl in Hx, Hmx. rewrite Hx, Hmx. field. split.
  - intros E'. apply Qeq_bool_iff in E'. congruence.
  - intros E'. rewrite E' in c_pos. by apply Qlt_irrefl in c_pos.
Qed.

Lemma quantize_scale tf (m m' : mask3) :
  Forall2 (Forall2 (Forall2 rel)) m m' → quantize tf m' = quantize tf m.
Proof using c_pos.
  intros Hm. unfold quantize, mask_max.
  pose proof (list_max_scale _ _ (Forall2_concat _ _ _ (Forall2_concat _ _ _ Hm))) as Hmx.
  destruct (list_max (concat (concat m))) as [mx|],
           (list_max (concat (concat m'))) as [mx'|]; try done.
  cbn [from_option mbind result_bind]. f_equal. symmetry.
  eapply Forall2_map_eq; [exact Hm|]. intros ch ch' Hch.
  eapply Forall2_map_eq; [exact Hch|]. intros row row' Hrow.
  eapply Forall2_map_eq; [exact Hrow|]. intros x x' Hx.
  symmetry. by apply quantize_entry_scale.
Qed.

Lemma zeros_scale n res : Forall2 (Forall2 (Forall2 rel)) (zeros n res) (zeros n res).
Proof. unfold zeros. do 3 apply Forall2_replicate. apply rel_zero. Qed.

Section Main.

Variable torch_available : bool.
Variable get_centers : nat * nat → pvalue → list (Q * Q).
Variable get_color_filter : nat * nat → pvalue → list (list Q).
Variable rotate_func : Q → fmask → fmask.
Variable torch_rotate : Q → fmask → fmask.

Local Abbreviation prepare := (prepare get_centers get_color_filter).
Local Abbreviation get_programmable_mask :=
  (get_programmable_mask torch_available get_centers get_color_filter rotate_func torch_rotate).

(** X21: the rendered mask does not depend on the scale of the pattern.
    Multiplying every value of the pattern by a positive factor changes
    nothing in what [get_programmable_mask] does: it returns the same mask,
    or raises the same exception.  (The division of the pattern by 255 in
    the simulation script has no effect on the mask.) *)
Theorem rendered_mask_scale_invariant vals sn slm_param rotate flipud as_torch :
  get_programmable_mask {| shape := shape vals; data := map (Qmult c) (data vals) |}
    sn slm_param rotate flipud as_torch =
  get_programmable_mask vals sn slm_param rotate flipud as_torch.
Proof using c_pos.
  unfold Slm.get_programmable_mask, placed_mask.
  pose proof (prepare_scale get_centers get_color_filter vals sn slm_param flipud) as Hp.
  destruct (prepare vals sn slm_param flipud) as [l|e],
           (prepare {| shape := shape vals; data := map (Qmult c) (data vals) |}
              sn slm_param flipud) as [l'|e']; try done; [|by subst].
  destruct Hp as (Hn & Hc & Hcf & Hh & Hw & Hflat).
  cbn [mbind result_bind]. unfold place. rewrite Hn, Hc, Hcf, Hh, Hw.
  pose proof (place_cells_scale (torch_available && as_torch) sn (cf l) (height_pixel l)
                (width_pixel l) (slm_vals_flat l) (slm_vals_flat l') (centers l) 0
                _ _ Hflat (zeros_scale (n_color_filter l) (resolution sn))) as Hm.
  destruct (place_cells _ sn (cf l) _ _ (slm_vals_flat l) 0 (centers l) _) as [m|e],
           (place_cells _ sn (cf l) _ _ (slm_vals_flat l') 0 (centers l) _) as [m'|e'];
    try done; [|by subst].
  cbn [mbind result_bind]. by rewrite (quantize_scale _ m m' Hm).
Qed.

End Main.

End RenderScale.

Lemma rendered_mask_scale_invariant_witness :
  render {| shape := shape hot_pattern; data := map (Qmult 255) (data hot_pattern) |}
    sensor_64x65 device_8px = render hot_pattern sensor_64x65 device_8px.
Proof.
  apply (rendered_mask_scale_invariant 255).
  reflexivity.
Defined.

End SlmFacts.

(** ** PSF and measurement conditioning *)

Module IoFacts.

Import Io.
Local Open Scope R_scope.

Lemma Rsum_app l k : Rsum (l ++ k) = Rsum l + Rsum k.
Proof. induction l as [|x l IH]; simpl; [lra|]. rewrite IH. lra. Qed.

Lemma sumsq_nonneg l : 0 <= sumsq l.
Proof. induction l as [|x l IH]; unfold sumsq in *; simpl; [lra|]. nra. Qed.

Lemma sumsq_zero l : sumsq l = 0 → Forall (λ x, x = 0) l.
Proof.
  induction l as [|x l IH]; unfold sumsq in *; simpl; [constructor|].
  intros H. pose proof (sumsq_nonneg l) as Hl. unfold sumsq in Hl.
  assert (x * x = 0) by nra. constructor; [nra|]. apply IH. nra.
Qed.

Lemma norm_nonneg l : 0 <= norm l.
Proof. apply sqrt_pos. Qed.

Lemma norm_zero l : norm l = 0 ↔ Forall (λ x, x = 0) l.
Proof.
  unfold norm. fold (sumsq l). split.
  - intros H. apply sumsq_zero. apply sqrt_eq_0; [apply sumsq_nonneg|done].
  - intros H. replace (sumsq l) with 0; [apply sqrt_0|].
    induction H as [|x l -> _ IH]; unfold sumsq in *; simpl; [done|]. rewrite <- IH. lra.
Qed.

Lemma sumsq_div l n : n ≠ 0 → sumsq (map (λ x, x / n) l) = sumsq l / (n * n).
Proof.
  intros Hn. induction l as [|x l IH]; unfold sumsq in *; simpl.
  - field. done.
  - rewrite IH. field. done.
Qed.

Lemma norm_div l n : 0 < n → norm (map (λ x, x / n) l) = norm l / n.
Proof.
  intros Hn. unfold norm. fold (sumsq (map (λ x, x / n) l)). fold (sumsq l).
  rewrite sumsq_div by lra.
  rewrite sqrt_div_alt by nra. by rewrite sqrt_square by lra.
Qed.

Lemma norm_normalized l : norm l ≠ 0 → norm (map (λ x, x / norm l) l) = 1.
Proof.
  intros Hn. pose proof (norm_nonneg l). rewrite norm_div by lra. by field.
Qed.

Lemma concat_fmap {A B} (f : A → B) (ls : list (list A)) :
  concat (map (map f) ls) = map f (concat ls).
Proof. symmetry. apply concat_map. Qed.

Lemma flat4_map4 f (a : arr4) : flat4 (map4 f a) = map f (flat4 a).
Proof.
  unfold flat4, map4. by rewrite <- !concat_fmap.
Qed.

Lemma flat3_map3 f (a : arr3) : flat3 (map (map (map f)) a) = map f (flat3 a).
Proof. unfold flat3. by rewrite <- !concat_fmap. Qed.

Lemma fold_left_Rmax_ge l : ∀ a x, (x = a ∨ x ∈ l) → x <= fold_left Rmax l a.
Proof.
  induction l as [|b l IH]; intros a x Hx; simpl.
  - destruct Hx as [->|Hx]; [lra|]. by apply elem_of_nil in Hx.
  - destruct Hx as [->|Hx].
    + eapply Rle_trans; [apply (Rmax_l a b)|]. apply IH. by left.
    + apply elem_of_cons in Hx as [->|Hx].
      * eapply Rle_trans; [apply (Rmax_r a b)|]. apply IH. by left.
      * apply IH. by right.
Qed.

Lemma list_Rmax_ge l mx x : list_Rmax l = Some mx → x ∈ l → x <= mx.
Proof.
  destruct l as [|a l]; [done|]. simpl. intros [= <-] Hx.
  apply fold_left_Rmax_ge. apply elem_of_cons in Hx. tauto.
Qed.

Lemma fold_left_Rmax_all (P : R → Prop) l : ∀ a,
  P a → Forall P l → P (fold_left Rmax l a).
Proof.
  induction l as [|b l IH]; intros a Ha Hl; simpl; [done|].
  apply Forall_cons in Hl as [Hb Hl]. apply IH; [|done].
  unfold Rmax. by destruct (Rle_dec a b).
Qed.

Lemma list_Rmax_all (P : R → Prop) l mx : Forall P l → list_Rmax l = Some mx → P mx.
Proof.
  destruct l as [|a l]; [done|]. intros Hl [= <-].
  apply Forall_cons in Hl as [Ha Hl]. by apply fold_left_Rmax_all.
Qed.

Lemma list_Rmax_is_Some l : l ≠ [] → is_Some (list_Rmax l).
Proof. destruct l; [done|]. intros _. simpl. eauto. Qed.

Lemma clip_nonneg mx x : 0 <= mx → 0 <= clip 0 mx x.
Proof.
  intros H. unfold clip. apply Rmin_glb; [|done]. apply Rmax_r.
Qed.

Lemma clip_id mx x : 0 <= x → x <= mx → clip 0 mx x = x.
Proof.
  intros H0 Hx. unfold clip. rewrite Rmax_left by done. by rewrite Rmin_left.
Qed.

Lemma Rsum_le_const l c : Forall (λ x, x < c) l → l ≠ [] → Rsum l < INR (length l) * c.
Proof.
  intros H. induction H as [|x l Hx Hl IH]; [done|]. intros _.
  change (Rsum (x :: l)) with (x + Rsum l). rewrite length_cons, S_INR.
  destruct l as [|y l]; [simpl; lra|].
  assert (Rsum (y :: l) < INR (length (y :: l)) * c) by (by apply IH). lra.
Qed.

Lemma mean_attained l m : mean l = Some m → ∃ x, x ∈ l ∧ m <= x.
Proof.
  intros H. destruct l as [|y l]; [done|]. injection H as <-.
  set (k := y :: l). set (m := Rsum k / INR (length k)).
  assert (Hlen : 0 < INR (length k)) by (apply lt_0_INR; simpl; lia).
  destruct (Forall_Exists_dec (λ x, x < m) (λ x, ¬ x < m) (λ x, Rlt_dec x m) k) as [Hall | Hex].
  - exfalso. apply Rsum_le_const in Hall; [|done].
    unfold m in Hall. replace (INR (length k) * (Rsum k / INR (length k))) with (Rsum k) in Hall.
    + lra.
    + field. lra.
  - apply Exists_exists in Hex as (x & Hx & Hnlt). exists x. split; [done|]. change (m <= x). clearbody m. lra.
Qed.

Lemma Rsum_const l c : Forall (λ x, x = c) l → Rsum l = INR (length l) * c.
Proof.
  intros H. induction H as [|x k -> _ IH]; [simpl; lra|].
  rewrite length_cons, S_INR. simpl. rewrite IH. lra.
Qed.

Lemma mean_const l c : Forall (λ x, x = c) l → l ≠ [] → mean l = Some c.
Proof.
  intros H Hne. destruct l as [|y l]; [done|]. unfold mean. f_equal.
  rewrite (Rsum_const _ c H). field. apply not_0_INR. simpl. lia.
Qed.

Lemma flat4_pixels a : flat4 a = concat (pixels a).
Proof. done. Qed.

Lemma elem_of_flat4 (a : arr4) x : x ∈ flat4 a ↔ ∃ px, x ∈ px ∧ px ∈ pixels a.
Proof. rewrite flat4_pixels. apply elem_of_concat. Qed.

Lemma py_take_subseteq {A} (l : list A) a b : py_take l a b ⊆ l.
Proof.
  unfold py_take. destruct (py_slice (length l) a b) as [lo len].
  etrans; [apply subseteq_take|apply subseteq_drop].
Qed.

Lemma region_pixels (p : arr4) a b px : px ∈ pixels (region p a b) → px ∈ pixels p.
Proof.
  unfold pixels, region. intros H.
  apply elem_of_concat in H as (row & Hpx & H).
  apply elem_of_concat in H as (slice' & Hrow & H).
  apply list_elem_of_fmap in H as (slice & -> & Hslice).
  apply list_elem_of_fmap in Hrow as (row0 & -> & Hrow0).
  apply py_take_subseteq in Hpx. apply py_take_subseteq in Hrow0.
  apply elem_of_concat. exists row0. split; [done|].
  apply elem_of_concat. by exists slice.
Qed.

Lemma region_flat4 (p : arr4) a b x : x ∈ flat4 (region p a b) → x ∈ flat4 p.
Proof.
  rewrite !elem_of_flat4. intros (px & Hx & Hpx). exists px. split; [done|].
  by eapply region_pixels.
Qed.

Lemma mapM_elem_of {A B} (f : A → option B) l k y :
  mapM f l = Some k → y ∈ k → ∃ x, x ∈ l ∧ f x = Some y.
Proof.
  intros H Hy. apply mapM_Some_1 in H.
  apply list_elem_of_lookup in Hy as [i Hi].
  destruct (Forall2_lookup_r _ _ _ _ _ H Hi) as (x & Hx & Hf).
  exists x. split; [by eapply list_elem_of_lookup_2|done].
Qed.

Lemma channel_elem_of i (r : arr4) reg x :
  channel i r = Some reg → x ∈ flat3 reg → ∃ px, px ∈ pixels r ∧ px !! i = Some x.
Proof.
  unfold channel, flat3, pixels. intros H Hx.
  apply elem_of_concat in Hx as (row' & Hx & Hrow').
  apply elem_of_concat in Hrow' as (slice' & Hrow' & Hslice').
  destruct (mapM_elem_of _ _ _ _ H Hslice') as (slice & Hslice & H1).
  destruct (mapM_elem_of _ _ _ _ H1 Hrow') as (row & Hrow & H2).
  destruct (mapM_elem_of _ _ _ _ H2 Hx) as (px & Hpx & H3).
  exists px. split; [|done].
  apply elem_of_concat. exists row. split; [done|].
  apply elem_of_concat. by exists slice.
Qed.

Lemma sub_channel_pixels i b (p : arr4) px :
  px ∈ pixels p → alter (λ x, x - b) i px ∈ pixels (sub_channel i b p).
Proof.
  unfold pixels, sub_channel. intros H.
  apply elem_of_concat in H as (row & Hpx & H).
  apply elem_of_concat in H as (slice & Hrow & Hslice).
  apply elem_of_concat. exists (map (alter (λ x, x - b) i) row).
  split; [by apply list_elem_of_fmap_2|].
  apply elem_of_concat. exists (map (map (alter (λ x, x - b) i)) slice).
  split; by apply list_elem_of_fmap_2.
Qed.

(** After the subtraction of the mean of a non-empty part of the array, the
    array has an entry that is not negative. *)
Lemma gray_subtracted_max (p : arr4) a b bg mx :
  mean (flat4 (region p a b)) = Some bg →
  list_Rmax (flat4 (map4 (λ x, x - bg) p)) = Some mx → 0 <= mx.
Proof.
  intros Hbg Hmx. apply mean_attained in Hbg as (x & Hx & Hle).
  apply region_flat4 in Hx.
  apply Rle_trans with (x - bg); [lra|].
  eapply list_Rmax_ge; [exact Hmx|]. rewrite flat4_map4.
  by apply (list_elem_of_fmap_2 (λ x, x - bg)).
Qed.

Lemma rgb_step_entry i (p : arr4) a b reg bg :
  channel i (region p a b) = Some reg → mean (flat3 reg) = Some bg →
  ∃ x, x ∈ flat4 (sub_channel i bg p) ∧ 0 <= x.
Proof.
  intros Hreg Hbg. apply mean_attained in Hbg as (x & Hx & Hle).
  destruct (channel_elem_of _ _ _ _ Hreg Hx) as (px & Hpx & Hi).
  apply region_pixels in Hpx.
  exists (x - bg). split; [|lra].
  apply elem_of_flat4. exists (alter (λ x, x - bg) i px).
  split; [|by apply sub_channel_pixels].
  eapply list_elem_of_lookup_2. rewrite list_lookup_alter_eq, Hi. done.
Qed.

Lemma subtract_rgb_max a b (p p' : arr4) bg mx :
  subtract_rgb a b [0; 1; 2]%nat p false [] = Ok (p', false, bg) →
  list_Rmax (flat4 p') = Some mx → 0 <= mx.
Proof.
  simpl. intros H Hmx.
  apply bind_Ok in H as (r0 & Hr0 & H). apply from_option_Ok in Hr0.
  destruct (mean (flat3 r0)) as [b0|] eqn:Hb0.
  2:{ apply bind_Ok in H as (r1 & _ & H). destruct (mean (flat3 r1)).
      - apply bind_Ok in H as (r2 & _ & H). by destruct (mean (flat3 r2)).
      - apply bind_Ok in H as (r2 & _ & H). by destruct (mean (flat3 r2)). }
  apply bind_Ok in H as (r1 & Hr1 & H). apply from_option_Ok in Hr1.
  destruct (mean (flat3 r1)) as [b1|] eqn:Hb1.
  2:{ apply bind_Ok in H as (r2 & _ & H). by destruct (mean (flat3 r2)). }
  apply bind_Ok in H as (r2 & Hr2 & H). apply from_option_Ok in Hr2.
  destruct (mean (flat3 r2)) as [b2|] eqn:Hb2; [|done].
  injection H as <- _.
  destruct (rgb_step_entry _ _ _ _ _ _ Hr2 Hb2) as (x & Hx & H0).
  apply Rle_trans with x; [done|]. by eapply list_Rmax_ge.
Qed.

Lemma subtract_background_nonneg g a b (p : arr4) q bg :
  subtract_background g (Some (a, b)) p = Ok (q, bg) →
  is_nan q = false → nonneg (flat4 (values q)).
Proof.
  unfold subtract_background. intros H Hnan.
  apply bind_Ok in H as ([[p' nan] bg'] & Hsub & H).
  apply bind_Ok in H as (mx & Hmx & H). apply from_option_Ok in Hmx.
  injection H as <- <-. simpl in *. subst nan.
  assert (0 <= mx).
  { destruct g.
    - destruct (mean (flat4 (region p a b))) as [m|] eqn:Hm; [|done].
      injection Hsub as <- <-. exact (gray_subtracted_max _ _ _ _ _ Hm Hmx).
    - apply bind_Ok in Hsub as ([[p'' nan] bgl] & Hrgb & Hsub).
      injection Hsub as -> -> <-. exact (subtract_rgb_max _ _ _ _ _ _ Hrgb Hmx). }
  unfold nonneg. rewrite flat4_map4. apply Forall_map, Forall_forall.
  intros x _. by apply clip_nonneg.
Qed.

Lemma concat_singletons {A} (l : list A) : concat (map (λ x, [x]) l) = l.
Proof. induction l as [|x l IH]; simpl; congruence. Qed.

Lemma concat_concat_singletons {A} (a : list (list A)) :
  concat (concat (map (map (λ x, [x])) a)) = concat a.
Proof.
  induction a as [|row a IH]; simpl; [done|].
  by rewrite concat_app, concat_singletons, IH.
Qed.

Lemma canonical_flat use_3d psf g p :
  canonical use_3d psf = Ok (g, p) → flat4 p = nd_flat psf.
Proof.
  unfold canonical. intros H. apply bind_Ok in H as ([g' p'] & H & H').
  apply bind_Ok in H' as ([] & _ & H'). injection H' as -> ->.
  unfold flat4, flat3.
  destruct use_3d, psf as [a|a|a]; simplify_eq; simpl; rewrite ?app_nil_r.
  all: try done.
  - rewrite concat_fmap. apply concat_concat_singletons.
  - apply concat_concat_singletons.
Qed.

Lemma Rsum_nonneg l : nonneg l → 0 <= Rsum l.
Proof. intros H. induction H as [|x l Hx _ IH]; simpl; lra. Qed.

Lemma nonneg_concat (ls : list (list R)) : nonneg (concat ls) ↔ Forall nonneg ls.
Proof.
  unfold nonneg. induction ls as [|l ls IH]; simpl.
  - split; constructor.
  - rewrite Forall_app, Forall_cons. by rewrite IH.
Qed.

Lemma flat4_sum_channels (p : arr4) : flat4 (sum_channels p) = map Rsum (pixels p).
Proof.
  unfold flat4, sum_channels, pixels. rewrite !concat_fmap.
  induction (concat (concat p)) as [|px l IH]; simpl; congruence.
Qed.

Lemma sum_channels_nonneg (p : arr4) : nonneg (flat4 p) → nonneg (flat4 (sum_channels p)).
Proof.
  rewrite flat4_sum_channels, flat4_pixels, nonneg_concat. intros H.
  unfold nonneg. apply Forall_map. eapply Forall_impl; [exact H|].
  intros px Hpx. by apply Rsum_nonneg.
Qed.

Lemma normalize_finite (a : farray) :
  is_nan a = false → norm (flat4 (values a)) ≠ 0 →
  normalize a = {| is_nan := false;
                   values := map4 (λ x, x / norm (flat4 (values a))) (values a) |}.
Proof.
  intros Hnan Hn. unfold normalize. rewrite Hnan.
  by destruct (Req_dec_T (norm (flat4 (values a))) 0).
Qed.

Lemma normalize_degenerate (a : farray) :
  norm (flat4 (values a)) = 0 → is_nan (normalize a) = true.
Proof.
  intros Hn. unfold normalize. destruct (is_nan a) eqn:E; [done|].
  by destruct (Req_dec_T (norm (flat4 (values a))) 0).
Qed.

Lemma normalized_unit (a : arr4) :
  norm (flat4 a) ≠ 0 → norm (flat4 (map4 (λ x, x / norm (flat4 a)) a)) = 1.
Proof. intros H. rewrite flat4_map4. by apply norm_normalized. Qed.

Lemma normalized_nonneg (a : arr4) :
  nonneg (flat4 a) → nonneg (flat4 (map4 (λ x, x / norm (flat4 a)) a)).
Proof.
  intros H. rewrite flat4_map4. unfold nonneg in *. apply Forall_map.
  eapply Forall_impl; [exact H|]. intros x Hx. simpl.
  pose proof (norm_nonneg (flat4 a)) as Hn.
  destruct (Req_dec_T (norm (flat4 a)) 0) as [-> | Hne].
  - unfold Rdiv. rewrite Rinv_0. lra.
  - apply Rmult_le_pos; [done|]. apply Rlt_le, Rinv_0_lt_compat. lra.
Qed.

Section ConditioningNorm.

Variable resize : arr4 → option (list nat) → option R → arr4.
Variable astype_original : arr4 → arr4.
Variable rgb2gray : arr4 → arr4.

Local Abbreviation pre_normalised := (pre_normalised resize).
Local Abbreviation load_psf := (load_psf resize astype_original).
Local Abbreviation load_data := (load_data resize astype_original rgb2gray).

Lemma pre_normalised_nonneg psf downsample bg_pix single_psf shape use_3d q bg :
  (∀ a s f, nonneg (flat4 a) → nonneg (flat4 (resize a s f))) →
  is_Some bg_pix ∨ nonneg (nd_flat psf) →
  pre_normalised psf downsample bg_pix single_psf shape use_3d = Ok (q, bg) →
  is_nan q = false →
  nonneg (flat4 (values q)).
Proof.
  intros Hres Hin H Hnan. unfold Io.pre_normalised in H.
  apply bind_Ok in H as ([g p] & Hcan & H).
  apply bind_Ok in H as ([q0 bg0] & Hsub & H).
  apply bind_Ok in H as (factor & _ & H). injection H as <- <-. simpl in *.
  assert (H0 : nonneg (flat4 (values q0))).
  { destruct bg_pix as [[a b]|].
    - by eapply subtract_background_nonneg.
    - destruct Hin as [[? [=]]|Hin]. injection Hsub as <- _. simpl.
      by rewrite (canonical_flat _ _ _ _ Hcan). }
  destruct (_ && _); [apply sum_channels_nonneg|]; by apply Hres.
Qed.

(** C1, in the form that holds of the code: whenever the array that is left after background
    subtraction, clipping and resizing (and channel summation, if asked for)
    has non-zero energy, [load_psf] with [return_float=True] returns an array
    of Euclidean norm 1 (exactly, in real arithmetic) whose entries are all
    non-negative; the background step must be enabled, or the raw PSF
    non-negative, and the resampling must not create negative values. *)
Theorem conditioned_psf_unit_norm psf downsample bg_pix single_psf shape use_3d q bg :
  (∀ a s f, nonneg (flat4 a) → nonneg (flat4 (resize a s f))) →
  is_Some bg_pix ∨ nonneg (nd_flat psf) →
  pre_normalised psf downsample bg_pix single_psf shape use_3d = Ok (q, bg) →
  is_nan q = false →
  norm (flat4 (values q)) ≠ 0 →
  ∃ out,
    load_psf psf downsample true bg_pix single_psf shape use_3d
      = Ok ({| is_nan := false; values := out |}, bg) ∧
    norm (flat4 out) = 1 ∧
    nonneg (flat4 out).
Proof.
  intros Hres Hin Hpre Hnan Hn.
  exists (map4 (λ x, x / norm (flat4 (values q))) (values q)). split; [|split].
  - unfold Io.load_psf. rewrite Hpre. simpl. by rewrite normalize_finite.
  - by apply normalized_unit.
  - apply normalized_nonneg. by eapply pre_normalised_nonneg.
Qed.

End ConditioningNorm.

Lemma map4_id_in f (a : arr4) : (∀ x, x ∈ flat4 a → f x = x) → map4 f a = a.
Proof.
  intros H. unfold map4. rewrite <- (map_id a) at 2. apply map_ext_in. intros s Hs.
  rewrite <- (map_id s) at 2. apply map_ext_in. intros row Hrow.
  rewrite <- (map_id row) at 2. apply map_ext_in. intros px Hpx.
  rewrite <- (map_id px) at 2. apply map_ext_in. intros x Hx. apply H.
  apply elem_of_flat4. exists px. split; [by apply list_elem_of_In|].
  apply elem_of_concat. exists row. split; [by apply list_elem_of_In|].
  apply elem_of_concat. exists s. split; by apply list_elem_of_In.
Qed.

Lemma sub_channel_zero i (p : arr4) : sub_channel i 0 p = p.
Proof.
  unfold sub_channel. rewrite <- (map_id p) at 2. apply map_ext. intros s.
  rewrite <- (map_id s) at 2. apply map_ext. intros row.
  rewrite <- (map_id row) at 2. apply map_ext. intros px.
  apply list_alter_id. intros x. lra.
Qed.

Lemma inv_downsample_one : inv_downsample (Some 1) = Ok 1.
Proof.
  unfold inv_downsample. destruct (Req_dec_T 1 0) as [E|_]; [lra|]. f_equal. lra.
Qed.

Lemma canonical_gray2 (a : list (list R)) :
  canonical false (Arr2 a) = Ok (true, [map (map (λ x, [x])) a]).
Proof.
  unfold canonical. simpl. rewrite bool_decide_eq_true_2 by done. done.
Qed.

Lemma norm_nonzero_nonempty l : norm l ≠ 0 → l ≠ [].
Proof. intros H ->. apply H. unfold norm. simpl. apply sqrt_0. Qed.

Section ConditioningIdempotent.

Variable resize : arr4 → option (list nat) → option R → arr4.
Variable astype_original : arr4 → arr4.
Variable rgb2gray : arr4 → arr4.

Local Abbreviation pre_normalised := (pre_normalised resize).
Local Abbreviation load_psf := (load_psf resize astype_original).
Local Abbreviation load_data := (load_data resize astype_original rgb2gray).

Lemma pre_normalised_eq psf downsample bg_pix single_psf shape use_3d g p q0 bg factor :
  canonical use_3d psf = Ok (g, p) →
  subtract_background g bg_pix p = Ok (q0, bg) →
  inv_downsample downsample = Ok factor →
  pre_normalised psf downsample bg_pix single_psf shape use_3d =
    Ok ({| is_nan := is_nan q0;
           values :=
             let resized := resize (values q0) shape (Some factor) in
             if single_psf && (1 <? length (hd [] (hd [] (hd [] resized))))%nat
             then sum_channels resized else resized |}, bg).
Proof.
  intros Hcan Hsub Hinv. unfold Io.pre_normalised.
  rewrite Hcan. cbn [mbind result_bind]. rewrite Hsub. cbn [mbind result_bind].
  rewrite Hinv. reflexivity.
Qed.

Lemma load_psf_float psf downsample bg_pix single_psf shape use_3d q bg :
  pre_normalised psf downsample bg_pix single_psf shape use_3d = Ok (q, bg) →
  load_psf psf downsample true bg_pix single_psf shape use_3d = Ok (normalize q, bg).
Proof. intros H. unfold Io.load_psf. by rewrite H. Qed.

Lemma subtract_background_conditioned g bg_pix (p : arr4) :
  background_zero g bg_pix p → nonneg (flat4 p) → flat4 p ≠ [] →
  ∃ bg, subtract_background g bg_pix p = Ok ({| is_nan := false; values := p |}, bg).
Proof.
  intros Hbg H0 Hne. unfold subtract_background.
  destruct bg_pix as [[a b]|]; [|eauto]. simpl in Hbg.
  destruct (list_Rmax_is_Some _ Hne) as [mx Hmx].
  assert (Hclip : map4 (clip 0 mx) p = p).
  { apply map4_id_in. intros x Hx. apply clip_id.
    - unfold nonneg in H0. rewrite Forall_forall in H0. by apply H0.
    - by eapply list_Rmax_ge. }
  destruct g.
  - rewrite Hbg. simpl. rewrite (map4_id_in (λ x, x - 0)) by (intros; lra).
    rewrite Hmx. simpl. rewrite Hclip. eauto.
  - simpl.
    destruct (Hbg 0%nat) as (r0 & E0 & M0); [lia|].
    rewrite E0. simpl. rewrite M0. rewrite sub_channel_zero.
    destruct (Hbg 1%nat) as (r1 & E1 & M1); [lia|].
    rewrite E1. simpl. rewrite M1. rewrite sub_channel_zero.
    destruct (Hbg 2%nat) as (r2 & E2 & M2); [lia|].
    rewrite E2. simpl. rewrite M2. rewrite sub_channel_zero.
    simpl. rewrite Hmx. simpl. rewrite Hclip. eauto.
Qed.

(** C6: conditioning is idempotent.  For a PSF that, in canonical layout,
    has a background region of mean zero, no negative entry and Euclidean
    norm 1, [load_psf] (downsampling factor 1, no channel summation, a
    resampling that leaves arrays unchanged at factor 1) returns that very
    array. *)
Theorem conditioning_idempotent psf bg_pix use_3d g p :
  (∀ a, resize a None (Some 1) = a) →
  canonical use_3d psf = Ok (g, p) →
  background_zero g bg_pix p →
  nonneg (flat4 p) →
  norm (flat4 p) = 1 →
  ∃ bg, load_psf psf (Some 1) true bg_pix false None use_3d
          = Ok ({| is_nan := false; values := p |}, bg).
Proof.
  intros Hres Hcan Hbg H0 Hn.
  assert (Hne : flat4 p ≠ []) by (apply norm_nonzero_nonempty; lra).
  destruct (subtract_background_conditioned _ _ _ Hbg H0 Hne) as [bg Hsub].
  exists bg.
  rewrite (load_psf_float _ _ _ _ _ _ _ _
             (pre_normalised_eq _ _ _ _ _ _ _ _ _ _ _ Hcan Hsub inv_downsample_one)).
  cbn [andb values is_nan]. rewrite Hres.
  rewrite normalize_finite by (simpl; lra). cbn [values]. rewrite Hn.
  by rewrite (map4_id_in (λ x, x / 1)) by (intros; lra).
Qed.

End ConditioningIdempotent.

Lemma conditioning_idempotent_witness :
  ∃ bg, load_psf resize_nearest (λ a, a) unit_image (Some 1) true (Some (0, 1)%Z) false None false
          = Ok ({| is_nan := false; values := [[[[0]; [0]]; [[0]; [1]]]] |}, bg).
Proof.
  apply (conditioning_idempotent resize_nearest (λ a, a) unit_image (Some (0, 1)%Z) false true).
  - done.
  - apply canonical_gray2.
  - simpl. unfold mean. simpl. f_equal. lra.
  - unfold nonneg. simpl. repeat constructor; lra.
  - unfold norm. simpl. replace (0 * 0 + (0 * 0 + (0 * 0 + (1 * 1 + 0)))) with 1 by lra.
    apply sqrt_1.
Defined.

Lemma resample_elem_of {A} (d : A) n l x : x ∈ resample d n l → x ∈ l ∨ x = d.
Proof.
  unfold resample. intros H. apply list_elem_of_fmap in H as (i & -> & _).
  destruct (nth_in_or_default (i * length l / n) l d) as [Hin | ->]; [left|by right].
  by apply list_elem_of_In.
Qed.

Lemma resize_nearest_pixels (a : arr4) s f px :
  px ∈ pixels (resize_nearest a s f) → px ∈ pixels a ∨ px = [].
Proof.
  unfold resize_nearest.
  destruct s as [[|s0 [|h [|w [|s3 [|]]]]]|]; try by left.
  unfold pixels. intros H.
  apply elem_of_concat in H as (row' & Hpx & H).
  apply elem_of_concat in H as (slice' & Hrow' & H).
  apply list_elem_of_fmap in H as (slice & -> & Hslice).
  apply list_elem_of_fmap in Hrow' as (row & -> & Hrow).
  apply resample_elem_of in Hpx as [Hpx | ->]; [|by right].
  apply resample_elem_of in Hrow as [Hrow | ->]; [|by apply elem_of_nil in Hpx].
  left. apply elem_of_concat. exists row. split; [done|].
  apply elem_of_concat. by exists slice.
Qed.

Lemma resize_nearest_nonneg (a : arr4) s f :
  nonneg (flat4 a) → nonneg (flat4 (resize_nearest a s f)).
Proof.
  rewrite !flat4_pixels, !nonneg_concat, !Forall_forall. intros H px Hpx.
  apply resize_nearest_pixels in Hpx as [Hpx | ->]; [by apply H|constructor].
Qed.

Lemma conditioned_psf_unit_norm_witness :
  ∃ bg out,
    load_psf resize_nearest (λ a, a) unit_image (Some 1) true (Some (0, 1)%Z) false None false
      = Ok ({| is_nan := false; values := out |}, bg) ∧
    norm (flat4 out) = 1 ∧ nonneg (flat4 out).
Proof.
  assert (Hn : norm [0; 0; 0; 1] = 1).
  { unfold norm. simpl. replace (0 * 0 + (0 * 0 + (0 * 0 + (1 * 1 + 0)))) with 1 by lra.
    apply sqrt_1. }
  assert (H0 : nonneg [0; 0; 0; 1]) by (repeat constructor; lra).
  destruct (subtract_background_conditioned true (Some (0, 1)%Z) [[[[0]; [0]]; [[0]; [1]]]])
    as [bg Hsub].
  { simpl. unfold mean. simpl. f_equal. lra. }
  { exact H0. }
  { done. }
  exists bg.
  apply (conditioned_psf_unit_norm resize_nearest (λ a, a) unit_image (Some 1)
           (Some (0, 1)%Z) false None false
           {| is_nan := false; values := [[[[0]; [0]]; [[0]; [1]]]] |} bg).
  - apply resize_nearest_nonneg.
  - left. eauto.
  - by rewrite (pre_normalised_eq _ _ _ _ _ _ _ _ _ _ _ _
                  (canonical_gray2 [[0; 0]; [0; 1]]) Hsub inv_downsample_one).
  - done.
  - change (norm [0; 0; 0; 1] ≠ 0). lra.
Defined.

(** An image of constant value has non-zero energy, but nothing is left of
    it once its background level is subtracted. *)
Lemma constant_image_degenerate (img : list (list R)) c a b :
  Forall (λ x, x = c) (concat img) →
  flat4 (region [map (map (λ x, [x])) img] a b) ≠ [] →
  ∃ v bg,
    load_psf resize_nearest (λ a, a) (Arr2 img) (Some 1) true (Some (a, b)) false None false
      = Ok ({| is_nan := true; values := v |}, bg).
Proof.
  intros Hc Hne.
  set (p := [map (map (λ x, [x])) img]).
  assert (Hp : Forall (λ x, x = c) (flat4 p)).
  { by rewrite (canonical_flat false (Arr2 img) true p (canonical_gray2 img)). }
  assert (Hbg : mean (flat4 (region p a b)) = Some c).
  { apply mean_const; [|done]. rewrite Forall_forall in *. intros x Hx.
    by apply Hp, (region_flat4 p a b). }
  assert (Hz : Forall (λ x, x = 0) (flat4 (map4 (λ x, x - c) p))).
  { rewrite flat4_map4. apply Forall_map. eapply Forall_impl; [exact Hp|].
    intros x ->. simpl. lra. }
  destruct (list_Rmax_is_Some (flat4 (map4 (λ x, x - c) p))) as [mx Hmx].
  { intros E. apply Hne. rewrite flat4_map4 in E. apply map_eq_nil in E.
    destruct (flat4 (region p a b)) as [|x l] eqn:Er; [done|].
    assert (Hx : x ∈ flat4 p) by (apply (region_flat4 p a b); rewrite Er; left).
    rewrite E in Hx. by apply elem_of_nil in Hx. }
  assert (Hmx0 : mx = 0) by exact (list_Rmax_all (λ x, x = 0) _ _ Hz Hmx).
  assert (Hsub : subtract_background true (Some (a, b)) p
                 = Ok ({| is_nan := false; values := map4 (clip 0 mx) (map4 (λ x, x - c) p) |},
                       {| bg_nan := false; bg_val := BgScalar c |})).
  { unfold subtract_background. rewrite Hbg. cbn [mbind result_bind].
    rewrite Hmx. reflexivity. }
  eexists _, _.
  rewrite (load_psf_float _ _ _ _ _ _ _ _ _ _
             (pre_normalised_eq _ _ _ _ _ _ _ _ _ _ _ _ (canonical_gray2 img) Hsub
                inv_downsample_one)).
  cbn [andb values is_nan resize_nearest].
  unfold normalize. cbn [is_nan values].
  destruct (Req_dec_T _ 0) as [_|Hn]; [reflexivity|].
  exfalso. apply Hn. apply norm_zero. rewrite flat4_map4. apply Forall_map.
  eapply Forall_impl; [exact Hz|]. intros x ->. simpl. subst mx.
  unfold clip. rewrite Rmax_left by lra. by rewrite Rmin_left by lra.
Qed.

(** C1 fails as stated: the 30 x 30 image of constant value 7 has non-zero
    energy, yet [load_psf] with its default background region returns an
    array of NaN, which has neither norm 1 nor non-negative entries. *)
Lemma constant_psf_is_NaN :
  norm (nd_flat flat_image) ≠ 0 ∧
  ∃ v bg,
    load_psf resize_nearest (λ a, a) flat_image (Some 1) true (Some (5, 25)%Z) false None false
      = Ok ({| is_nan := true; values := v |}, bg).
Proof.
  split.
  - intros H. apply norm_zero in H. simpl in H. apply Forall_inv in H. lra.
  - apply (constant_image_degenerate _ 7).
    + apply Forall_forall. intros x Hx. apply elem_of_concat in Hx as (row & Hx & Hrow).
      apply elem_of_replicate in Hrow as [-> _]. by apply elem_of_replicate in Hx as [-> _].
    + intros E. apply (f_equal length) in E. vm_compute in E. discriminate.
Qed.







Lemma norm_nonzero_entry l v : v ∈ l → v ≠ 0 → norm l ≠ 0.
Proof.
  intros Hv Hne H. apply norm_zero in H. rewrite Forall_forall in H. by apply Hne, H.
Qed.



Section ConditioningData.

Variable resize : arr4 → option (list nat) → option R → arr4.
Variable astype_original : arr4 → arr4.
Variable rgb2gray : arr4 → arr4.

Local Abbreviation pre_normalised := (pre_normalised resize).
Local Abbreviation load_psf := (load_psf resize astype_original).
Local Abbreviation conditioned_data := (conditioned_data resize).
Local Abbreviation load_data := (load_data resize astype_original rgb2gray).




End ConditioningData.




(** ** Errors of [load_data] *)

Lemma mapM_Raise {A B} (f : A → result B) l :
  Forall (λ x, ∀ e, f x = Raise e → e = ValueError) l →
  Exists (λ x, ∃ e, f x = Raise e) l →
  mapM f l = Raise ValueError.
Proof.
  intros Hall Hex. induction Hall as [|x l Hx Hall IH]; [by apply Exists_nil in Hex|].
  simpl. destruct (f x) as [y|e] eqn:Hf; cbn [mbind result_bind].
  - apply Exists_cons in Hex as [[e He]|Hex]; [congruence|].
    by rewrite (IH Hex).
  - by rewrite (Hx e eq_refl).
Qed.

Lemma mapM_Raise_only {A B} (f : A → result B) l e :
  Forall (λ x, ∀ e, f x = Raise e → e = ValueError) l →
  mapM f l = Raise e → e = ValueError.
Proof.
  intros Hall. induction Hall as [|x l Hx Hall IH]; simpl; [done|].
  destruct (f x) as [y|e'] eqn:Hf; cbn [mbind result_bind].
  - destruct (mapM f l) as [k|e'] eqn:Hm; cbn [mbind result_bind]; [done|].
    intros [= <-]. by apply IH.
  - intros [= <-]. by apply Hx.
Qed.

Lemma sub_vec_Raise v px e : sub_vec v px = Raise e → e = ValueError.
Proof.
  unfold sub_vec. destruct v as [|b [|b' v]]; [|done|];
    by destruct (length px =? _)%nat; [|intros [= <-]].
Qed.

Lemma sub_vec_zeros4 px :
  length px ≠ 4%nat → sub_vec [0; 0; 0; 0] px = Raise ValueError.
Proof.
  intros H. unfold sub_vec. apply Nat.eqb_neq in H. simpl length. by rewrite H.
Qed.

Lemma Exists_concat {A} (P : A → Prop) (ls : list (list A)) :
  Exists P (concat ls) → Exists (Exists P) ls.
Proof.
  induction ls as [|l ls IH]; simpl; [by rewrite Exists_nil|].
  rewrite Exists_app. intros [H|H]; [by left|right; by apply IH].
Qed.

Lemma sub_bg_zeros4 (data : ndimage) :
  Exists (λ px, length px ≠ 4%nat) (last_axis data) →
  sub_bg data (BgVec [0; 0; 0; 0]) = Raise ValueError.
Proof.
  set (v := [0; 0; 0; 0]).
  assert (H1 : ∀ l : list (list R), Forall (λ x, ∀ e, sub_vec v x = Raise e → e = ValueError) l).
  { intros l. apply Forall_forall. intros px _ e. apply sub_vec_Raise. }
  assert (E1 : ∀ l : list (list R), Exists (λ px, length px ≠ 4%nat) l →
                 mapM (sub_vec v) l = Raise ValueError).
  { intros l Hl. apply mapM_Raise; [apply H1|].
    eapply Exists_impl; [exact Hl|]. intros px Hpx. exists ValueError.
    by apply sub_vec_zeros4. }
  assert (H2 : ∀ l : list (list (list R)),
            Forall (λ x, ∀ e, mapM (sub_vec v) x = Raise e → e = ValueError) l).
  { intros l. apply Forall_forall. intros row _ e. apply mapM_Raise_only, H1. }
  assert (E2 : ∀ l : list (list (list R)), Exists (Exists (λ px, length px ≠ 4%nat)) l →
                 mapM (mapM (sub_vec v)) l = Raise ValueError).
  { intros l Hl. apply mapM_Raise; [apply H2|].
    eapply Exists_impl; [exact Hl|].
    intros row Hrow. exists ValueError. by apply E1. }
  destruct data as [a|a|a]; simpl; intros Hex.
  - by rewrite (E1 a Hex).
  - apply Exists_concat in Hex. by rewrite (E2 a Hex).
  - assert (E3 : mapM (mapM (mapM (sub_vec v))) a = Raise ValueError).
    { apply mapM_Raise.
      - apply Forall_forall. intros slice _ e. apply mapM_Raise_only, H2.
      - apply Exists_concat in Hex. apply Exists_concat in Hex.
        eapply Exists_impl; [exact Hex|].
        intros slice Hs. exists ValueError. by apply E2. }
    by rewrite E3.
Qed.

Section LoadDataErrors.

Variable resize : arr4 → option (list nat) → option R → arr4.
Variable astype_original : arr4 → arr4.
Variable rgb2gray : arr4 → arr4.

Local Abbreviation pre_normalised := (pre_normalised resize).
Local Abbreviation load_psf := (load_psf resize astype_original).
Local Abbreviation load_data := (load_data resize astype_original rgb2gray).

(** X9: [load_data] cannot be used with its own default [downsample=None]:
    it never returns.  Without a target shape the assertion on [downsample]
    fails; with a target shape the call ends in an exception as well, at
    the latest when [load_psf] computes [1 / downsample]. *)
Theorem load_data_needs_downsample psf data bg_pix gray dtype single_psf shape use_3d :
  ∃ e, load_data psf data None bg_pix gray dtype single_psf shape use_3d = Raise e ∧
       (shape = None → e = AssertionError).
Proof.
  unfold Io.load_data. destruct shape as [s|]; [|by exists AssertionError].
  cbn [mbind result_bind].
  destruct dtype as [d|].
  - destruct (bool_decide _); cbn [mbind result_bind]; [|by exists ValueError].
    unfold Io.load_psf, Io.pre_normalised.
    destruct (canonical use_3d psf) as [[g p]|e]; cbn [mbind result_bind]; [|by exists e].
    destruct (subtract_background g bg_pix p) as [[q bg]|e]; cbn [mbind result_bind];
      [|by exists e].
    by exists TypeError.
  - unfold Io.load_psf, Io.pre_normalised.
    destruct (canonical use_3d psf) as [[g p]|e]; cbn [mbind result_bind]; [|by exists e].
    destruct (subtract_background g bg_pix p) as [[q bg]|e]; cbn [mbind result_bind];
      [|by exists e].
    by exists TypeError.
Qed.

Lemma load_psf_Ok_inv psf downsample return_float bg_pix single_psf shape use_3d q bg :
  load_psf psf downsample return_float bg_pix single_psf shape use_3d = Ok (q, bg) →
  ∃ g p q0 factor,
    canonical use_3d psf = Ok (g, p) ∧
    subtract_background g bg_pix p = Ok (q0, bg) ∧
    inv_downsample downsample = Ok factor.
Proof.
  unfold Io.load_psf, Io.pre_normalised. intros H.
  apply bind_Ok in H as ([q1 bg1] & H & H').
  apply bind_Ok in H as ([g p] & Hcan & H).
  apply bind_Ok in H as ([q0 bg0] & Hsub & H).
  apply bind_Ok in H as (factor & Hf & H). injection H as <- <-.
  exists g, p, q0, factor. repeat split; try done.
  destruct return_float; by injection H' as _ <-.
Qed.

(** X10: switching the background step off ([bg_pix=None]) makes
    [load_data] fail: [load_psf] then returns a background of four zeros
    (one per axis of the PSF), and subtracting it from a measurement with
    a row of any other length along its last axis raises [ValueError]. *)
Theorem load_data_without_background_raises psf data downsample gray dtype single_psf
    shape use_3d q bg :
  load_psf psf downsample true None single_psf shape use_3d = Ok (q, bg) →
  (∀ d, dtype = Some d → d = "float32"%string ∨ d = "float64"%string) →
  Exists (λ px, length px ≠ 4%nat) (last_axis data) →
  bg_val bg = BgVec [0; 0; 0; 0] ∧
  load_data psf data downsample None gray dtype single_psf shape use_3d = Raise ValueError.
Proof.
  intros Hpsf Hd Hex.
  destruct (load_psf_Ok_inv _ _ _ _ _ _ _ _ _ Hpsf) as (g & p & q0 & factor & _ & Hsub & Hf).
  simpl in Hsub. injection Hsub as _ <-. split; [done|].
  unfold Io.load_data.
  assert (Hdown : is_Some downsample) by (destruct downsample; [eauto|done]).
  assert (Hshape : match shape with
                   | None => assert (bool_decide (is_Some downsample))
                   | Some _ => Ok tt
                   end = Ok tt).
  { destruct shape; [done|]. by rewrite bool_decide_eq_true_2. }
  rewrite Hshape. cbn [mbind result_bind].
  assert (Hdt : match dtype with
                | None => Ok tt
                | Some d => if bool_decide (d = "float32"%string ∨ d = "float64"%string)
                            then Ok tt else Raise ValueError
                end = Ok tt).
  { destruct dtype as [d|]; [|done]. by rewrite bool_decide_eq_true_2 by eauto. }
  rewrite Hdt. cbn [mbind result_bind]. rewrite Hpsf. cbn [mbind result_bind].
  unfold conditioned_data. cbn [bg_val]. by rewrite sub_bg_zeros4.
Qed.

End LoadDataErrors.

Lemma load_data_without_background_raises_witness :
  load_data resize_nearest (λ a, a) (λ a, a) unit_image unit_image (Some 1) None false None
    false None false = Raise ValueError.
Proof.
  eapply (load_data_without_background_raises resize_nearest (λ a, a) (λ a, a)
            unit_image unit_image (Some 1) false None false None false).
  - apply load_psf_float. eapply pre_normalised_eq.
    + apply canonical_gray2.
    + reflexivity.
    + apply inv_downsample_one.
  - done.
  - apply Exists_cons_hd. simpl. lia.
Defined.

(** ** Background subtraction and clipping, in closed form *)

Lemma map4_ext_in f g (a : arr4) : (∀ x, x ∈ flat4 a → f x = g x) → map4 f a = map4 g a.
Proof.
  intros H. unfold map4. apply map_ext_in. intros s Hs.
  apply map_ext_in. intros row Hrow. apply map_ext_in. intros px Hpx.
  apply map_ext_in. intros x Hx. apply H.
  apply elem_of_flat4. exists px. split; [by apply list_elem_of_In|].
  apply elem_of_concat. exists row. split; [by apply list_elem_of_In|].
  apply elem_of_concat. exists s. split; by apply list_elem_of_In.
Qed.

Lemma map4_map4 f g (a : arr4) : map4 f (map4 g a) = map4 (λ x, f (g x)) a.
Proof.
  unfold map4. rewrite map_map. apply map_ext. intros s.
  rewrite map_map. apply map_ext. intros row.
  rewrite map_map. apply map_ext. intros px. by rewrite map_map.
Qed.

(** With an upper bound that is not negative, and for an entry that does
    not exceed it, the clip keeps the larger of the entry and zero. *)
Lemma clip_below_max mx y : 0 <= mx → y <= mx → clip 0 mx y = Rmax y 0.
Proof.
  intros H0 Hy. unfold clip. apply Rmin_left. by apply Rmax_lub.
Qed.

Lemma mean_nonempty l m : mean l = Some m → l ≠ [].
Proof. by destruct l. Qed.

Lemma region_nonempty (p : arr4) a b : flat4 (region p a b) ≠ [] → flat4 p ≠ [].
Proof.
  intros H Hp. destruct (flat4 (region p a b)) as [|x l] eqn:E; [done|].
  assert (Hx : x ∈ flat4 (region p a b)) by (rewrite E; left).
  apply region_flat4 in Hx. rewrite Hp in Hx. by apply elem_of_nil in Hx.
Qed.

Lemma subtract_background_gray (p : arr4) a b m :
  mean (flat4 (region p a b)) = Some m →
  subtract_background true (Some (a, b)) p =
    Ok ({| is_nan := false; values := map4 (λ x, Rmax (x - m) 0) p |},
        {| bg_nan := false; bg_val := BgScalar m |}).
Proof.
  intros Hm. unfold subtract_background. rewrite Hm. cbn [mbind result_bind].
  assert (Hne : flat4 (map4 (λ x, x - m) p) ≠ []).
  { rewrite flat4_map4. intros E. apply fmap_nil_inv in E.
    by apply (region_nonempty p a b (mean_nonempty _ _ Hm)). }
  destruct (list_Rmax_is_Some _ Hne) as [mx Hmx]. rewrite Hmx. cbn [from_option mbind result_bind].
  pose proof (gray_subtracted_max _ _ _ _ _ Hm Hmx) as H0.
  rewrite map4_map4. do 3 f_equal. apply map4_ext_in. intros x Hx.
  apply clip_below_max; [done|]. eapply list_Rmax_ge; [exact Hmx|].
  rewrite flat4_map4. by apply (list_elem_of_fmap_2 (λ x, x - m)).
Qed.

Lemma inv_downsample_Some d : d ≠ 0 → inv_downsample (Some d) = Ok (1 / d).
Proof. intros H. unfold inv_downsample. by destruct (Req_dec_T d 0). Qed.

Section ClosedForm.

Variable resize : arr4 → option (list nat) → option R → arr4.
Variable astype_original : arr4 → arr4.
Variable rgb2gray : arr4 → arr4.

Local Abbreviation load_psf := (load_psf resize astype_original).

(** X11: the conditioning of a grayscale PSF in closed form.  With [m] the
    mean of the background region, every entry [x] becomes [max (x - m) 0]
    (the upper bound of the clip, the maximum of the array, never cuts);
    the array is then resized and divided by its norm, and the background
    returned is [m]. *)
Theorem grayscale_conditioning_closed_form psf use_3d p d a b m shape :
  canonical use_3d psf = Ok (true, p) →
  mean (flat4 (region p a b)) = Some m →
  d ≠ 0 →
  load_psf psf (Some d) true (Some (a, b)) false shape use_3d =
    Ok (normalize {| is_nan := false;
                     values := resize (map4 (λ x, Rmax (x - m) 0) p) shape (Some (1 / d)) |},
        {| bg_nan := false; bg_val := BgScalar m |}).
Proof.
  intros Hcan Hm Hd.
  apply load_psf_float.
  by rewrite (pre_normalised_eq resize _ _ _ _ _ _ _ _ _ _ _ Hcan
                (subtract_background_gray _ _ _ _ Hm) (inv_downsample_Some _ Hd)).
Qed.

(** ** A measurement darker than the background *)

Lemma list_Rmax_shift l b mx :
  list_Rmax l = Some mx → list_Rmax (map (λ x, x - b) l) = Some (mx - b).
Proof.
  destruct l as [|a l]; [done|]. simpl. intros [= <-]. f_equal.
  revert a. induction l as [|c l IH]; intros a; simpl; [done|].
  rewrite <- IH. f_equal. unfold Rmax.
  destruct (Rle_dec (a - b) (c - b)), (Rle_dec a c); lra.
Qed.

Lemma clip_inverted mx y : mx < 0 → clip 0 mx y = mx.
Proof.
  intros H. unfold clip. apply Rmin_right.
  apply Rle_trans with 0; [lra|apply Rmax_r].
Qed.

(** X12: the clip of the measurement has the maximum of the array as its
    upper bound, and that bound wins over the lower bound 0: when every
    pixel of a two-dimensional measurement is below the background level
    [b], the measurement is not set to zero but, in every entry, to its
    largest value minus [b], which is negative. *)
Theorem dark_measurement_is_negative (d : list (list R)) b mx psf_shape :
  list_Rmax (concat d) = Some mx →
  mx < b →
  conditioned_data resize (Arr2 d) {| bg_nan := false; bg_val := BgScalar b |} psf_shape =
    Ok {| is_nan := false;
          values :=
            let data := [map (map (λ _, [mx - b])) d] in
            if bool_decide (shape4 data = psf_shape) then data
            else resize data (Some psf_shape) None |}.
Proof.
  intros Hmx Hlt. unfold conditioned_data. cbn [bg_val bg_nan sub_bg mbind result_bind nd_map].
  cbn [nd_flat]. rewrite concat_fmap.
  rewrite (list_Rmax_shift _ b mx Hmx). cbn [from_option mbind result_bind expand nd_map].
  assert (E : map (map (λ x, [x])) (map (map (clip 0 (mx - b))) (map (map (λ x, x - b)) d))
              = map (map (λ _, [mx - b])) d).
  { rewrite !map_map. apply map_ext. intros row. rewrite !map_map. apply map_ext.
    intros x. f_equal. apply clip_inverted. lra. }
  by rewrite E.
Qed.

End ClosedForm.

Lemma grayscale_conditioning_closed_form_witness :
  load_psf resize_nearest (λ a, a) unit_image (Some 1) true (Some (0, 1)%Z) false None false =
    Ok (normalize {| is_nan := false;
                     values := resize_nearest
                                 (map4 (λ x, Rmax (x - 0) 0) [[[[0]; [0]]; [[0]; [1]]]])
                                 None (Some (1 / 1)) |},
        {| bg_nan := false; bg_val := BgScalar 0 |}).
Proof.
  apply (grayscale_conditioning_closed_form resize_nearest (λ a, a) unit_image false
           [[[[0]; [0]]; [[0]; [1]]]] 1 0%Z 1%Z 0 None).
  - apply canonical_gray2.
  - unfold mean. simpl. f_equal. lra.
  - lra.
Defined.

Lemma dark_measurement_is_negative_witness :
  conditioned_data resize_nearest (Arr2 [[1; 2]]) {| bg_nan := false; bg_val := BgScalar 5 |}
    [1; 1; 2; 1]%nat =
    Ok {| is_nan := false;
          values :=
            let data := [map (map (λ _, [Rmax 1 2 - 5])) [[1; 2]]] in
            if bool_decide (shape4 data = [1; 1; 2; 1]%nat) then data
            else resize_nearest data (Some [1; 1; 2; 1]%nat) None |}.
Proof.
  apply (dark_measurement_is_negative resize_nearest [[1; 2]] 5 (Rmax 1 2) [1; 1; 2; 1]%nat).
  - reflexivity.
  - apply Rmax_lub_lt; lra.
Defined.

(** ** The conditioned PSF does not depend on the exposure *)

Lemma py_take_map {A B} (f : A → B) (l : list A) a b :
  py_take (map f l) a b = map f (py_take l a b).
Proof.
  unfold py_take. rewrite length_map. destruct (py_slice (length l) a b) as [lo len].
  by rewrite <- fmap_drop, <- fmap_take.
Qed.

Lemma region_map4 f (p : arr4) a b : region (map4 f p) a b = map4 f (region p a b).
Proof.
  unfold region, map4. rewrite !map_map. apply map_ext. intros slice.
  rewrite py_take_map, !map_map. apply map_ext. intros row.
  by rewrite py_take_map.
Qed.

Lemma shape3_map3 {A B} (f : A → B) (a : list (list (list A))) :
  [length (map (map (map f)) a); length (hd [] (map (map (map f)) a));
   length (hd [] (hd [] (map (map (map f)) a)))]
  = [length a; length (hd [] a); length (hd [] (hd [] a))].
Proof.
  destruct a as [|s a]; [done|]. simpl. rewrite !length_map.
  destruct s as [|r s]; [done|]. simpl. by rewrite length_map.
Qed.

Lemma canonical_map4 f use_3d psf g p :
  canonical use_3d psf = Ok (g, p) →
  canonical use_3d (nd_map f psf) = Ok (g, map4 f p).
Proof.
  unfold canonical. intros H. apply bind_Ok in H as ([g' p'] & H & H').
  apply bind_Ok in H' as ([] & Ha & H'). injection H' as -> ->.
  assert (Hm : (if use_3d
                then match nd_map f psf with
                     | Arr3 a => Ok (true, map (map (map (λ x, [x]))) a)
                     | Arr4 a => Ok (false, a)
                     | Arr2 _ => Raise AssertionError
                     end
                else match nd_map f psf with
                     | Arr3 a => Ok (false, [a])
                     | Arr2 a => Ok (true, [map (map (λ x, [x])) a])
                     | Arr4 _ => Raise AssertionError
                     end) = Ok (g, map4 f p)).
  { destruct use_3d, psf as [a|a|a]; simplify_eq; simpl; try done.
    - do 2 f_equal. unfold map4. rewrite !map_map. apply map_ext. intros s.
      rewrite !map_map. apply map_ext. intros r. by rewrite !map_map.
    - do 2 f_equal. unfold map4. simpl. f_equal.
      rewrite !map_map. apply map_ext. intros r. by rewrite !map_map. }
  rewrite Hm. cbn [mbind result_bind].
  assert (Hf : forallb (λ slice, bool_decide (shape3 slice = shape3 (hd [] (map4 f p))))
                 (map4 f p) = true).
  { apply assert_Ok in Ha. rewrite forallb_forall in Ha. apply forallb_forall.
    intros s' Hs'. unfold map4 in Hs'. apply in_map_iff in Hs' as (s & <- & Hs).
    specialize (Ha s Hs). apply bool_decide_eq_true in Ha. apply bool_decide_eq_true.
    unfold shape3 in *. rewrite shape3_map3, Ha.
    unfold map4. destruct p as [|s0 p]; [done|]. simpl. by rewrite shape3_map3. }
  by rewrite Hf.
Qed.

Section Scaling.

Variable c : R.
Hypothesis c_pos : 0 < c.

Local Abbreviation scale := (λ x : R, c * x).

Lemma Rsum_scale l : Rsum (map scale l) = c * Rsum l.
Proof. induction l as [|x l IH]; simpl; [lra|]. rewrite IH. lra. Qed.

Lemma mean_scale l : mean (map scale l) = scale <$> mean l.
Proof.
  destruct l as [|x l]; [done|]. unfold mean.
  cbn [map fmap option_fmap option_map]. f_equal.
  cbn [Rsum fold_right length]. rewrite length_map.
  change (fold_right Rplus 0 (map scale l)) with (Rsum (map scale l)).
  rewrite Rsum_scale. unfold Rsum, Rdiv. ring.
Qed.

Lemma Rmax_scale x y : Rmax (c * x) (c * y) = c * Rmax x y.
Proof using c_pos. apply RmaxRmult. lra. Qed.

Lemma list_Rmax_scale l : list_Rmax (map scale l) = scale <$> list_Rmax l.
Proof using c_pos.
  destruct l as [|a l]; [done|]. simpl. f_equal.
  revert a. induction l as [|b l IH]; intros a; simpl; [done|].
  by rewrite Rmax_scale, IH.
Qed.

Lemma clip_scale mx y : clip 0 (c * mx) (c * y) = c * clip 0 mx y.
Proof using c_pos.
  unfold clip. replace 0 with (c * 0) at 1 by lra. rewrite Rmax_scale.
  unfold Rmin. destruct (Rle_dec (c * Rmax y 0) (c * mx)), (Rle_dec (Rmax y 0) mx);
    try done; nra.
Qed.

Lemma map4_clip_scale mx (p : arr4) :
  map4 (clip 0 (c * mx)) (map4 scale p) = map4 scale (map4 (clip 0 mx) p).
Proof using c_pos. rewrite !map4_map4. apply map4_ext_in. intros x _. apply clip_scale. Qed.

Lemma mapM_fmap {A B C} (f : A → option B) (h : B → C) (l : list A) :
  mapM (λ x, h <$> f x) l = map h <$> mapM f l.
Proof.
  induction l as [|x l IH]; [done|]. simpl. rewrite IH.
  destruct (f x); simpl; [|done]. by destruct (mapM f l).
Qed.

Lemma mapM_map {A B C} (f : B → option C) (h : A → B) (l : list A) :
  mapM f (map h l) = mapM (λ x, f (h x)) l.
Proof. induction l as [|x l IH]; [done|]. simpl. by rewrite IH. Qed.

Lemma mapM_ext {A B} (f g : A → option B) (l : list A) :
  (∀ x, f x = g x) → mapM f l = mapM g l.
Proof. intros H. induction l as [|x l IH]; [done|]. simpl. by rewrite H, IH. Qed.

Lemma channel_map4 f i (r : arr4) :
  channel i (map4 f r) = map (map (map f)) <$> channel i r.
Proof.
  unfold channel, map4. rewrite mapM_map, <- mapM_fmap. apply mapM_ext. intros s.
  rewrite mapM_map, <- mapM_fmap. apply mapM_ext. intros row.
  rewrite mapM_map, <- mapM_fmap. apply mapM_ext. intros px.
  apply list_lookup_fmap.
Qed.

Lemma sub_channel_scale i bg (p : arr4) :
  sub_channel i (c * bg) (map4 scale p) = map4 scale (sub_channel i bg p).
Proof.
  unfold sub_channel, map4. rewrite !map_map. apply map_ext. intros s.
  rewrite !map_map. apply map_ext. intros row.
  rewrite !map_map. apply map_ext. intros px.
  symmetry. apply (list_fmap_alter scale (λ x, x - bg) (λ x, x - c * bg)).
  apply Forall_forall. intros x _. lra.
Qed.

Lemma subtract_rgb_scale a b chans : ∀ (p : arr4) nan bgl bgl0 p' nan' bgl',
  subtract_rgb a b chans p nan bgl = Ok (p', nan', bgl') →
  ∃ bgl'', subtract_rgb a b chans (map4 scale p) nan bgl0 = Ok (map4 scale p', nan', bgl'').
Proof.
  induction chans as [|i chans IH]; intros p nan bgl bgl0 p' nan' bgl'; simpl.
  - intros [= <- <- <-]. eauto.
  - intros H. apply bind_Ok in H as (reg & Hreg & H). apply from_option_Ok in Hreg.
    rewrite region_map4, channel_map4, Hreg. cbn [fmap option_fmap option_map from_option
      mbind result_bind].
    rewrite flat3_map3, mean_scale.
    destruct (mean (flat3 reg)) as [bg_i|]; cbn [fmap option_fmap option_map].
    + rewrite sub_channel_scale. by eapply IH.
    + by eapply IH.
Qed.

Lemma subtract_background_scale g bg_pix (p : arr4) q bg :
  subtract_background g bg_pix p = Ok (q, bg) →
  ∃ bg', subtract_background g bg_pix (map4 scale p)
           = Ok ({| is_nan := is_nan q; values := map4 scale (values q) |}, bg').
Proof using c_pos.
  unfold subtract_background. destruct bg_pix as [[a b]|].
  2:{ intros [= <- <-]. simpl. eauto. }
  intros H. apply bind_Ok in H as ([[p1 nan] bg1] & Hsub & H).
  apply bind_Ok in H as (mx & Hmx & H). apply from_option_Ok in Hmx.
  injection H as <- <-. cbn [is_nan values].
  assert (Hs : ∃ bg2,
    (if g
     then match mean (flat4 (region (map4 scale p) a b)) with
          | Some bg => Ok (map4 (λ x, x - bg) (map4 scale p), false, BgScalar bg)
          | None => Ok (map4 scale p, true, BgScalar 0)
          end
     else '(psf, nan, bg) ← subtract_rgb a b [0; 1; 2]%nat (map4 scale p) false [];
          Ok (psf, nan, BgVec bg)) = Ok (map4 scale p1, nan, bg2)).
  { destruct g.
    - rewrite region_map4, flat4_map4, mean_scale.
      destruct (mean (flat4 (region p a b))) as [m|]; cbn [fmap option_fmap option_map].
      + injection Hsub as <- <- <-. eexists. do 3 f_equal.
        rewrite !map4_map4. apply map4_ext_in. intros x _. lra.
      + injection Hsub as <- <- <-. eauto.
    - apply bind_Ok in Hsub as ([[p2 nan2] bgl] & Hrgb & Hsub). injection Hsub as <- <- <-.
      destruct (subtract_rgb_scale _ _ _ _ _ _ [] _ _ _ Hrgb) as [bgl'' Hrgb'].
      rewrite Hrgb'. cbn [mbind result_bind]. eauto. }
  destruct Hs as [bg2 Hs]. rewrite Hs. cbn [mbind result_bind].
  rewrite flat4_map4, list_Rmax_scale, Hmx. cbn [fmap option_fmap option_map from_option
    mbind result_bind].
  rewrite map4_clip_scale. eauto.
Qed.

Lemma sum_channels_scale (a : arr4) : sum_channels (map4 scale a) = map4 scale (sum_channels a).
Proof.
  unfold sum_channels, map4. rewrite !map_map. apply map_ext. intros s.
  rewrite !map_map. apply map_ext. intros row.
  rewrite !map_map. apply map_ext. intros px. simpl. by rewrite Rsum_scale.
Qed.

Lemma channels_map4 f (a : arr4) :
  length (hd [] (hd [] (hd [] (map4 f a)))) = length (hd [] (hd [] (hd [] a))).
Proof.
  unfold map4. destruct a as [|s a]; [done|]. simpl.
  destruct s as [|row s]; [done|]. simpl.
  destruct row as [|px row]; [done|]. simpl. by rewrite length_map.
Qed.

Lemma norm_scale l : norm (map scale l) = c * norm l.
Proof using c_pos.
  unfold norm. rewrite map_map.
  replace (map (λ x, c * x * (c * x)) l) with (map (λ y, (c * c) * y) (map (λ x, x * x) l)).
  2:{ rewrite map_map. apply map_ext. intros x. lra. }
  assert (Hs : ∀ k, Rsum (map (λ y, c * c * y) k) = c * c * Rsum k).
  { induction k as [|y k IH]; simpl; [lra|]. rewrite IH. lra. }
  rewrite Hs, sqrt_mult_alt by nra. rewrite sqrt_square by lra. done.
Qed.

Lemma normalize_scale (a : farray) :
  is_nan (normalize a) = false →
  normalize {| is_nan := is_nan a; values := map4 scale (values a) |} = normalize a.
Proof using c_pos.
  unfold normalize. cbn [is_nan values].
  destruct (is_nan a) eqn:Hnan; [by rewrite Hnan|].
  rewrite flat4_map4, norm_scale.
  destruct (Req_dec_T (norm (flat4 (values a))) 0) as [E|Hn]; [done|]. intros _.
  destruct (Req_dec_T (c * norm (flat4 (values a))) 0) as [E|_]; [nra|].
  f_equal. rewrite map4_map4. apply map4_ext_in. intros x _. by field; split; lra.
Qed.

Variable resize : arr4 → option (list nat) → option R → arr4.
Variable astype_original : arr4 → arr4.

Hypothesis resize_scale : ∀ a s f, resize (map4 scale a) s f = map4 scale (resize a s f).

Local Abbreviation load_psf := (load_psf resize astype_original).

(** X13: the conditioned PSF does not depend on the exposure.  When the
    raw PSF is multiplied by a positive factor (and the resampling commutes
    with such a factor, as an interpolation does), [load_psf] with
    [return_float=True] returns the same array as before, whenever that
    array is finite. *)
Theorem conditioned_psf_exposure_invariant psf downsample bg_pix single_psf shape use_3d q bg :
  load_psf psf downsample true bg_pix single_psf shape use_3d = Ok (q, bg) →
  is_nan q = false →
  ∃ bg', load_psf (nd_map scale psf) downsample true bg_pix single_psf shape use_3d
           = Ok (q, bg').
Proof using c_pos resize_scale.
  intros H Hq. pose proof H as H'.
  apply load_psf_Ok_inv in H' as (g & p & q0 & factor & Hcan & Hsub & Hf).
  erewrite load_psf_float in H; [|by eapply pre_normalised_eq].
  injection H as <-.
  destruct (subtract_background_scale _ _ _ _ _ Hsub) as [bg' Hsub'].
  exists bg'.
  erewrite load_psf_float;
    [|eapply pre_normalised_eq; [by apply canonical_map4|exact Hsub'|exact Hf]].
  f_equal. cbn [is_nan values] in *. rewrite resize_scale, channels_map4.
  set (resized := resize (values q0) shape (Some factor)) in *.
  destruct (single_psf && (1 <? length (hd [] (hd [] (hd [] resized))))%nat).
  - rewrite sum_channels_scale.
    by rewrite <- (normalize_scale {| is_nan := is_nan q0; values := sum_channels resized |}).
  - by rewrite <- (normalize_scale {| is_nan := is_nan q0; values := resized |}).
Qed.

End Scaling.

Lemma resample_map {A B} (g : A → B) (d : A) n (l : list A) :
  resample (g d) n (map g l) = map g (resample d n l).
Proof.
  unfold resample. rewrite map_map, length_map. apply map_ext. intros i. apply map_nth.
Qed.

Lemma resize_nearest_map4 f (a : arr4) s fac :
  resize_nearest (map4 f a) s fac = map4 f (resize_nearest a s fac).
Proof.
  unfold resize_nearest.
  destruct s as [[|s0 [|h [|w [|s3 [|]]]]]|]; try done.
  unfold map4. rewrite !map_map. apply map_ext. intros slice.
  rewrite (resample_map (map (map f)) [] h slice : resample [] h _ = _).
  rewrite !map_map. apply map_ext. intros row.
  apply (resample_map (map f) [] w row).
Qed.

Lemma conditioned_psf_exposure_invariant_witness :
  ∃ q bg bg',
    load_psf resize_nearest (λ a, a) unit_image (Some 1) true (Some (0, 1)%Z) false None false
      = Ok (q, bg) ∧
    is_nan q = false ∧
    load_psf resize_nearest (λ a, a) (nd_map (λ x, 2 * x) unit_image) (Some 1) true
      (Some (0, 1)%Z) false None false = Ok (q, bg').
Proof.
  assert (Hm : mean (flat4 (region [[[[0]; [0]]; [[0]; [1]]]] 0 1)) = Some 0).
  { unfold mean. simpl. f_equal. lra. }
  pose proof (load_psf_float resize_nearest (λ a, a) _ _ _ _ _ _ _ _
                (pre_normalised_eq resize_nearest unit_image (Some 1) (Some (0, 1)%Z) false
                   None false _ _ _ _ _ (canonical_gray2 _)
                   (subtract_background_gray _ _ _ _ Hm) inv_downsample_one)) as H.
  cbn [is_nan values andb resize_nearest] in H.
  match type of H with _ = Ok (?q0, ?bg0) => set (q := q0) in *; set (bg := bg0) in * end.
  assert (Hq : is_nan q = false).
  { unfold q. rewrite normalize_finite; [done|done|]. cbn [values].
    apply (norm_nonzero_entry _ (Rmax (1 - 0) 0)).
    - unfold flat4, map4. cbn [map concat app]. rewrite !elem_of_cons. tauto.
    - pose proof (Rmax_l (1 - 0) 0). lra. }
  destruct (conditioned_psf_exposure_invariant 2 ltac:(lra) resize_nearest (λ a, a)
              (resize_nearest_map4 _) unit_image (Some 1) (Some (0, 1)%Z) false None false
              q bg H Hq) as [bg' H'].
  exists q, bg, bg'. by repeat split.
Defined.

(** ** The background does not depend on the resizing *)

Section BackgroundLevel.

Variable resize : arr4 → option (list nat) → option R → arr4.
Variable astype_original : arr4 → arr4.

Local Abbreviation load_psf := (load_psf resize astype_original).

(** Two calls of [load_psf] on one image, with one background region, end
    alike as far as the background goes, whatever the two non-zero
    downsampling factors and the other arguments. *)
Lemma load_psf_background psf d1 d2 rf1 rf2 bg_pix sp1 sp2 sh1 sh2 use_3d :
  d1 ≠ 0 → d2 ≠ 0 →
  match load_psf psf (Some d1) rf1 bg_pix sp1 sh1 use_3d,
        load_psf psf (Some d2) rf2 bg_pix sp2 sh2 use_3d with
  | Ok (_, bg1), Ok (_, bg2) => bg1 = bg2
  | Raise e1, Raise e2 => e1 = e2
  | _, _ => False
  end.
Proof.
  intros H1 H2. unfold Io.load_psf, Io.pre_normalised.
  destruct (canonical use_3d psf) as [[g p]|e]; [|done]. cbn [mbind result_bind].
  destruct (subtract_background g bg_pix p) as [[q bg]|e]; [|done]. cbn [mbind result_bind].
  rewrite !inv_downsample_Some by done. cbn [mbind result_bind].
  by destruct rf1, rf2.
Qed.

(** X22: the background level that [load_psf] returns is taken from the
    image before it is resized: it depends on the image, on [bg_pix] and
    on [use_3d] alone, not on the downsampling factor, the target shape,
    [single_psf] or [return_float]. *)
Theorem background_independent_of_resizing psf d1 d2 rf1 rf2 bg_pix sp1 sp2 sh1 sh2 use_3d
    q1 q2 bg1 bg2 :
  load_psf psf d1 rf1 bg_pix sp1 sh1 use_3d = Ok (q1, bg1) →
  load_psf psf d2 rf2 bg_pix sp2 sh2 use_3d = Ok (q2, bg2) →
  bg1 = bg2.
Proof.
  intros H1 H2.
  apply load_psf_Ok_inv in H1 as (g1 & p1 & q01 & f1 & Hc1 & Hs1 & _).
  apply load_psf_Ok_inv in H2 as (g2 & p2 & q02 & f2 & Hc2 & Hs2 & _).
  rewrite Hc1 in Hc2. injection Hc2 as <- <-. rewrite Hs1 in Hs2. by injection Hs2.
Qed.

End BackgroundLevel.

Lemma background_independent_of_resizing_witness :
  ∃ q1 q2 bg,
    load_psf resize_nearest (λ a, a) unit_image (Some 1) true (Some (0, 1)%Z) false None false
      = Ok (q1, bg) ∧
    load_psf resize_nearest (λ a, a) unit_image (Some 2) false (Some (0, 1)%Z) false None false
      = Ok (q2, bg).
Proof.
  assert (Hm : mean (flat4 (region [[[[0]; [0]]; [[0]; [1]]]] 0 1)) = Some 0).
  { unfold mean. simpl. f_equal. lra. }
  assert (H2 : 2 ≠ 0) by lra.
  pose proof (load_psf_float resize_nearest (λ a, a) _ _ _ _ _ _ _ _
                (pre_normalised_eq resize_nearest unit_image (Some 1) (Some (0, 1)%Z) false
                   None false _ _ _ _ _ (canonical_gray2 _)
                   (subtract_background_gray _ _ _ _ Hm) inv_downsample_one)) as Ha.
  destruct (load_psf resize_nearest (λ a, a) unit_image (Some 2) false (Some (0, 1)%Z) false
              None false) as [[q2 bg2]|e] eqn:Hb.
  - eexists _, q2, _. split; [exact Ha|].
    by rewrite (background_independent_of_resizing resize_nearest (λ a, a) unit_image
                  (Some 1) (Some 2) true false (Some (0, 1)%Z) false false None None false
                  _ _ _ _ Ha Hb).
  - exfalso. unfold load_psf in Hb.
    erewrite pre_normalised_eq in Hb;
      [|apply canonical_gray2|by apply subtract_background_gray|by apply inv_downsample_Some].
    discriminate.
Defined.

(** ** The conditioning of a colour PSF, in closed form *)

Lemma region_pixel_map (g : list R → list R) (p : arr4) a b :
  region (map (map (map g)) p) a b = map (map (map g)) (region p a b).
Proof.
  unfold region. rewrite !map_map. apply map_ext. intros slice.
  rewrite py_take_map, !map_map. apply map_ext. intros row.
  by rewrite py_take_map.
Qed.

Lemma channel_pixel_map (g : list R → list R) j (r : arr4) :
  (∀ px, g px !! j = px !! j) →
  channel j (map (map (map g)) r) = channel j r.
Proof.
  intros Hg. unfold channel. rewrite mapM_map. apply mapM_ext. intros s.
  rewrite mapM_map. apply mapM_ext. intros row.
  rewrite mapM_map. apply mapM_ext. intros px. apply Hg.
Qed.

Lemma channel_region_sub_channel i j bg (p : arr4) a b :
  i ≠ j →
  channel j (region (sub_channel i bg p) a b) = channel j (region p a b).
Proof.
  intros Hij. unfold sub_channel. rewrite region_pixel_map.
  apply channel_pixel_map. intros px. by apply list_lookup_alter_ne.
Qed.

Lemma subtract_rgb_run a b (p : arr4) r0 r1 r2 m0 m1 m2 :
  channel 0 (region p a b) = Some r0 → mean (flat3 r0) = Some m0 →
  channel 1 (region p a b) = Some r1 → mean (flat3 r1) = Some m1 →
  channel 2 (region p a b) = Some r2 → mean (flat3 r2) = Some m2 →
  subtract_rgb a b [0; 1; 2]%nat p false [] =
    Ok (sub_channel 2 m2 (sub_channel 1 m1 (sub_channel 0 m0 p)), false, [m0; m1; m2]).
Proof.
  intros H0 M0 H1 M1 H2 M2.
  cbn [subtract_rgb]. rewrite H0. cbn [from_option mbind result_bind]. rewrite M0.
  cbn [subtract_rgb]. rewrite (channel_region_sub_channel 0 1) by done.
  rewrite H1. cbn [from_option mbind result_bind]. rewrite M1.
  rewrite (channel_region_sub_channel 1 2), (channel_region_sub_channel 0 2) by done.
  rewrite H2. cbn [from_option mbind result_bind]. rewrite M2.
  reflexivity.
Qed.

Lemma clipped_pixel mx m0 m1 m2 (px : list R) :
  0 <= mx →
  Forall (λ x, x <= mx)
    (alter (λ x, x - m2) 2%nat (alter (λ x, x - m1) 1%nat (alter (λ x, x - m0) 0%nat px))) →
  map (clip 0 mx) (alter (λ x, x - m2) 2%nat (alter (λ x, x - m1) 1%nat (alter (λ x, x - m0) 0%nat px)))
  = imap (λ i x, Rmax (x - nth i [m0; m1; m2] 0) 0) px.
Proof.
  intros H0 Hle. apply list_eq. intros i.
  rewrite list_lookup_fmap, list_lookup_imap.
  rewrite Forall_lookup in Hle. specialize (Hle i).
  destruct i as [|[|[|i]]].
  - rewrite list_lookup_alter_ne, list_lookup_alter_ne, list_lookup_alter_eq in * by done.
    destruct (px !! 0%nat) as [x|]; [|done]. simpl in *.
    f_equal. apply clip_below_max; [done|]. by apply Hle.
  - rewrite list_lookup_alter_ne, list_lookup_alter_eq, list_lookup_alter_ne in * by done.
    destruct (px !! 1%nat) as [x|]; [|done]. simpl in *.
    f_equal. apply clip_below_max; [done|]. by apply Hle.
  - rewrite list_lookup_alter_eq, !list_lookup_alter_ne in * by done.
    destruct (px !! 2%nat) as [x|]; [|done]. simpl in *.
    f_equal. apply clip_below_max; [done|]. by apply Hle.
  - rewrite !list_lookup_alter_ne in * by done.
    destruct (px !! S (S (S i))) as [x|]; [|done]. simpl in *.
    f_equal. replace (x - match i with 0%nat | _ => 0 end) with x by (destruct i; lra).
    apply clip_below_max; [done|]. by apply Hle.
Qed.

Lemma map_pixels_ext (f g : list R → list R) (p : arr4) :
  (∀ px, px ∈ pixels p → f px = g px) →
  map (map (map f)) p = map (map (map g)) p.
Proof.
  intros H. apply map_ext_in. intros s Hs. apply map_ext_in. intros row Hrow.
  apply map_ext_in. intros px Hpx. apply H. unfold pixels.
  apply elem_of_concat. exists row. split; [by apply list_elem_of_In|].
  apply elem_of_concat. exists s. split; by apply list_elem_of_In.
Qed.

Section ColourClosedForm.

Variable resize : arr4 → option (list nat) → option R → arr4.
Variable astype_original : arr4 → arr4.

Local Abbreviation load_psf := (load_psf resize astype_original).

(** X27: the conditioning of a colour PSF in closed form.  With [m0],
    [m1] and [m2] the means of the three colour channels over the
    background region, the entry [x] of channel [i] becomes
    [max (x - mi) 0] (an entry of a further channel, [max x 0]): each
    channel has its own background, the mean of one channel is not changed
    by the subtraction in another, and the upper bound of the clip never
    cuts.  The array is then resized and divided by its norm; the
    background returned is the vector of the three means. *)
Theorem colour_conditioning_closed_form psf use_3d p d a b r0 r1 r2 m0 m1 m2 shape :
  canonical use_3d psf = Ok (false, p) →
  channel 0 (region p a b) = Some r0 → mean (flat3 r0) = Some m0 →
  channel 1 (region p a b) = Some r1 → mean (flat3 r1) = Some m1 →
  channel 2 (region p a b) = Some r2 → mean (flat3 r2) = Some m2 →
  d ≠ 0 →
  load_psf psf (Some d) true (Some (a, b)) false shape use_3d =
    Ok (normalize
          {| is_nan := false;
             values :=
               resize
                 (map (map (map (imap (λ i x, Rmax (x - nth i [m0; m1; m2] 0) 0)))) p)
                 shape (Some (1 / d)) |},
        {| bg_nan := false; bg_val := BgVec [m0; m1; m2] |}).
Proof.
  intros Hcan H0 M0 H1 M1 H2 M2 Hd.
  pose proof (subtract_rgb_run _ _ _ _ _ _ _ _ _ H0 M0 H1 M1 H2 M2) as Hrgb.
  set (p3 := sub_channel 2 m2 (sub_channel 1 m1 (sub_channel 0 m0 p))) in *.
  assert (Hne : flat4 p3 ≠ []).
  { destruct (rgb_step_entry 2 (sub_channel 1 m1 (sub_channel 0 m0 p)) a b r2 m2)
      as (x & Hx & _); [|done|].
    - by rewrite !channel_region_sub_channel.
    - intros E. fold p3 in Hx. rewrite E in Hx. by apply elem_of_nil in Hx. }
  destruct (list_Rmax_is_Some _ Hne) as [mx Hmx].
  pose proof (subtract_rgb_max _ _ _ _ _ _ Hrgb Hmx) as Hmx0.
  assert (Hsub : subtract_background false (Some (a, b)) p =
    Ok ({| is_nan := false;
           values := map (map (map (imap (λ i x, Rmax (x - nth i [m0; m1; m2] 0) 0)))) p |},
        {| bg_nan := false; bg_val := BgVec [m0; m1; m2] |})).
  { unfold subtract_background. rewrite Hrgb. cbn [mbind result_bind].
    rewrite Hmx. cbn [from_option mbind result_bind]. do 3 f_equal.
    unfold p3, sub_channel, map4. rewrite !map_map.
    apply map_ext_in. intros s Hs. rewrite !map_map.
    apply map_ext_in. intros row Hrow. rewrite !map_map.
    apply map_ext_in. intros px Hpx.
    apply clipped_pixel; [done|]. apply Forall_forall. intros x Hx.
    eapply list_Rmax_ge; [exact Hmx|]. apply elem_of_flat4.
    exists (alter (λ x, x - m2) 2%nat (alter (λ x, x - m1) 1%nat (alter (λ x, x - m0) 0%nat px))).
    split; [done|]. unfold p3.
    do 3 apply sub_channel_pixels. unfold pixels.
    apply elem_of_concat. exists row. split; [by apply list_elem_of_In|].
    apply elem_of_concat. exists s. split; by apply list_elem_of_In. }
  apply load_psf_float.
  by rewrite (pre_normalised_eq resize _ _ _ _ _ _ _ _ _ _ _ Hcan Hsub
                (inv_downsample_Some _ Hd)).
Qed.

(** ** The measurement, in closed form *)

Lemma map2_ext_in (f g : R → list R) (d : list (list R)) :
  (∀ x, x ∈ concat d → f x = g x) → map (map f) d = map (map g) d.
Proof.
  intros H. apply map_ext_in. intros row Hrow. apply map_ext_in. intros x Hx.
  apply H. apply elem_of_concat. exists row. split; by apply list_elem_of_In.
Qed.

(** X28: a two-dimensional measurement with a pixel at or above the scalar
    background [b] is conditioned entry by entry: [x] becomes
    [max (x - b) 0]; the array is then brought to the layout and, if it
    differs, to the shape of the PSF. *)
Theorem measurement_closed_form (d : list (list R)) b mx psf_shape :
  list_Rmax (concat d) = Some mx →
  b <= mx →
  conditioned_data resize (Arr2 d) {| bg_nan := false; bg_val := BgScalar b |} psf_shape =
    Ok {| is_nan := false;
          values :=
            let data := [map (map (λ x, [Rmax (x - b) 0])) d] in
            if bool_decide (shape4 data = psf_shape) then data
            else resize data (Some psf_shape) None |}.
Proof.
  intros Hmx Hle. unfold conditioned_data. cbn [bg_val bg_nan sub_bg mbind result_bind nd_map].
  cbn [nd_flat]. rewrite concat_fmap.
  rewrite (list_Rmax_shift _ b mx Hmx). cbn [from_option mbind result_bind expand nd_map].
  assert (E : map (map (λ x, [x])) (map (map (clip 0 (mx - b))) (map (map (λ x, x - b)) d))
              = map (map (λ x, [Rmax (x - b) 0])) d).
  { rewrite !map_map.
    transitivity (map (map (λ x, [clip 0 (mx - b) (x - b)])) d).
    { apply map_ext. intros row. by rewrite !map_map. }
    apply map2_ext_in. intros x Hx. f_equal.
    apply clip_below_max; [lra|]. pose proof (list_Rmax_ge _ _ _ Hmx Hx). lra. }
  by rewrite E.
Qed.

End ColourClosedForm.

Lemma colour_conditioning_closed_form_witness :
  load_psf resize_nearest (λ a, a) (Arr3 [[[1; 2; 3]]]) (Some 1) true (Some (0, 1)%Z) false
    None false =
    Ok (normalize
          {| is_nan := false;
             values :=
               resize_nearest
                 (map (map (map (imap (λ i x, Rmax (x - nth i [1; 2; 3] 0) 0))))
                    [[[[1; 2; 3]]]])
                 None (Some (1 / 1)) |},
        {| bg_nan := false; bg_val := BgVec [1; 2; 3] |}).
Proof.
  apply (colour_conditioning_closed_form resize_nearest (λ a, a) (Arr3 [[[1; 2; 3]]]) false
           [[[[1; 2; 3]]]] 1 0%Z 1%Z [[[1]]] [[[2]]] [[[3]]] 1 2 3 None).
  - reflexivity.
  - reflexivity.
  - unfold mean. simpl. f_equal. lra.
  - reflexivity.
  - unfold mean. simpl. f_equal. lra.
  - reflexivity.
  - unfold mean. simpl. f_equal. lra.
  - lra.
Defined.

Lemma measurement_closed_form_witness :
  conditioned_data resize_nearest (Arr2 [[1; 7]]) {| bg_nan := false; bg_val := BgScalar 5 |}
    [1; 1; 2; 1]%nat =
    Ok {| is_nan := false;
          values :=
            let data := [map (map (λ x, [Rmax (x - 5) 0])) [[1; 7]]] in
            if bool_decide (shape4 data = [1; 1; 2; 1]%nat) then data
            else resize_nearest data (Some [1; 1; 2; 1]%nat) None |}.
Proof.
  apply (measurement_closed_form resize_nearest [[1; 7]] 5 (Rmax 1 7) [1; 1; 2; 1]%nat).
  - reflexivity.
  - pose proof (Rmax_r 1 7). lra.
Defined.

End IoFacts.

(** ** Saving an image *)

Module IoSaveFacts.

Import Slm IoSave SlmFacts.

Lemma fold_left_Qmin_le l : ∀ a x, (x = a ∨ x ∈ l) → (fold_left Qmin l a <= x)%Q.
Proof.
  induction l as [|b l IH]; intros a x Hx; simpl.
  - destruct Hx as [->|Hx]; [apply Qle_refl|]. by apply elem_of_nil in Hx.
  - destruct Hx as [->|Hx].
    + eapply Qle_trans; [|apply (Q.le_min_l a b)]. apply IH. by left.
    + apply elem_of_cons in Hx as [->|Hx].
      * eapply Qle_trans; [|apply (Q.le_min_r a b)]. apply IH. by left.
      * apply IH. by right.
Qed.

Lemma list_min_le l mn x : list_min l = Some mn → x ∈ l → (mn <= x)%Q.
Proof.
  destruct l as [|a l]; [done|]. simpl. intros [= <-] Hx.
  apply fold_left_Qmin_le. apply elem_of_cons in Hx. tauto.
Qed.

Lemma fold_left_Qmin_elem_of l : ∀ a, fold_left Qmin l a = a ∨ fold_left Qmin l a ∈ l.
Proof.
  induction l as [|b l IH]; intros a; simpl; [by left|].
  destruct (IH (Qmin a b)) as [H|H]; [|right; by right].
  rewrite H. unfold Qmin, GenericMinMax.gmin. destruct (a ?= b)%Q; [by left|by left|right; left].
Qed.

Lemma list_min_elem_of l mn : list_min l = Some mn → mn ∈ l.
Proof.
  destruct l as [|a l]; [done|]. simpl. intros [= <-].
  destruct (fold_left_Qmin_elem_of l a) as [-> | H]; [left|by right].
Qed.

(** The maximum of the shifted array is the shifted maximum. *)
Lemma list_max_shifted l mn mx mx' :
  list_max l = Some mx → list_max (map (λ x, x - mn)%Q l) = Some mx' →
  (mx' == mx - mn)%Q.
Proof.
  intros Hmx Hmx'. apply Qle_antisym.
  - apply list_max_elem_of in Hmx'. apply list_elem_of_fmap in Hmx' as (x & -> & Hx).
    apply Qplus_le_l. by eapply list_max_ge.
  - eapply list_max_ge; [exact Hmx'|].
    apply (list_elem_of_fmap_2 (λ x, x - mn)%Q). by apply list_max_elem_of.
Qed.

Lemma Qtrunc_nonneg q : (0 <= q)%Q → Qtrunc q = Qfloor q.
Proof.
  intros H. destruct q as [n d]. unfold Qtrunc, Qfloor. simpl.
  apply Z.quot_div_nonneg; [|done]. unfold Qle in H. simpl in H. lia.
Qed.

Section SaveImageFacts.

Variable cast_undefined : fval → Z.

Local Abbreviation save_image := (save_image cast_undefined).

(** X14: a float image that is not constant is saved rescaled to the range
    0..[max_val].  For [0 <= max_val < 256] the call returns; the byte
    saved for an entry [x] is the integer part of
    [(x - min) / (max - min) * max_val], which lies between 0 and the
    integer part of [max_val], is 0 where the image has its minimum and the
    integer part of [max_val] where it has its maximum, and never depends
    on how the platform casts values that a byte cannot hold.  The caller's
    array does not keep its values: it is left holding the rescaled ones. *)
Theorem save_image_rescales l mn mx max_val :
  list_min l = Some mn → list_max l = Some mx → (mn < mx)%Q →
  (0 <= max_val)%Q → (max_val < 256)%Q →
  ∃ bytes arr,
    save_image (FloatImage l) max_val = Ok (bytes, Rescaled arr) ∧
    ∀ i x, l !! i = Some x →
      ∃ q, arr !! i = Some (Fin q) ∧
           (q == (x - mn) / (mx - mn) * max_val)%Q ∧
           bytes !! i = Some (Qtrunc q) ∧
           (0 <= Qtrunc q <= Qtrunc max_val)%Z ∧
           ((x == mn)%Q → Qtrunc q = 0%Z) ∧
           ((x == mx)%Q → Qtrunc q = Qtrunc max_val).
Proof.
  intros Hmn Hmx Hlt Hk0 Hk.
  assert (Hne : map (λ x, x - mn)%Q l ≠ []).
  { destruct l; [done|]. done. }
  destruct (list_max_is_Some _ Hne) as [mx' Hmx'].
  pose proof (list_max_shifted _ _ _ _ Hmx Hmx') as Emx.
  assert (Hpos : (0 < mx')%Q) by (rewrite Emx; Lqa.lra).
  assert (Hnz : ¬ (mx' == 0)%Q) by (intros E; rewrite E in Hpos; by apply Qlt_irrefl in Hpos).
  unfold IoSave.save_image. rewrite Hmn. cbn [from_option mbind result_bind].
  rewrite Hmx'. cbn [from_option mbind result_bind].
  eexists _, _. split; [reflexivity|]. intros i x Hx.
  exists ((x - mn) / mx' * max_val)%Q.
  assert (Harr : map (λ v, fmul v max_val) (map (λ x, fdiv x mx') (map (λ x, x - mn)%Q l)) !! i
                 = Some (Fin ((x - mn) / mx' * max_val))).
  { rewrite !list_lookup_fmap, Hx. simpl. by rewrite fdiv_finite. }
  assert (Hx0 : (0 <= x - mn)%Q).
  { apply list_elem_of_lookup_2 in Hx. pose proof (list_min_le _ _ _ Hmn Hx). Lqa.lra. }
  assert (Hx1 : (x - mn <= mx')%Q).
  { apply list_elem_of_lookup_2 in Hx. pose proof (list_max_ge _ _ _ Hmx Hx).
    rewrite Emx. Lqa.lra. }
  assert (Hr0 : (0 <= (x - mn) / mx')%Q).
  { apply Qle_shift_div_l; [done|]. by rewrite Qmult_0_l. }
  assert (Hr1 : ((x - mn) / mx' <= 1)%Q).
  { apply Qle_shift_div_r; [done|]. by rewrite Qmult_1_l. }
  assert (Hq0 : (0 <= (x - mn) / mx' * max_val)%Q) by (by apply Qmult_le_0_compat).
  assert (Hq1 : ((x - mn) / mx' * max_val <= max_val)%Q).
  { rewrite <- (Qmult_1_l max_val) at 2. by apply Qmult_le_compat_r. }
  assert (Ht : (0 <= Qtrunc ((x - mn) / mx' * max_val) <= Qtrunc max_val)%Z).
  { rewrite !Qtrunc_nonneg by done. split.
    - change 0%Z with (Qfloor 0). by apply Qfloor_resp_le.
    - by apply Qfloor_resp_le. }
  assert (Hk255 : (Qtrunc max_val <= 255)%Z).
  { rewrite Qtrunc_nonneg by done. apply Z.lt_succ_r.
    change (Z.succ 255) with 256%Z. rewrite <- (Qfloor_Z 256).
    assert (Hlt' : (inject_Z (Qfloor max_val) < inject_Z 256)%Q).
    { eapply Qle_lt_trans; [apply Qfloor_le|done]. }
    rewrite <- Zlt_Qlt in Hlt'. by rewrite Qfloor_Z. }
  split; [exact Harr|]. split; [by rewrite Emx|]. split; [|split; [exact Ht|split]].
  - rewrite list_lookup_fmap, Harr. simpl. f_equal.
    destruct (Z.leb_spec 0 (Qtrunc ((x - mn) / mx' * max_val))); [|lia].
    destruct (Z.leb_spec (Qtrunc ((x - mn) / mx' * max_val)) 255); [done|lia].
  - intros E. rewrite Qtrunc_nonneg by done.
    assert (E0 : ((x - mn) / mx' * max_val == 0)%Q).
    { rewrite E. field. exact Hnz. }
    by rewrite E0.
  - intros E. rewrite !Qtrunc_nonneg by done.
    assert (E1 : ((x - mn) / mx' * max_val == max_val)%Q).
    { rewrite E, Emx. field. intros E'. rewrite <- Emx in E'. by apply Hnz. }
    by rewrite E1.
Qed.

(** X15: a constant float image is saved without any error, but not as
    a constant the code chooses: the division by the maximum of the shifted
    array is 0/0, so the caller's array is left holding NaN in every entry,
    and every byte saved is whatever the platform casts NaN to. *)
Theorem save_image_constant n v max_val :
  save_image (FloatImage (replicate (S n) v)) max_val =
    Ok (replicate (S n) (cast_undefined NaN), Rescaled (replicate (S n) NaN)).
Proof.
  assert (Hmin : ∀ m, fold_left Qmin (replicate m v) v = v).
  { induction m as [|m IH]; simpl; [done|].
    replace (Qmin v v) with v; [done|].
    unfold Qmin, GenericMinMax.gmin. by destruct (v ?= v)%Q. }
  assert (Hmax : ∀ m u, fold_left Qmax (replicate m u) u = u).
  { intros m u. induction m as [|m IH]; simpl; [done|].
    replace (Qmax u u) with u; [done|].
    unfold Qmax, GenericMinMax.gmax. by destruct (u ?= u)%Q. }
  unfold IoSave.save_image, list_min. cbn [replicate]. rewrite Hmin.
  cbn [from_option mbind result_bind].
  change (v :: replicate n v) with (replicate (S n) v). rewrite !fmap_replicate.
  unfold list_max. cbn [replicate]. rewrite Hmax. cbn [from_option mbind result_bind].
  change ((v - v)%Q :: replicate n (v - v)%Q) with (replicate (S n) (v - v)%Q).
  rewrite !fmap_replicate.
  assert (E : fdiv (v - v) (v - v) = NaN).
  { apply fdiv_zero_zero; ring. }
  by rewrite E.
Qed.

End SaveImageFacts.

Lemma save_image_rescales_witness :
  ∃ bytes arr,
    save_image (λ _, 0%Z) (FloatImage [1; 3; 2]%Q) 255 = Ok (bytes, Rescaled arr) ∧
    ∀ i x, [1; 3; 2]%Q !! i = Some x →
      ∃ q, arr !! i = Some (Fin q) ∧
           (q == (x - 1) / (3 - 1) * 255)%Q ∧
           bytes !! i = Some (Qtrunc q) ∧
           (0 <= Qtrunc q <= Qtrunc 255)%Z ∧
           ((x == 1)%Q → Qtrunc q = 0%Z) ∧
           ((x == 3)%Q → Qtrunc q = Qtrunc 255).
Proof.
  apply (save_image_rescales (λ _, 0%Z) [1; 3; 2]%Q 1 3 255); reflexivity || discriminate.
Defined.

End IoSaveFacts.

(** ** The aperture of the simulation script *)

Module DigicamFacts.

Import Slm Digicam SlmFacts.

Lemma in_range_offset lo len i : (i < len)%nat → in_range lo len (lo + i) = true.
Proof.
  intros H. unfold in_range. apply andb_true_iff. split.
  - apply Nat.leb_le. lia.
  - apply Nat.ltb_lt. lia.
Qed.

Lemma py_take_lookup {A} (l : list A) a b i :
  Io.py_take l a b !! i =
    if decide (i < snd (py_slice (length l) a b))%nat
    then l !! (fst (py_slice (length l) a b) + i)%nat else None.
Proof.
  unfold Io.py_take. destruct (py_slice (length l) a b) as [lo len]. simpl.
  rewrite lookup_take. destruct (decide (i < len)%nat); [|done]. apply lookup_drop.
Qed.

Lemma py_take_imap_map {A B} (F : nat → A → A) (G : A → B) (l : list A) a b :
  (∀ i x, in_range (fst (py_slice (length l) a b)) (snd (py_slice (length l) a b)) i = true →
          l !! i = Some x → G (F i x) = G x) →
  map G (Io.py_take (imap F l) a b) = map G (Io.py_take l a b).
Proof.
  intros H. apply list_eq. intros i. rewrite !list_lookup_fmap, !py_take_lookup.
  rewrite length_imap. destruct (decide (i < _)%nat) as [Hi|]; [|done].
  rewrite list_lookup_imap.
  destruct (l !! (_ + i)%nat) as [x|] eqn:Hx; [|done]. simpl. f_equal.
  apply H; [|done]. by apply in_range_offset.
Qed.

Lemma py_take_imap {A} (F : nat → A → A) (l : list A) a b :
  (∀ i x, in_range (fst (py_slice (length l) a b)) (snd (py_slice (length l) a b)) i = true →
          l !! i = Some x → F i x = x) →
  Io.py_take (imap F l) a b = Io.py_take l a b.
Proof.
  intros H. rewrite <- (map_id (Io.py_take (imap F l) a b)), <- (map_id (Io.py_take l a b)).
  by apply py_take_imap_map.
Qed.

Lemma zip_with_imap {A B C} (f : A → B → C) (g : nat → A → B) (l : list A) :
  zip_with f l (imap g l) = imap (λ i v, f v (g i v)) l.
Proof.
  apply list_eq. intros i. rewrite lookup_zip_with, !list_lookup_imap.
  by destruct (l !! i).
Qed.

(** The pattern times its aperture, cell by cell. *)
Lemma apply_aperture_eq pattern ap_center ap_shape :
  apply_aperture pattern (aperture pattern ap_center ap_shape) =
    map (λ ch,
      imap (λ y row,
        imap (λ x v,
          (v * (let '(r0, nr) := py_slice (length ch) (fst (top_left ap_center ap_shape))
                                   (fst (bottom_right ap_center ap_shape)) in
                let '(c0, nc) := py_slice (length row) (snd (top_left ap_center ap_shape))
                                   (snd (bottom_right ap_center ap_shape)) in
                if in_range r0 nr y && in_range c0 nc x then 1 else 0))%Z) row) ch) pattern.
Proof.
  unfold apply_aperture, aperture.
  rewrite (zip_with_fmap_r (zip_with (zip_with Z.mul))), zip_with_diag.
  apply map_ext. intros ch. rewrite zip_with_imap. apply imap_ext. intros y row _.
  by rewrite zip_with_imap.
Qed.

(** The region extracted from the pattern times its aperture is the region
    of the pattern itself. *)
Lemma pattern_sub_apply_aperture pattern ap_center ap_shape :
  pattern_sub (apply_aperture pattern (aperture pattern ap_center ap_shape))
    ap_center ap_shape = pattern_sub pattern ap_center ap_shape.
Proof.
  rewrite apply_aperture_eq. unfold pattern_sub, top_left, bottom_right. cbn [fst snd].
  rewrite map_map. apply map_ext. intros ch.
  apply py_take_imap_map. intros y row Hy _.
  apply py_take_imap. intros x v Hx _.
  destruct (py_slice (length ch) _ _) as [r0 nr].
  destruct (py_slice (length row) _ _) as [c0 nc]. cbn [fst snd] in *.
  rewrite Hy, Hx. simpl. lia.
Qed.

Lemma py_take_elem_of {A} (l : list A) a b x : x ∈ Io.py_take l a b → x ∈ l.
Proof.
  unfold Io.py_take. destruct (py_slice (length l) a b) as [lo len].
  intros H. eapply subseteq_drop, subseteq_take, H.
Qed.

Lemma slm_vals_eq pattern ap_center ap_shape :
  slm_vals pattern ap_center ap_shape =
    map (map (map (λ z, inject_Z z / 255)%Q)) (pattern_sub pattern ap_center ap_shape).
Proof. unfold slm_vals. by rewrite pattern_sub_apply_aperture. Qed.

(** X16: the aperture does not alter the values that are handed to the
    mask: they are the entries of the slice
    [pattern[:, idx_1 : idx_1 + h, idx_2 : idx_2 + w]] of the pattern as it
    was loaded, divided by 255; for an 8-bit pattern they lie in [0, 1]. *)
Theorem slm_vals_from_loaded_pattern pattern ap_center ap_shape :
  slm_vals pattern ap_center ap_shape =
    map (map (map (λ z, inject_Z z / 255)%Q)) (pattern_sub pattern ap_center ap_shape) ∧
  (Forall (Forall (Forall (λ z, 0 <= z <= 255)%Z)) pattern →
   Forall (Forall (Forall (λ v, 0 <= v <= 1)%Q)) (slm_vals pattern ap_center ap_shape)).
Proof.
  pose proof (slm_vals_eq pattern ap_center ap_shape) as E.
  split; [exact E|]. intros H. rewrite E. unfold pattern_sub.
  rewrite !Forall_forall in *. intros ch' Hch'.
  apply list_elem_of_fmap in Hch' as (ch0 & -> & Hch0).
  apply list_elem_of_fmap in Hch0 as (ch & -> & Hch).
  specialize (H ch Hch). rewrite !Forall_forall in *. intros row' Hrow'.
  apply list_elem_of_fmap in Hrow' as (row0 & -> & Hrow0).
  apply list_elem_of_fmap in Hrow0 as (row & -> & Hrow).
  apply py_take_elem_of in Hrow. specialize (H row Hrow).
  rewrite !Forall_forall in *. intros v Hv.
  apply list_elem_of_fmap in Hv as (z & -> & Hz).
  apply py_take_elem_of in Hz. specialize (H z Hz). simpl in H.
  destruct H as [H0 H1]. rewrite Zle_Qle in H0. rewrite Zle_Qle in H1.
  revert H0 H1. generalize (inject_Z z). intros q H0 H1.
  change (inject_Z 0) with 0%Q in H0. change (inject_Z 255) with 255%Q in H1.
  unfold Qdiv. change (/ 255)%Q with (1 # 255)%Q. split; Lqa.lra.
Qed.

Lemma slm_vals_from_loaded_pattern_witness :
  slm_vals [[[10; 20; 30]; [40; 50; 60]]]%Z (1, 1)%Z (2, 2)%Z =
    map (map (map (λ z, inject_Z z / 255)%Q))
      (pattern_sub [[[10; 20; 30]; [40; 50; 60]]]%Z (1, 1)%Z (2, 2)%Z) ∧
  Forall (Forall (Forall (λ v, 0 <= v <= 1)%Q))
    (slm_vals [[[10; 20; 30]; [40; 50; 60]]]%Z (1, 1)%Z (2, 2)%Z).
Proof.
  destruct (slm_vals_from_loaded_pattern [[[10; 20; 30]; [40; 50; 60]]]%Z (1, 1)%Z (2, 2)%Z)
    as [E H].
  split; [exact E|]. apply H. repeat constructor; lia.
Defined.

Lemma py_slice_inside n a len :
  (a + len <= n)%nat →
  py_slice n (Z.of_nat a) (Z.of_nat a + Z.of_nat len) = (a, len).
Proof.
  intros H. unfold py_slice, slice_bound.
  destruct (Z.ltb_spec (Z.of_nat a) 0); [lia|].
  destruct (Z.ltb_spec (Z.of_nat a + Z.of_nat len) 0); [lia|].
  f_equal; lia.
Qed.

Lemma py_take_inside {A} (l : list A) a len :
  (a + len <= length l)%nat →
  Io.py_take l (Z.of_nat a) (Z.of_nat a + Z.of_nat len) = take len (drop a l).
Proof. intros H. unfold Io.py_take. by rewrite py_slice_inside. Qed.

(** X17: an aperture that lies within the pattern selects a region of its
    own shape: with [(r0, c0)] its top-left corner and [h] x [w] its shape,
    the values handed to the mask have [h] rows and [w] columns in every
    channel, and the value at row [i] and column [j] is the entry of the
    loaded pattern at row [r0 + i] and column [c0 + j], divided by 255. *)
Theorem aperture_inside_pattern pattern ap_center ap_shape C H W r0 c0 h w :
  has_shape C H W pattern →
  top_left ap_center ap_shape = (Z.of_nat r0, Z.of_nat c0) →
  ap_shape = (Z.of_nat h, Z.of_nat w) →
  (r0 + h <= H)%nat → (c0 + w <= W)%nat →
  has_shape C h w (slm_vals pattern ap_center ap_shape) ∧
  ∀ k i j, (i < h)%nat → (j < w)%nat →
    pixel (slm_vals pattern ap_center ap_shape) k i j =
      (λ z, inject_Z z / 255)%Q <$> pixel pattern k (r0 + i) (c0 + j).
Proof.
  intros [HC Hp] Htl -> Hh Hw.
  rewrite slm_vals_eq. unfold pattern_sub.
  unfold top_left in Htl. cbn [fst snd] in *. injection Htl as -> ->.
  split.
  - apply has_shape_map. split; [by rewrite length_map|].
    apply Forall_map. eapply Forall_impl; [exact Hp|]. intros ch [HH Hch]. simpl.
    rewrite py_take_inside by lia. split.
    + rewrite length_map, length_take, length_drop. lia.
    + apply Forall_map. apply Forall_take, Forall_drop.
      eapply Forall_impl; [exact Hch|]. intros row HW. simpl in *.
      rewrite py_take_inside by lia. rewrite length_take, length_drop. lia.
  - intros k i j Hi Hj. rewrite pixel_map. f_equal.
    unfold pixel. rewrite list_lookup_fmap.
    destruct (pattern !! k) as [ch|] eqn:Hk; [|done]. simpl.
    rewrite Forall_forall in Hp.
    destruct (Hp ch (list_elem_of_lookup_2 _ _ _ Hk)) as [HH Hch]. simpl in HH.
    rewrite py_take_inside by lia.
    rewrite list_lookup_fmap, lookup_take, lookup_drop.
    destruct (decide (i < h)%nat); [|lia].
    destruct (ch !! (r0 + i)%nat) as [row|] eqn:Hrow; [|done]. simpl.
    rewrite Forall_forall in Hch.
    pose proof (Hch row (list_elem_of_lookup_2 _ _ _ Hrow)) as HW. simpl in HW.
    rewrite py_take_inside by lia.
    rewrite lookup_take, lookup_drop. by destruct (decide (j < w)%nat); [|lia].
Qed.

Lemma aperture_inside_pattern_witness :
  has_shape 1 2 2 (slm_vals [[[10; 20; 30]; [40; 50; 60]]]%Z (1, 1)%Z (2, 2)%Z) ∧
  ∀ k i j, (i < 2)%nat → (j < 2)%nat →
    pixel (slm_vals [[[10; 20; 30]; [40; 50; 60]]]%Z (1, 1)%Z (2, 2)%Z) k i j =
      (λ z, inject_Z z / 255)%Q <$> pixel [[[10; 20; 30]; [40; 50; 60]]]%Z k (0 + i) (0 + j).
Proof.
  apply (aperture_inside_pattern [[[10; 20; 30]; [40; 50; 60]]]%Z (1, 1)%Z (2, 2)%Z
           1 2 3 0 0 2 2); try reflexivity; try lia.
  split; [reflexivity|]. repeat constructor.
Defined.

Lemma py_slice_across_edge n a h :
  (a < 0)%Z → (0 <= a + h)%Z → (h <= Z.of_nat n)%Z → snd (py_slice n a (a + h)) = 0%nat.
Proof.
  intros Ha Hh Hn. unfold py_slice, slice_bound. simpl.
  destruct (Z.ltb_spec a 0); [|lia]. destruct (Z.ltb_spec (a + h) 0); lia.
Qed.

Lemma py_take_across_edge {A} (l : list A) a h :
  (a < 0)%Z → (0 <= a + h)%Z → (h <= Z.of_nat (length l))%Z → Io.py_take l a (a + h) = [].
Proof.
  intros Ha Hh Hn. unfold Io.py_take.
  pose proof (py_slice_across_edge (length l) a h Ha Hh Hn) as E.
  destruct (py_slice (length l) a (a + h)) as [lo len]. simpl in E. by subst len.
Qed.

Lemma concat_concat_empty {A} (l : list (list (list A))) :
  Forall (Forall (λ row, row = [])) l → concat (concat l) = [].
Proof.
  intros H. induction H as [|ch l Hch _ IH]; simpl; [done|].
  rewrite concat_app, IH, app_nil_r.
  induction Hch as [|row ch -> _ IH']; simpl; done.
Qed.

(** X18: an aperture that crosses the top or the left edge of the pattern
    is not cut at the edge: its first index is negative and is counted from
    the far end, so that, the aperture being no larger than the pattern,
    the slice is empty and no value at all is handed to the mask. *)
Theorem aperture_across_edge_is_empty pattern ap_center ap_shape :
  ((fst (top_left ap_center ap_shape) < 0 <= fst (top_left ap_center ap_shape) + fst ap_shape)%Z ∧
   Forall (λ ch, (fst ap_shape <= Z.of_nat (length ch))%Z) pattern) ∨
  ((snd (top_left ap_center ap_shape) < 0 <= snd (top_left ap_center ap_shape) + snd ap_shape)%Z ∧
   Forall (Forall (λ row, (snd ap_shape <= Z.of_nat (length row))%Z)) pattern) →
  concat (concat (slm_vals pattern ap_center ap_shape)) = [].
Proof.
  intros H. rewrite slm_vals_eq. apply concat_concat_empty.
  unfold pattern_sub, top_left in *. cbn [fst snd] in *.
  apply Forall_map, Forall_map. apply Forall_forall. intros ch Hch. simpl.
  destruct H as [[[H1 H2] Hp] | [[H1 H2] Hp]]; rewrite Forall_forall in Hp.
  - rewrite py_take_across_edge; [constructor|done|done|by apply Hp].
  - apply Forall_map, Forall_map. apply Forall_forall. intros row Hrow. simpl.
    apply py_take_elem_of in Hrow. specialize (Hp ch Hch).
    rewrite Forall_forall in Hp.
    rewrite py_take_across_edge; [done|done|done|by apply Hp].
Qed.

Lemma aperture_across_edge_is_empty_witness :
  concat (concat (slm_vals [[[1; 2; 3]; [4; 5; 6]; [7; 8; 9]]]%Z (0, 1)%Z (2, 2)%Z)) = [].
Proof.
  apply aperture_across_edge_is_empty. left. split.
  - unfold top_left. cbn [fst snd]. change (2 / 2)%Z with 1%Z. lia.
  - repeat constructor. simpl. lia.
Defined.

End DigicamFacts.

(** ** The table of trained models *)

Module ModelDictFacts.

Import ModelDict.

Lemma check_key {A} (o : option A) :
  (if bool_decide (is_Some o) then Ok tt else Raise ValueError) =
    match o with Some _ => Ok tt | None => Raise ValueError end.
Proof.
  destruct o.
  - by rewrite bool_decide_eq_true_2 by (by eexists).
  - by rewrite bool_decide_eq_false_2 by apply is_Some_None.
Qed.

Section DownloadFacts.

Variable model_dir_path : string.
Variable path_join : list string → string.
Variable snapshot_download : string → string → gset string → gset string.

Local Abbreviation download_model :=
  (download_model model_dir_path path_join snapshot_download).

Lemma download_model_Ok camera dataset model fs dir fs' :
  download_model camera dataset model fs = Ok (dir, fs') →
  ∃ by_dataset by_model repo_id,
    model_dict !! camera = Some by_dataset ∧ by_dataset !! dataset = Some by_model ∧
    by_model !! model = Some repo_id ∧
    dir = path_join [model_dir_path; camera; dataset; model] ∧
    ((dir ∈ existing fs ∧ fs' = fs) ∨
     ((dir ∉ existing fs) ∧
      fs' = {| existing := snapshot_download repo_id dir (existing fs);
               downloaded := downloaded fs ++ [(repo_id, dir)] |})).
Proof.
  unfold ModelDict.download_model. intros H.
  apply bind_Ok in H as ([] & _ & H).
  apply bind_Ok in H as (t1 & H1 & H). apply from_option_Ok in H1.
  apply bind_Ok in H as ([] & _ & H).
  apply bind_Ok in H as (t2 & H2 & H). apply from_option_Ok in H2.
  apply bind_Ok in H as ([] & _ & H).
  apply bind_Ok in H as (r & H3 & H). apply from_option_Ok in H3.
  exists t1, t2, r. repeat split; try done.
  - destruct (bool_decide _); by injection H as <- _.
  - destruct (bool_decide_reflect
                (path_join [model_dir_path; camera; dataset; model] ∈ existing fs)) as [Hin|Hout];
      injection H as <- <-; [by left|by right].
Qed.

Lemma download_model_run camera dataset model fs by_dataset by_model repo_id :
  model_dict !! camera = Some by_dataset → by_dataset !! dataset = Some by_model →
  by_model !! model = Some repo_id →
  download_model camera dataset model fs =
    let model_dir := path_join [model_dir_path; camera; dataset; model] in
    if bool_decide (model_dir ∈ existing fs) then Ok (model_dir, fs)
    else Ok (model_dir,
             {| existing := snapshot_download repo_id model_dir (existing fs);
                downloaded := downloaded fs ++ [(repo_id, model_dir)] |}).
Proof.
  intros H1 H2 H3. unfold ModelDict.download_model.
  rewrite check_key, H1. cbn [mbind result_bind from_option].
  rewrite check_key, H2. cbn [mbind result_bind from_option].
  rewrite check_key, H3. reflexivity.
Qed.

(** X19: [download_model] validates its three keys before anything else.
    It returns exactly when the table has an entry for the camera, the
    dataset and the model; otherwise it raises [ValueError], never a
    [KeyError]; and it can only return for the camera "digicam" and the
    dataset "celeba_26k". *)
Theorem download_model_validates_keys camera dataset model fs :
  (∀ e, download_model camera dataset model fs = Raise e → e = ValueError) ∧
  (is_ok (download_model camera dataset model fs) ↔
   ∃ by_dataset by_model repo_id,
     model_dict !! camera = Some by_dataset ∧ by_dataset !! dataset = Some by_model ∧
     by_model !! model = Some repo_id) ∧
  (is_ok (download_model camera dataset model fs) →
   camera = "digicam"%string ∧ dataset = "celeba_26k"%string).
Proof.
  assert (Hiff : is_ok (download_model camera dataset model fs) →
     ∃ by_dataset by_model repo_id,
       model_dict !! camera = Some by_dataset ∧ by_dataset !! dataset = Some by_model ∧
       by_model !! model = Some repo_id).
  { intros [[dir fs'] H]. apply download_model_Ok in H as (t1 & t2 & r & H1 & H2 & H3 & _).
    eauto 6. }
  split; [|split; [split; [exact Hiff|]|]].
  - unfold ModelDict.download_model. intros e. rewrite check_key.
    destruct (model_dict !! camera) as [t1|]; [|by intros [= <-]].
    cbn [mbind result_bind from_option]. rewrite check_key.
    destruct (t1 !! dataset) as [t2|]; [|by intros [= <-]].
    cbn [mbind result_bind from_option]. rewrite check_key.
    destruct (t2 !! model) as [r|]; [|by intros [= <-]].
    cbn [mbind result_bind from_option].
    by destruct (bool_decide _).
  - intros (t1 & t2 & r & H1 & H2 & H3).
    rewrite (download_model_run _ _ _ _ _ _ _ H1 H2 H3). cbv zeta.
    destruct (bool_decide _); eexists; reflexivity.
  - intros Hok. destruct (Hiff Hok) as (t1 & t2 & r & H1 & H2 & _).
    unfold model_dict in H1. apply lookup_singleton_Some in H1 as [<- <-].
    apply lookup_singleton_Some in H2 as [<- _]. done.
Qed.

(** X20: [download_model] downloads a model at most once.  Provided that
    [snapshot_download] creates the directory it is given, a call that
    returns leaves the directory of the model in place, has made at most
    one download, into that directory, and a second call with the same keys
    returns the same directory without changing anything. *)
Theorem download_model_caches camera dataset model fs dir fs' :
  (∀ repo_id local_dir paths, local_dir ∈ snapshot_download repo_id local_dir paths) →
  download_model camera dataset model fs = Ok (dir, fs') →
  dir ∈ existing fs' ∧
  (downloaded fs' = downloaded fs ∨ ∃ repo_id, downloaded fs' = downloaded fs ++ [(repo_id, dir)]) ∧
  download_model camera dataset model fs' = Ok (dir, fs').
Proof.
  intros Hcreate H.
  apply download_model_Ok in H as (t1 & t2 & r & H1 & H2 & H3 & Hdir & Hcase).
  assert (Hin : dir ∈ existing fs').
  { destruct Hcase as [[Hin ->] | [_ ->]]; [done|]. simpl. apply Hcreate. }
  split; [exact Hin|]. split.
  - destruct Hcase as [[_ ->] | [_ ->]]; [by left|right; by exists r].
  - rewrite (download_model_run _ _ _ _ _ _ _ H1 H2 H3). cbv zeta. rewrite <- Hdir.
    by rewrite bool_decide_eq_true_2.
Qed.

End DownloadFacts.

Lemma download_model_caches_witness :
  "models/digicam/celeba_26k/unet8M"%string
    ∈ existing {| existing := {["models/digicam/celeba_26k/unet8M"%string]};
                  downloaded := [("bezzam/digicam-celeba-unet8M",
                                  "models/digicam/celeba_26k/unet8M")]%string |} ∧
  ([("bezzam/digicam-celeba-unet8M", "models/digicam/celeba_26k/unet8M")]%string = [] ∨
   ∃ repo_id, [("bezzam/digicam-celeba-unet8M", "models/digicam/celeba_26k/unet8M")]%string
              = [] ++ [(repo_id, "models/digicam/celeba_26k/unet8M"%string)]) ∧
  download_model "models" (foldr (λ a b, if decide (b = "") then a else a +:+ "/" +:+ b) "")%string
    (λ _ local_dir paths, {[local_dir]} ∪ paths)
    "digicam" "celeba_26k" "unet8M"
    {| existing := {["models/digicam/celeba_26k/unet8M"%string]};
       downloaded := [("bezzam/digicam-celeba-unet8M",
                       "models/digicam/celeba_26k/unet8M")]%string |}
  = Ok ("models/digicam/celeba_26k/unet8M"%string,
        {| existing := {["models/digicam/celeba_26k/unet8M"%string]};
           downloaded := [("bezzam/digicam-celeba-unet8M",
                           "models/digicam/celeba_26k/unet8M")]%string |}).
Proof.
  apply (download_model_caches "models"
           (foldr (λ a b, if decide (b = "") then a else a +:+ "/" +:+ b) "")%string
           (λ _ local_dir paths, {[local_dir]} ∪ paths)
           "digicam" "celeba_26k" "unet8M"
           {| existing := ∅; downloaded := [] |}).
  - intros. set_solver.
  - vm_compute. reflexivity.
Defined.

End ModelDictFacts.

(** ** The benchmark *)

Module BenchmarkFacts.

Import Io Benchmark IoFacts.
Local Open Scope R_scope.

Lemma py_take_prefix_length {A} (l : list A) n :
  length (py_take l 0 n) =
    if (n <? 0)%Z then (length l - Z.to_nat (- n))%nat
    else Nat.min (Z.to_nat n) (length l).
Proof.
  unfold py_take, py_slice.
  assert (E0 : slice_bound (length l) 0 = 0%Z).
  { unfold slice_bound. simpl. lia. }
  rewrite E0. change (Z.to_nat 0) with 0%nat. rewrite drop_0, length_take, Z.sub_0_r.
  unfold slice_bound. destruct (Z.ltb_spec n 0); lia.
Qed.

Section DatasetFacts.

Variable tensor : Type.
Variable path_join : string → string → string.
Variable glob : string → list string.
Variable basename : string → string.

Local Abbreviation init := (init tensor path_join glob basename).

(** X23: the number of items of a [ParallelDataset].  With [found] the
    files that the search in the folder "diffuser" finds, the dataset has
    all of them when [n_files] is [None], [False] or 0 (zero does not make
    an empty dataset), the first [n_files] of them when [n_files] is
    positive (all of them if there are fewer), and all but the last
    [-n_files] when it is negative. *)
Theorem dataset_length root n_files bg t_lensless t_lensed :
  len tensor (init root n_files bg t_lensless t_lensed) =
    let found := length (glob (path_join root "diffuser" +:+ "/*.npy")) in
    match n_files with
    | None => found
    | Some n =>
        if (n =? 0)%Z then found
        else if (n <? 0)%Z then (found - Z.to_nat (- n))%nat
        else Nat.min (Z.to_nat n) found
    end.
Proof.
  unfold len, Benchmark.init. cbn [files]. rewrite length_map.
  destruct n_files as [n|]; [|done].
  destruct (n =? 0)%Z; [done|]. simpl. apply py_take_prefix_length.
Qed.

End DatasetFacts.

Lemma chunks_nil {A} fuel n : chunks fuel n (@nil A) = [].
Proof. by destruct fuel. Qed.

Section BenchmarkFacts.

Variable tensor : Type.
Variable path_join : string → string → string.
Variable glob : string → list string.
Variable basename : string → string.
Variable np_load : string → result tensor.
Variable sub : tensor → tensor → tensor.
Variable resize : arr4 → option (list nat) → option R → arr4.
Variable astype_original : arr4 → arr4.
Variable from_numpy : Io.background → tensor.
Variable collate : list (tensor * tensor) → tensor * tensor.
Variable squeeze : tensor → tensor.
Variable channels_first : tensor → tensor.
Variable div_amax : tensor → tensor.
Variable psf_is_tensor : bool.
Variable apply_model : tensor → result tensor.
Variable batch_call : result tensor.
Variable MSELoss L1Loss LPIPS PSNR SSIM : tensor → tensor → R.

Local Abbreviation init := (init tensor path_join glob basename).
Local Abbreviation metrics := (metrics tensor MSELoss L1Loss LPIPS PSNR SSIM).
Local Abbreviation add_metrics := (add_metrics tensor MSELoss L1Loss LPIPS PSNR SSIM).
Local Abbreviation predict_batch :=
  (predict_batch tensor path_join np_load sub collate squeeze channels_first div_amax
     apply_model batch_call).
Local Abbreviation run_batches :=
  (run_batches tensor path_join np_load sub collate squeeze channels_first div_amax
     apply_model batch_call MSELoss L1Loss LPIPS PSNR SSIM).
Local Abbreviation benchmark :=
  (benchmark tensor path_join glob basename np_load sub resize astype_original from_numpy
     collate squeeze channels_first div_amax psf_is_tensor apply_model batch_call
     MSELoss L1Loss LPIPS PSNR SSIM).

(** X24: on a dataset without any file, [benchmark] raises
    [ZeroDivisionError]: the model is asserted to hold a torch PSF, the PSF
    is loaded, the loop does not run, and the average divides by the zero
    batches of the loader. *)
Theorem benchmark_empty_dataset psf data downsample n_files batchsize q bg :
  psf_is_tensor = true →
  load_psf resize astype_original psf (Some downsample) true (Some (0, 15)%Z) false None false
    = Ok (q, bg) →
  glob (path_join data "diffuser" +:+ "/*.npy") = [] →
  batchsize ≠ 0%nat →
  benchmark psf data downsample n_files batchsize = Raise ZeroDivisionError.
Proof.
  intros Hpsf Hload Hglob Hb. unfold Benchmark.benchmark.
  rewrite Hpsf. cbn [assert mbind result_bind]. rewrite Hload. cbn [mbind result_bind].
  apply Nat.eqb_neq in Hb. rewrite Hb. cbn [mbind result_bind].
  assert (Hlen : len tensor (init data n_files (Some (from_numpy bg)) None None) = 0%nat).
  { rewrite dataset_length, Hglob. simpl.
    destruct n_files as [n|]; [|done]. destruct (n =? 0)%Z, (n <? 0)%Z; simpl; lia. }
  rewrite Hlen. reflexivity.
Qed.

Lemma add_metrics_lookup prediction lensed vals name f :
  (name, f) ∈ metrics →
  add_metrics prediction lensed vals !! name
    = Some (default 0 (vals !! name) + f prediction lensed).
Proof.
  unfold Benchmark.add_metrics, Benchmark.metrics. cbn [fold_left fst snd].
  rewrite !elem_of_cons, elem_of_nil.
  intros [[= -> ->] | [[= -> ->] | [[= -> ->] | [[= -> ->] | [[= -> ->] | []]]]]];
    repeat (rewrite lookup_insert_ne by done); rewrite lookup_insert;
    repeat (rewrite lookup_insert_ne by done); reflexivity.
Qed.

Lemma run_batches_sum ds batchsize batches : ∀ vals vals',
  run_batches ds batchsize vals batches = Ok vals' →
  ∃ pairs,
    Forall2 (λ indices pl, predict_batch ds batchsize indices = Ok pl) batches pairs ∧
    ∀ name f, (name, f) ∈ metrics →
      default 0 (vals' !! name)
        = default 0 (vals !! name) + Rsum (map (λ pl, f (fst pl) (snd pl)) pairs).
Proof.
  induction batches as [|indices batches IH]; intros vals vals' H; simpl in H.
  - injection H as <-. exists []. split; [constructor|]. intros. simpl. lra.
  - apply bind_Ok in H as (vals1 & H1 & H).
    unfold Benchmark.run_batch in H1. apply bind_Ok in H1 as ([p l] & Hp & H1).
    injection H1 as <-.
    destruct (IH _ _ H) as (pairs & Hpairs & Hsum).
    exists ((p, l) :: pairs). split; [by constructor|].
    intros name f Hin. rewrite (Hsum name f Hin), (add_metrics_lookup _ _ _ _ _ Hin).
    simpl. lra.
Qed.

Lemma run_batches_Some ds batchsize batches : ∀ vals vals' name f,
  batches ≠ [] →
  run_batches ds batchsize vals batches = Ok vals' →
  (name, f) ∈ metrics →
  is_Some (vals' !! name).
Proof.
  induction batches as [|indices batches IH]; intros vals vals' name f Hne H Hin; [done|].
  simpl in H. apply bind_Ok in H as (vals1 & H1 & H).
  destruct batches as [|indices' batches].
  - simpl in H. injection H as <-.
    unfold Benchmark.run_batch in H1. apply bind_Ok in H1 as ([p l] & _ & H1).
    injection H1 as <-. rewrite (add_metrics_lookup _ _ _ _ _ Hin). eauto.
  - by eapply (IH vals1).
Qed.

Lemma initial_metrics name :
  default 0 ((list_to_map (map (λ m, (fst m, 0)) metrics) : gmap string R) !! name) = 0.
Proof.
  destruct (_ !! name) as [v|] eqn:E; [|done]. simpl.
  apply elem_of_list_to_map_2 in E.
  apply list_elem_of_fmap in E as ([n f] & [= _ ->] & _). done.
Qed.

(** X25: what [benchmark] returns.  Whenever it returns, the loader has
    formed at least one batch, every batch has been processed, and each of
    the five metrics "MSE", "MAE", "LPIPS", "PSNR" and "SSIM" is reported
    as the sum, over the batches, of the metric of the normalised
    prediction and the normalised reference, divided by the number of
    batches. *)
Theorem benchmark_reports_batch_means psf data downsample n_files batchsize vals :
  benchmark psf data downsample n_files batchsize = Ok vals →
  ∃ q bg pairs,
    load_psf resize astype_original psf (Some downsample) true (Some (0, 15)%Z) false None
      false = Ok (q, bg) ∧
    pairs ≠ [] ∧
    (let ds := init data n_files (Some (from_numpy bg)) None None in
     Forall2 (λ indices pl, predict_batch ds batchsize indices = Ok pl)
       (chunks (len tensor ds) batchsize (seq 0 (len tensor ds))) pairs) ∧
    ∀ name f, (name, f) ∈ metrics →
      vals !! name
        = Some (Rsum (map (λ pl, f (fst pl) (snd pl)) pairs) / INR (length pairs)).
Proof.
  unfold Benchmark.benchmark. intros H.
  apply bind_Ok in H as ([] & _ & H). apply bind_Ok in H as ([q bg] & Hload & H).
  apply bind_Ok in H as ([] & _ & H). cbv zeta in H.
  apply bind_Ok in H as (vals' & Hrun & H).
  set (ds := init data n_files (Some (from_numpy bg)) None None) in *.
  destruct (length (chunks (len tensor ds) batchsize (seq 0 (len tensor ds))) =? 0)%nat
    eqn:Hn; [done|].
  injection H as <-. apply Nat.eqb_neq in Hn.
  destruct (run_batches_sum _ _ _ _ _ Hrun) as (pairs & Hpairs & Hsum).
  pose proof (Forall2_length _ _ _ Hpairs) as Hlen.
  exists q, bg, pairs. split; [done|]. split; [|split; [exact Hpairs|]].
  - intros ->. simpl in Hlen. lia.
  - intros name f Hin. rewrite lookup_fmap.
    specialize (Hsum name f Hin). rewrite initial_metrics in Hsum.
    assert (Hne : chunks (len tensor ds) batchsize (seq 0 (len tensor ds)) ≠ []).
    { intros E. rewrite E in Hn. simpl in Hn. lia. }
    destruct (run_batches_Some _ _ _ _ _ _ _ Hne Hrun Hin) as [v Hv].
    rewrite Hv in *. simpl in Hsum. simpl. rewrite Hlen. f_equal. rewrite Hsum. lra.
Qed.

(** X26: the argument [downsample] of [benchmark] has no effect on the
    metrics: the conditioned PSF, the only value that depends on it, is not
    used, and neither the background nor the data is resized.  Two calls
    that differ in their non-zero downsampling factors alone return the
    same metrics or raise the same exception. *)
Theorem benchmark_ignores_downsample psf data d1 d2 n_files batchsize :
  d1 ≠ 0 → d2 ≠ 0 →
  benchmark psf data d1 n_files batchsize = benchmark psf data d2 n_files batchsize.
Proof.
  intros H1 H2. unfold Benchmark.benchmark.
  destruct psf_is_tensor; [|done]. cbn [assert mbind result_bind].
  pose proof (load_psf_background resize astype_original psf d1 d2 true true
                (Some (0, 15)%Z) false false None None false H1 H2) as Hbg.
  destruct (load_psf resize astype_original psf (Some d1) true (Some (0, 15)%Z) false None
              false) as [[q1 bg1]|e1],
           (load_psf resize astype_original psf (Some d2) true (Some (0, 15)%Z) false None
              false) as [[q2 bg2]|e2]; try done; by subst.
Qed.

End BenchmarkFacts.

Lemma unit_image_loads d :
  d ≠ 0 →
  ∃ q bg, load_psf resize_nearest (λ a, a) unit_image (Some d) true (Some (0, 15)%Z) false
            None false = Ok (q, bg).
Proof.
  intros Hd.
  assert (Hm : mean (flat4 (region [[[[0]; [0]]; [[0]; [1]]]] 0 15)) = Some (1 / 4)).
  { unfold mean. simpl. f_equal. lra. }
  eexists _, _. apply load_psf_float. eapply pre_normalised_eq.
  - apply canonical_gray2.
  - by apply subtract_background_gray.
  - by apply inv_downsample_Some.
Qed.

Lemma benchmark_empty_dataset_witness :
  benchmark unit (λ a b, a +:+ "/" +:+ b)%string (λ _, []) (λ s, s) (λ _, Ok tt) (λ _ _, tt)
    resize_nearest (λ a, a) (λ _, tt) (λ _, (tt, tt)) (λ x, x) (λ x, x) (λ x, x) true
    (λ x, Ok x) (Ok tt) (λ _ _, 1) (λ _ _, 1) (λ _ _, 1) (λ _ _, 1) (λ _ _, 1)
    unit_image "data" 4 (Some 100%Z) 1 = Raise ZeroDivisionError.
Proof.
  destruct (unit_image_loads 4) as (q & bg & Hload); [lra|].
  eapply benchmark_empty_dataset; [reflexivity|exact Hload|reflexivity|lia].
Defined.

Lemma benchmark_ignores_downsample_witness :
  benchmark unit (λ a b, a +:+ "/" +:+ b)%string (λ _, []) (λ s, s) (λ _, Ok tt) (λ _ _, tt)
    resize_nearest (λ a, a) (λ _, tt) (λ _, (tt, tt)) (λ x, x) (λ x, x) (λ x, x) true
    (λ x, Ok x) (Ok tt) (λ _ _, 1) (λ _ _, 1) (λ _ _, 1) (λ _ _, 1) (λ _ _, 1)
    unit_image "data" 4 (Some 100%Z) 1 =
  benchmark unit (λ a b, a +:+ "/" +:+ b)%string (λ _, []) (λ s, s) (λ _, Ok tt) (λ _ _, tt)
    resize_nearest (λ a, a) (λ _, tt) (λ _, (tt, tt)) (λ x, x) (λ x, x) (λ x, x) true
    (λ x, Ok x) (Ok tt) (λ _ _, 1) (λ _ _, 1) (λ _ _, 1) (λ _ _, 1) (λ _ _, 1)
    unit_image "data" 8 (Some 100%Z) 1.
Proof. apply benchmark_ignores_downsample; lra. Defined.

Lemma benchmark_reports_batch_means_witness :
  ∃ vals,
    benchmark unit (λ a b, a +:+ "/" +:+ b)%string (λ _, ["data/diffuser/a.npy"]%string)
      (λ s, s) (λ _, Ok tt) (λ _ _, tt)
      resize_nearest (λ a, a) (λ _, tt) (λ _, (tt, tt)) (λ x, x) (λ x, x) (λ x, x) true
      (λ x, Ok x) (Ok tt) (λ _ _, 1) (λ _ _, 2) (λ _ _, 3) (λ _ _, 4) (λ _ _, 5)
      unit_image "data" 4 (Some 100%Z) 1 = Ok vals ∧
    ∃ pairs : list (unit * unit),
      pairs ≠ [] ∧
      vals !! "MAE"%string = Some (Rsum (map (λ _, 2) pairs) / INR (length pairs)).
Proof.
  destruct (unit_image_loads 4) as (q & bg & Hload); [lra|].
  eassert (Hrun : benchmark unit (λ a b, a +:+ "/" +:+ b)%string
                    (λ _, ["data/diffuser/a.npy"]%string)
      (λ s, s) (λ _, Ok tt) (λ _ _, tt)
      resize_nearest (λ a, a) (λ _, tt) (λ _, (tt, tt)) (λ x, x) (λ x, x) (λ x, x) true
      (λ x, Ok x) (Ok tt) (λ _ _, 1) (λ _ _, 2) (λ _ _, 3) (λ _ _, 4) (λ _ _, 5)
      unit_image "data" 4 (Some 100%Z) 1 = Ok _).
  { unfold benchmark. cbn [assert mbind result_bind]. rewrite Hload.
    cbn [mbind result_bind]. reflexivity. }
  eexists. split; [exact Hrun|].
  destruct (benchmark_reports_batch_means _ _ _ _ _ _ _ _ _ _ _ _ _ _ _ _ _ _ _ _ _
              _ _ _ _ _ _ Hrun) as (q' & bg' & pairs & _ & Hne & _ & Hvals).
  exists pairs. split; [exact Hne|].
  apply (Hvals "MAE"%string (λ _ _, 2)). right. left.
Defined.

End BenchmarkFacts.
